(** * Simulator.py: SRPT versus oracle packet scheduling

    A shallow embedding of [RpcTransportDesign/PythonSimulations/Simulator.py]
    and the properties of its queues, schedulers, driver and penalty
    aggregation.

    Conventions of the embedding.
    - Python integers are [Z]: ids, slots, delays, priorities, and the
      message sizes, which the docstring of [run] declares as integers.
    - A float that the code receives (a cumulative probability, a value of
      the random source, [rho]) is given by the rational [Q] it denotes.
      The float arithmetic of [run] (the mean size and [probPerSlot]) is
      IEEE 754 binary64 arithmetic, [dbl]: every operation rounds its exact
      result to the nearest double, ties to even, with the infinities and
      NaN.  The penalty terms of the aggregation and their sums are kept
      as the rationals they stand for.
    - Python lists are [list]; the dictionaries [msgDict] and
      [pktOutTimes[...]] are [gmap Z _].  The elements of a queue are
      distinct objects; where the code mutates an element in place the
      embedding replaces it at its position.
    - The two random sources are explicit streams: [rand n] is the value of
      the [n]-th call of [random.random()], [pois n] the value of the [n]-th
      call of [np.random.poisson(avgDelay)] (a natural number).  The number
      of draws made so far is part of the state.
    - Exceptions are values of [result]; the [while] loops take fuel. *)

From Stdlib Require Import ZArith QArith Lia.
From Stdlib Require PrimFloat FloatOps SpecFloat Uint63.
From stdpp Require Import base option list sorting gmap.

Local Open Scope Z_scope.

(** ** Outcomes of fallible code *)

Inductive exn : Set :=
| ZeroDivisionError
| TypeError
| NameError
| KeyError
| ValueError
| OverflowError
| AttributeError.

Inductive result (A : Type) : Type :=
| OK (a : A)
| Raised (e : exn)
| OutOfFuel.

Arguments OK {A} a.
Arguments Raised {A} e.
Arguments OutOfFuel {A}.

#[global] Instance result_ret : MRet result := fun A a => OK a.

#[global] Instance result_bind : MBind result := fun A B f m =>
  match m with
  | OK a => f a
  | Raised e => Raised e
  | OutOfFuel => OutOfFuel
  end.

(** ** Module constants *)

Definition avgDelay : Z := 3.
Definition fixedDelay : Z := 1.

(** ** Data *)

(** [msg]: the list [[message_id, message_size]]. *)
Record msg : Set := Msg { msg_id : Z; msg_size : Z }.

(** [pkt]: the list [[message_id, message_size, priority]]. *)
Record pkt : Set := Pkt { pkt_id : Z; pkt_size : Z; pkt_prio : Z }.

(** [delayedPkt]: the list [[message_id, message_size, priority, delay]]. *)
Record delayedPkt : Set :=
  DelayedPkt { dp_id : Z; dp_size : Z; dp_prio : Z; dp_delay : Z }.

(** [pkt_info]: the list [[time_slot, priority, msgSize]]. *)
Record pkt_info : Set := PktInfo { out_slot : Z; out_prio : Z; out_size : Z }.

(** A row [[cumulative_probability, size]] of [distMatrix]. *)
Record row : Set := Row { row_prob : Q; row_size : Z }.

#[global] Instance msg_eq_dec : EqDecision msg.
Proof. solve_decision. Defined.
#[global] Instance pkt_eq_dec : EqDecision pkt.
Proof. solve_decision. Defined.
#[global] Instance delayedPkt_eq_dec : EqDecision delayedPkt.
Proof. solve_decision. Defined.
#[global] Instance pkt_info_eq_dec : EqDecision pkt_info.
Proof. solve_decision. Defined.

(** ** Python list primitives *)

(** [l.remove(x)]: drops the first element equal to [x]; [None] stands for
    the [ValueError] raised when there is none. *)
Fixpoint py_remove {A} `{EqDecision A} (x : A) (l : list A) : option (list A) :=
  match l with
  | [] => None
  | y :: l' => if decide (y = x) then Some l' else (y ::.) <$> py_remove x l'
  end.

(** One step of a stable insertion: [x] goes in front of the first element
    whose key is not smaller. *)
Fixpoint insert_by {A} (key : A -> Z) (x : A) (l : list A) : list A :=
  match l with
  | [] => [x]
  | y :: l' => if decide (key x <= key y) then x :: l else y :: insert_by key x l'
  end.

(** [l.sort(cmp=lambda x, y: cmp(key(x), key(y)))]: Python's sort is stable,
    so the result is the stable ordering of [l] by [key]. *)
Definition sort_by {A} (key : A -> Z) (l : list A) : list A :=
  foldr (insert_by key) [] l.

(** [max(l)] on integers; [None] stands for the [ValueError] on [[]]. *)
Definition py_max (l : list Z) : option Z :=
  match l with
  | [] => None
  | x :: l' => Some (foldl Z.max x l')
  end.

(** Strict comparison of rationals as a boolean. *)
Definition Qlt_bool (x y : Q) : bool := negb (Qle_bool y x).

(** ** Python floats *)

(** A Python float is an IEEE 754 binary64 number: a rational [m * 2^t]
    with [|m| < 2^53] and [-1074 <= t <= 971], an infinity, or a NaN.  The
    sign of a zero is not kept: the code only tests zeros, compares them and
    divides them, and none of these sees the sign. *)
Inductive dbl : Set :=
| Fin (q : Q)
| PInf
| NInf
| NaN.

Coercion Fin : Q >-> dbl.
Bind Scope Q_scope with dbl.

(** [floor (log2 (n/d))]. *)
Definition ilog2 (n d : positive) : Z :=
  let e := Z.log2 (Zpos n) - Z.log2 (Zpos d) in
  if (if 0 <=? e then Zpos d * 2 ^ e <=? Zpos n
      else Zpos d <=? Zpos n * 2 ^ (- e))
  then e else e - 1.

(** The integer nearest to [n/d], the even one of two at the same
    distance ([0 <= n], [0 < d]). *)
Definition roundHalfEven (n d : Z) : Z :=
  let f := n / d in
  match 2 * (n mod d) ?= d with
  | Lt => f
  | Gt => f + 1
  | Eq => if Z.even f then f else f + 1
  end.

(** The double nearest to [n/d > 0] (round to nearest, ties to even): with
    [t] the exponent of the last place, at least -1074 (subnormal numbers),
    the result is [roundHalfEven (n/d / 2^t) * 2^t], or infinity when that
    reaches [2^1024]. *)
Definition roundPos (n d : positive) : dbl :=
  let t := Z.max (-1074) (ilog2 n d - 52) in
  if 0 <=? t then
    let v := roundHalfEven (Zpos n) (Zpos d * 2 ^ t) * 2 ^ t in
    if 2 ^ 1024 <=? v then PInf else Fin (inject_Z v)
  else
    Fin (Qred (Qmake (roundHalfEven (Zpos n * 2 ^ (- t)) (Zpos d))
                 (Z.to_pos (2 ^ (- t))))).

Definition fneg (x : dbl) : dbl :=
  match x with
  | Fin q => Fin (Qred (- q))
  | PInf => NInf
  | NInf => PInf
  | NaN => NaN
  end.

(** The double nearest to a rational: the result of every float operation
    on finite operands is the rounded exact result. *)
Definition round64 (q : Q) : dbl :=
  match Qnum q with
  | Z0 => Fin 0
  | Zpos n => roundPos n (Qden q)
  | Zneg n => fneg (roundPos n (Qden q))
  end.

Definition sgn (x : dbl) : Z :=
  match x with
  | Fin q => Z.sgn (Qnum q)
  | PInf => 1
  | NInf => -1
  | NaN => 0
  end.

Definition infBySign (s : Z) : dbl :=
  match s with
  | Z0 => NaN
  | Zpos _ => PInf
  | Zneg _ => NInf
  end.

(** [x + y], [x - y], [x * y] on floats. *)
Definition fadd (x y : dbl) : dbl :=
  match x, y with
  | NaN, _ | _, NaN => NaN
  | PInf, NInf | NInf, PInf => NaN
  | PInf, _ | _, PInf => PInf
  | NInf, _ | _, NInf => NInf
  | Fin a, Fin b => round64 (a + b)
  end.

Definition fsub (x y : dbl) : dbl := fadd x (fneg y).

Definition fmul (x y : dbl) : dbl :=
  match x, y with
  | NaN, _ | _, NaN => NaN
  | Fin a, Fin b => round64 (a * b)
  | _, _ => infBySign (sgn x * sgn y)
  end.

(** [x / y] in IEEE arithmetic, for a divisor that is not zero. *)
Definition fdiv (x y : dbl) : dbl :=
  match x, y with
  | NaN, _ | _, NaN => NaN
  | Fin a, Fin b => round64 (a / b)
  | Fin _, _ => Fin 0
  | _, Fin _ => infBySign (sgn x * sgn y)
  | _, _ => NaN
  end.

Definition isZero (x : dbl) : bool :=
  match x with
  | Fin q => Qeq_bool q 0
  | _ => false
  end.

(** [x / y] on Python floats: a zero divisor raises. *)
Definition float_div (x y : dbl) : result dbl :=
  if isZero y then Raised ZeroDivisionError else OK (fdiv x y).

(** The conversion of an integer operand of a float operation: the nearest
    double, [OverflowError] when that would be an infinity. *)
Definition float_of_int (z : Z) : result dbl :=
  match round64 (inject_Z z) with
  | Fin q => OK (Fin q)
  | _ => Raised OverflowError
  end.

(** [x < y] for a finite float [x]; [False] against a NaN. *)
Definition flt (x : Q) (y : dbl) : bool :=
  match y with
  | Fin q => Qlt_bool x q
  | PInf => true
  | NInf | NaN => false
  end.

(** ** The binary64 numbers of the processor *)

(** The primitive floats of Rocq are the binary64 numbers of the processor,
    the ones CPython computes with.  [toFloat] and [ofFloat] carry a [dbl]
    to its primitive float and back, so that the operations above can be
    compared with the hardware on sample operands. *)
Definition intToFloat (z : Z) : PrimFloat.float :=
  let a := Z.abs z in
  let k := Z.max 0 (Z.log2 a - 52) in
  let f := FloatOps.Z.ldexp
             (PrimFloat.of_uint63 (Uint63.of_Z (a / 2 ^ k))) k in
  if z <? 0 then PrimFloat.opp f else f.

Definition toFloat (x : dbl) : PrimFloat.float :=
  match x with
  | Fin q => FloatOps.Z.ldexp (intToFloat (Qnum q)) (- Z.log2 (Zpos (Qden q)))
  | PInf => PrimFloat.infinity
  | NInf => PrimFloat.neg_infinity
  | NaN => PrimFloat.nan
  end.

Definition ofFloat (f : PrimFloat.float) : dbl :=
  match FloatOps.Prim2SF f with
  | SpecFloat.S754_zero _ => Fin 0
  | SpecFloat.S754_infinity false => PInf
  | SpecFloat.S754_infinity true => NInf
  | SpecFloat.S754_nan => NaN
  | SpecFloat.S754_finite s m e =>
      let q := if 0 <=? e then inject_Z (Zpos m * 2 ^ e)
               else Qred (Qmake (Zpos m) (Z.to_pos (2 ^ (- e)))) in
      Fin (if s then Qred (- q) else q)
  end.

Definition dbl_eqb (x y : dbl) : bool :=
  match x, y with
  | Fin a, Fin b => Qeq_bool a b
  | PInf, PInf | NInf, NInf | NaN, NaN => true
  | _, _ => false
  end.

(** The operation [op] gives on the pair [p] what the hardware operation
    [fop] gives. *)
Definition asHardware (op : dbl -> dbl -> dbl)
    (fop : PrimFloat.float -> PrimFloat.float -> PrimFloat.float)
    (p : dbl * dbl) : bool :=
  dbl_eqb (op p.1 p.2) (ofFloat (fop (toFloat p.1) (toFloat p.2))).

(** Sample operands: decimal fractions and integers around [2^53], in all
    pairs; and pairs at the ends of the range: the largest doubles, the
    smallest subnormals and halfway cases. *)
Definition floatSamples : list dbl :=
  (round64 <$>
     [0%Q; 1%Q; (-1)%Q; 3#10; 1#10; 2#10; 9#10; 1#3; -3#10; 15#10; 15#100;
      1#7; 123456789#1000; 1#1000000007; 3%Q; 1#2;
      inject_Z (2^53); inject_Z (2^53 + 1); inject_Z (2^53 + 3);
      2^60 # 3; Qmake (-(2^53 + 1)) 1])
  ++ [PInf; NInf].

Definition floatSamplePairs : list (dbl * dbl) :=
  (x ← floatSamples; (fun y => (x, y)) <$> floatSamples)
  ++ (prod_map round64 round64 <$>
        [(inject_Z (2^1024 - 2^971), inject_Z (2^1024 - 2^971));
         (inject_Z (2^1024 - 2^971), inject_Z (2^970));
         (inject_Z (2^1024 - 2^971), inject_Z (2^970 - 1));
         (inject_Z (2^1023), 2%Q);
         (inject_Z (2^1023), 1#2);
         (inject_Z (10^308), 10%Q);
         (inject_Z (10^308), -1#10);
         (Qmake 1 (Z.to_pos (2^1074)), 1#2);
         (Qmake 1 (Z.to_pos (2^1074)), 3#2);
         (Qmake 3 (Z.to_pos (2^1074)), 1#2);
         (Qmake 1 (Z.to_pos (2^1074)), Qmake 1 (Z.to_pos (2^1074)));
         (Qmake 1 (Z.to_pos (2^1022)), Qmake (2^53 - 1) (Z.to_pos (2^53)));
         (Qmake (2^53 - 1) (Z.to_pos (2^1074)), 1#3);
         (Qmake 1 (Z.to_pos (2^1022)), inject_Z (2^53 + 1));
         (Qmake 1 (Z.to_pos (10^300)), Qmake 1 (Z.to_pos (10^20)));
         (1%Q, Qmake 1 (Z.to_pos (2^1074)));
         (1%Q, inject_Z (2^1024 - 2^971))]).

(** ** generateMsgSize *)

(** [randomNumber] is the value returned by [random.random()]. *)
Fixpoint generateMsgSize (distMatrix : list row) (randomNumber : Q) : option Z :=
  match distMatrix with
  | [] => None
  | r :: rest =>
      if Qlt_bool randomNumber (row_prob r) then Some (row_size r)
      else generateMsgSize rest randomNumber
  end.

(** ** class Scheduler *)

Record Scheduler : Set := MkScheduler {
  txQueue : list msg;
  rxQueue : list pkt;
  delayQueue : list delayedPkt
}.

(** The mutable world a scheduler invocation works on: the scheduler object,
    the [pktOutTimes] dictionary handed to it, and the number of Poisson
    draws made so far. *)
Record Sim : Type := MkSim {
  sched : Scheduler;
  pktOut : gmap Z (list pkt_info);
  nPois : nat
}.

Definition stripDelay (d : delayedPkt) : pkt :=
  Pkt (dp_id d) (dp_size d) (dp_prio d).

Definition decrDelay (d : delayedPkt) : delayedPkt :=
  DelayedPkt (dp_id d) (dp_size d) (dp_prio d) (dp_delay d - 1).

Definition decrSize (m : msg) : msg := Msg (msg_id m) (msg_size m - 1).

(** [addPktToDelayQueue(pkt, avgDelay)]; [sample] is the value of
    [np.random.poisson(avgDelay)]. *)
Definition addPktToDelayQueue (p : pkt) (sample : nat) (self : Scheduler)
  : Scheduler :=
  let delay := Z.of_nat sample + fixedDelay in
  let delayedPkt := DelayedPkt (pkt_id p) (pkt_size p) (pkt_prio p) delay in
  MkScheduler (txQueue self) (rxQueue self)
    (sort_by dp_delay (delayQueue self ++ [delayedPkt])).

(** First loop of [depleteDelayQueue]: it walks a copy of the delay queue
    and, for each entry whose delay is 0, appends the stripped packet to
    [rx] and removes the entry from the live queue [dq]. *)
Fixpoint releaseLoop (snapshot : list delayedPkt) (rx : list pkt)
    (dq : list delayedPkt) : result (list pkt * list delayedPkt) :=
  match snapshot with
  | [] => OK (rx, dq)
  | d :: rest =>
      if decide (dp_delay d = 0) then
        match py_remove d dq with
        | None => Raised ValueError
        | Some dq' => releaseLoop rest (rx ++ [stripDelay d]) dq'
        end
      else releaseLoop rest rx dq
  end.

Definition depleteDelayQueue (self : Scheduler) : result Scheduler :=
  '(rx, dq) ← releaseLoop (delayQueue self) (rxQueue self) (delayQueue self);
  OK (MkScheduler (txQueue self) (sort_by pkt_prio rx) (decrDelay <$> dq)).

(** The block that ends both schedulers: pop the head of [rxQueue], if any,
    and append its record to [pktOutTimes]. *)
Definition recordDeparture (slot : Z) (self : Scheduler)
    (pktOutTimes : gmap Z (list pkt_info))
  : Scheduler * gmap Z (list pkt_info) :=
  match rxQueue self with
  | [] => (self, pktOutTimes)
  | p :: rest =>
      let info := PktInfo slot (pkt_prio p) (pkt_size p) in
      (MkScheduler (txQueue self) rest (delayQueue self),
       match pktOutTimes !! pkt_id p with
       | Some recs => <[pkt_id p := recs ++ [info]]> pktOutTimes
       | None => <[pkt_id p := [] ++ [info]]> pktOutTimes
       end)
  end.

(** The transmit block of [simpleScheduler] (the [if len(self.txQueue) > 0]). *)
Definition simpleTransmit (pois : nat -> nat) (w : Sim) : Sim :=
  let self := sched w in
  match txQueue self with
  | [] => w
  | highPrioMsg :: rest =>
      let prio := 0 in
      let highPrioPkt := Pkt (msg_id highPrioMsg) (msg_size highPrioMsg) prio in
      let highPrioMsg' := decrSize highPrioMsg in
      let self1 :=
        addPktToDelayQueue highPrioPkt (pois (nPois w))
          (MkScheduler (highPrioMsg' :: rest) (rxQueue self) (delayQueue self)) in
      let self2 :=
        if decide (msg_size highPrioMsg' = 0)
        then MkScheduler rest (rxQueue self1) (delayQueue self1)
        else self1 in
      MkSim self2 (pktOut w) (S (nPois w))
  end.

Definition depleteAndRecord (slot : Z) (w : Sim) : result Sim :=
  self ← depleteDelayQueue (sched w);
  let '(self', out) := recordDeparture slot self (pktOut w) in
  OK (MkSim self' out (nPois w)).

Definition simpleScheduler (pois : nat -> nat) (slot : Z) (w : Sim) : result Sim :=
  depleteAndRecord slot (simpleTransmit pois w).

(** One iteration of the [for msg in self.txQueue[:]] loop of
    [idealScheduler], on the object [m] of the copy.  The live queue is
    [done ++ m :: rest]: [rest] are the objects of the copy not visited yet
    (nothing has touched them), [done] the visited ones still in the queue.
    [self.txQueue.remove(msg)] drops the first element equal to [msg], which
    lies in [done ++ [m]]; [msg[1] -= 1] updates the object in place.  The
    result is the new [done] and the new world. *)
Definition idealVisit (pois : nat -> nat) (m : msg) (rest done : list msg)
    (w : Sim) : result (list msg * Sim) :=
  let p := Pkt (msg_id m) (msg_size m) (msg_size m) in
  let self1 := addPktToDelayQueue p (pois (nPois w)) (sched w) in
  done' ← (if decide (msg_size m = 1) then
             match py_remove m (done ++ [m]) with
             | None => Raised ValueError
             | Some done' => OK done'
             end
           else OK (done ++ [decrSize m]));
  OK (done',
      MkSim (MkScheduler (done' ++ rest) (rxQueue self1) (delayQueue self1))
        (pktOut w) (S (nPois w))).

Fixpoint idealLoop (pois : nat -> nat) (todo done : list msg) (w : Sim)
  : result Sim :=
  match todo with
  | [] => OK w
  | m :: rest =>
      '(done', w') ← idealVisit pois m rest done w;
      idealLoop pois rest done' w'
  end.

Definition idealTransmit (pois : nat -> nat) (w : Sim) : result Sim :=
  idealLoop pois (txQueue (sched w)) [] w.

Definition idealScheduler (pois : nat -> nat) (slot : Z) (w : Sim) : result Sim :=
  w1 ← idealTransmit pois w;
  depleteAndRecord slot w1.

(** ** Loops *)

(** [for slot in range(n): body]: the state after the first [n] iterations. *)
Fixpoint forRange {S : Type} (body : nat -> S -> result S) (n : nat) (s : S)
  : result S :=
  match n with
  | O => OK s
  | Datatypes.S k => s' ← forRange body k s; body k s'
  end.

(** [while cond: body], with fuel: the test comes first, so a loop that is
    not entered needs no fuel. *)
Fixpoint whileLoop {S : Type} (cond : S -> bool) (body : S -> result S)
    (fuel : nat) (s : S) : result S :=
  if cond s then
    match fuel with
    | O => OutOfFuel
    | Datatypes.S f => s' ← body s; whileLoop cond body f s'
    end
  else OK s.

(** The state of a [while] loop after at most [k] iterations (fewer when the
    test fails earlier): the slot boundaries of a drain phase, whether or
    not the loop ever ends. *)
Fixpoint whilePrefix {S : Type} (cond : S -> bool) (body : S -> result S)
    (k : nat) (s : S) : result S :=
  match k with
  | O => OK s
  | Datatypes.S k' =>
      if cond s then s' ← body s; whilePrefix cond body k' s' else OK s
  end.

(** ** run *)

(** The local variables of [run] during one of its two phases: the scheduler
    world, [msgId], [msgDict] (values [[messageSize, time_slot]]), the number
    of [random.random()] draws made, and the variable [slot] ([None] while
    it is unbound). *)
Record Driver : Type := MkDriver {
  sim : Sim;
  msgId : Z;
  msgDict : gmap Z (Z * Z);
  nRand : nat;
  slotVar : option Z
}.

(** The loop that computes [sizeAvg], in float arithmetic: [row[0]] is a
    float, [row[1]] an integer that the multiplication converts, and the
    integers 0 that [sizeAvg] and [prevProb] start with act as [0.0]. *)
Fixpoint sizeAvgLoop (distMatrix : list row) (sizeAvg prevProb : dbl)
  : result dbl :=
  match distMatrix with
  | [] => OK sizeAvg
  | r :: rest =>
      let prob := round64 (row_prob r) in
      size ← float_of_int (row_size r);
      sizeAvgLoop rest (fadd sizeAvg (fmul size (fsub prob prevProb))) prob
  end.

(** Division of floats: a zero divisor raises. *)
Definition py_div (x y : Q) : result Q :=
  if Qeq_bool y 0 then Raised ZeroDivisionError else OK (x / y)%Q.

(** [txQueue.append(newMsg[:]); txQueue.sort(cmp=... x[1], y[1])]. *)
Definition enqueueMsg (newMsg : msg) (w : Sim) : Sim :=
  let self := sched w in
  MkSim (MkScheduler (sort_by msg_size (txQueue self ++ [newMsg]))
           (rxQueue self) (delayQueue self))
    (pktOut w) (nPois w).

(** The message created in a slot of the generating loop, if any: the test
    [random.random() < probPerSlot] and [newMsg = [msgId,
    generateMsgSize(distMatrix)]].  When the sampler returns no value the
    size is [None]; that message sorts first in [txQueue] and the
    [highPrioMsg[1] -= 1] of the [simpleScheduler] call of the same slot
    raises [TypeError], which is raised here. *)
Definition simpleArrival (distMatrix : list row) (probPerSlot : dbl)
    (rand : nat -> Q) (d : Driver) : result (option msg) :=
  if flt (rand (nRand d)) probPerSlot then
    match generateMsgSize distMatrix (rand (S (nRand d))) with
    | None => Raised TypeError
    | Some size => OK (Some (Msg (msgId d) size))
    end
  else OK None.

(** The rest of the [if] block of the generating loop: the new message
    enters [txQueue] and [msgDict], [msgId] advances.  Two values of
    [random.random()] were used in a slot with an arrival, one otherwise. *)
Definition simpleEnqueue (slot : nat) (d : Driver) (arrival : option msg)
  : Driver :=
  match arrival with
  | Some newMsg =>
      MkDriver (enqueueMsg newMsg (sim d)) (msgId d + 1)
        (<[msgId d := (msg_size newMsg, Z.of_nat slot)]> (msgDict d))
        (2 + nRand d) (Some (Z.of_nat slot))
  | None =>
      MkDriver (sim d) (msgId d) (msgDict d) (1 + nRand d)
        (Some (Z.of_nat slot))
  end.

(** Body of the first [for slot in range(steps)]. *)
Definition simpleSlot (distMatrix : list row) (probPerSlot : dbl)
    (rand : nat -> Q) (pois : nat -> nat) (slot : nat) (d : Driver)
  : result Driver :=
  arrival ← simpleArrival distMatrix probPerSlot rand d;
  let d1 := simpleEnqueue slot d arrival in
  w ← simpleScheduler pois (Z.of_nat slot) (sim d1);
  OK (MkDriver w (msgId d1) (msgDict d1) (nRand d1) (slotVar d1)).

(** The message replayed in a slot of the second loop, if any: the test
    [msgId in msgDict and msgDict[msgId][1] == slot] and
    [newMsg = [msgId, msgDict[msgId][0]]]. *)
Definition idealArrival (slot : nat) (d : Driver) : option msg :=
  match msgDict d !! msgId d with
  | Some (size, arrivalSlot) =>
      if decide (arrivalSlot = Z.of_nat slot) then Some (Msg (msgId d) size)
      else None
  | None => None
  end.

(** The rest of the [if] block of the replaying loop. *)
Definition idealEnqueue (slot : nat) (d : Driver) (arrival : option msg)
  : Driver :=
  match arrival with
  | Some newMsg =>
      MkDriver (enqueueMsg newMsg (sim d)) (msgId d + 1) (msgDict d)
        (nRand d) (Some (Z.of_nat slot))
  | None =>
      MkDriver (sim d) (msgId d) (msgDict d) (nRand d) (Some (Z.of_nat slot))
  end.

(** Body of the second [for slot in range(steps)]. *)
Definition idealSlot (pois : nat -> nat) (slot : nat) (d : Driver)
  : result Driver :=
  let d1 := idealEnqueue slot d (idealArrival slot d) in
  w ← idealScheduler pois (Z.of_nat slot) (sim d1);
  OK (MkDriver w (msgId d1) (msgDict d1) (nRand d1) (slotVar d1)).

(** [len(txQueue) or len(rxQueue) or len(delayQueue)]. *)
Definition queuesNonEmpty (d : Driver) : bool :=
  let self := sched (sim d) in
  negb (bool_decide (txQueue self = []))
  || negb (bool_decide (rxQueue self = []))
  || negb (bool_decide (delayQueue self = [])).

(** Body of a drain loop: [slot += 1; scheduler(slot, ...)].  [slot] is
    unbound when no [for] iteration ran. *)
Definition drainStep (scheduler : Z -> Sim -> result Sim) (d : Driver)
  : result Driver :=
  match slotVar d with
  | None => Raised NameError
  | Some slot =>
      w ← scheduler (slot + 1) (sim d);
      OK (MkDriver w (msgId d) (msgDict d) (nRand d) (Some (slot + 1)))
  end.

(** [pktOutTimes]: the dictionaries under the keys ['simple'] and ['ideal']. *)
Record Stores : Type := MkStores {
  simpleStore : gmap Z (list pkt_info);
  idealStore : gmap Z (list pkt_info)
}.

Definition freshScheduler : Scheduler := MkScheduler [] [] [].

(** State on entry of the first phase. *)
Definition simpleInit (msgDict0 : gmap Z (Z * Z)) (pktOutTimes : Stores)
  : Driver :=
  MkDriver (MkSim freshScheduler (simpleStore pktOutTimes) 0) 0 msgDict0 0 None.

(** State on entry of the second phase, after the first one ended in [d]:
    fresh queues, [msgId = 0]; [msgDict], [slot] and the random sources
    carry over. *)
Definition idealInit (pktOutTimes : Stores) (d : Driver) : Driver :=
  MkDriver (MkSim freshScheduler (idealStore pktOutTimes) (nPois (sim d)))
    0 (msgDict d) (nRand d) (slotVar d).

(** [probPerSlot = rho / sizeAvg], with [sizeAvg] as the loop leaves it. *)
Definition probPerSlotOf (rho : Q) (distMatrix : list row) : result dbl :=
  sizeAvg ← sizeAvgLoop distMatrix 0 0;
  float_div (round64 rho) sizeAvg.

(** [run(steps, rho, distMatrix, msgDict, pktOutTimes)]; the result is the
    final content of the two mutated arguments. *)
Definition run (steps : nat) (rho : Q) (distMatrix : list row)
    (rand : nat -> Q) (pois : nat -> nat) (fuel : nat)
    (msgDict0 : gmap Z (Z * Z)) (pktOutTimes : Stores)
  : result (gmap Z (Z * Z) * Stores) :=
  probPerSlot ← probPerSlotOf rho distMatrix;
  d1 ← forRange (simpleSlot distMatrix probPerSlot rand pois) steps
         (simpleInit msgDict0 pktOutTimes);
  d2 ← whileLoop queuesNonEmpty (drainStep (simpleScheduler pois)) fuel d1;
  e1 ← forRange (idealSlot pois) steps (idealInit pktOutTimes d2);
  e2 ← whileLoop queuesNonEmpty (drainStep (idealScheduler pois)) fuel e1;
  OK (msgDict e2, MkStores (pktOut (sim d2)) (pktOut (sim e2))).

(** ** Penalty aggregation of [__main__] *)

(** Running totals of the aggregation loop: [penalty], [numMsg] and
    [penaltyPerSize] (values [[totalPenalty, msgCount, rho]]). *)
Record Agg : Type := MkAgg {
  penalty : Q;
  numMsg : Z;
  penaltyPerSize : gmap Z (Q * Z * Q)
}.

(** [max(pktTimes) - msgDict[key][1]] with [pktTimes] the slots of [recs]. *)
Definition msgCompletionTime (msgDict : gmap Z (Z * Z)) (key : Z)
    (recs : list pkt_info) : result Z :=
  match py_max (out_slot <$> recs) with
  | None => Raised ValueError
  | Some latest =>
      match msgDict !! key with
      | None => Raised KeyError
      | Some (_, arrivalSlot) => OK (latest - arrivalSlot)
      end
  end.

(** [(msgCompletionTimeSimple - msgCompletionTimeIdeal) * 1.0 /
    msgCompletionTimeIdeal]. *)
Definition penaltyTerm (completionSimple completionIdeal : Z) : result Q :=
  py_div (inject_Z (completionSimple - completionIdeal) * 1)%Q
    (inject_Z completionIdeal).

(** One iteration of [for key in pktOutTimesSimple]. *)
Definition aggStep (pktOutTimesIdeal : gmap Z (list pkt_info))
    (msgDict : gmap Z (Z * Z)) (rho : Q) (a : Agg)
    (entry : Z * list pkt_info) : result Agg :=
  let '(key, recsSimple) := entry in
  match pktOutTimesIdeal !! key with
  | None => OK a
  | Some recsIdeal =>
      completionSimple ← msgCompletionTime msgDict key recsSimple;
      completionIdeal ← msgCompletionTime msgDict key recsIdeal;
      term ← penaltyTerm completionSimple completionIdeal;
      match msgDict !! key with
      | None => Raised KeyError
      | Some (msgSize, _) =>
          let '(total, count, r) :=
            default (0%Q, 0, rho) (penaltyPerSize a !! msgSize) in
          OK (MkAgg (penalty a + term)%Q (numMsg a + 1)
                (<[msgSize := ((total + term)%Q, count + 1, r)]>
                   (penaltyPerSize a)))
      end
  end.

(** The loop over a sequence of entries of [pktOutTimesSimple]. *)
Fixpoint aggLoop (pktOutTimesIdeal : gmap Z (list pkt_info))
    (msgDict : gmap Z (Z * Z)) (rho : Q) (entries : list (Z * list pkt_info))
    (a : Agg) : result Agg :=
  match entries with
  | [] => OK a
  | entry :: rest =>
      a' ← aggStep pktOutTimesIdeal msgDict rho a entry;
      aggLoop pktOutTimesIdeal msgDict rho rest a'
  end.

Definition aggInit : Agg := MkAgg 0%Q 0 ∅.

(** The aggregation over the whole dictionary, in the order in which the
    dictionary lists its entries. *)
Definition aggregate (msgDict : gmap Z (Z * Z)) (pktOutTimes : Stores) (rho : Q)
  : result Agg :=
  aggLoop (idealStore pktOutTimes) msgDict rho
    (map_to_list (simpleStore pktOutTimes)) aggInit.

(** [penalty/numMsg], the mean written to [ideal_vs_simple_penalty]. *)
Definition meanPenalty (a : Agg) : result Q :=
  py_div (penalty a) (inject_Z (numMsg a)).

(** The guarded mean written per size to [ideal_vs_simple_rho_fixed]. *)
Definition sizeMean (e : Q * Z * Q) : Q :=
  let '(total, count, _) := e in
  if decide (count ≠ 0) then (total / inject_Z count)%Q else 0%Q.

(** One iteration of the sweep over [rho] in [__main__]: fresh dictionaries,
    [run], the aggregation, and the two means that are written out. *)
Definition sweepStep (steps : nat) (rho : Q) (distMatrix : list row)
    (rand : nat -> Q) (pois : nat -> nat) (fuel : nat)
  : result (Q * gmap Z Q) :=
  '(msgDict, pktOutTimes) ← run steps rho distMatrix rand pois fuel
                               ∅ (MkStores ∅ ∅);
  a ← aggregate msgDict pktOutTimes rho;
  mean ← meanPenalty a;
  OK (mean, sizeMean <$> penaltyPerSize a).

(** ** The program *)

(** The names that [__main__] calls on its [OptionParser] object.  The
    class has the methods [add_option] and [parse_args]; it has no
    attribute [adding], so that call raises [AttributeError]. *)
Inductive parserMethod : Set :=
| adding
| add_option
| parse_args.

Definition parserCall (method : parserMethod) : result unit :=
  match method with
  | adding => Raised AttributeError
  | add_option | parse_args => OK ()
  end.

(** The option block of [__main__]: the calls for [--inputDir],
    [--outputDir], [--slots], [--inputRate] and [--sizeDist], then
    [parse_args()]. *)
Definition parseOptions : result unit :=
  _ ← parserCall adding;
  _ ← parserCall adding;
  _ ← parserCall add_option;
  _ ← parserCall add_option;
  _ ← parserCall add_option;
  parserCall parse_args.

(** The value of a finite float. *)
Definition float_value (x : dbl) : Q :=
  match x with
  | Fin q => q
  | _ => 0%Q
  end.

(** [[x/100.0 for x in range(15, 105, 10)]]. *)
Definition sweepRhos : list Q :=
  (fun x => float_value (round64 (x # 100))) <$> [15; 25; 35; 45; 55; 65; 75; 85; 95].

(** The sweep [for n, rho in enumerate(...)], iteration [k] onwards;
    [rands k] and [poiss k] are the values that the random sources give
    during the [k]-th call of [run].  The results are the lines written to
    the two output files. *)
Fixpoint sweepLoop (steps : nat) (distMatrix : list row)
    (rands : nat -> nat -> Q) (poiss : nat -> nat -> nat) (fuel : nat)
    (k : nat) (rhos : list Q) : result (list (Q * gmap Z Q)) :=
  match rhos with
  | [] => OK []
  | rho :: rest =>
      out ← sweepStep steps rho distMatrix (rands k) (poiss k) fuel;
      outs ← sweepLoop steps distMatrix rands poiss fuel (S k) rest;
      OK (out :: outs)
  end.

(** [__main__] with the option [--slots steps] and [distMatrix] the table
    read from the distribution file. *)
Definition main (steps : nat) (distMatrix : list row)
    (rands : nat -> nat -> Q) (poiss : nat -> nat -> nat) (fuel : nat)
  : result (list (Q * gmap Z Q)) :=
  _ ← parseOptions;
  sweepLoop steps distMatrix rands poiss fuel 0 sweepRhos.

(** ** Properties the statements below speak of *)

(** Ascending order by [key]. *)
Definition sortedBy {A} (key : A -> Z) (l : list A) : Prop :=
  StronglySorted (fun x y => key x <= key y) l.

(** The three order invariants of the queues. *)
Definition queuesSorted (self : Scheduler) : Prop :=
  sortedBy msg_size (txQueue self)
  /\ sortedBy dp_delay (delayQueue self)
  /\ sortedBy pkt_prio (rxQueue self).

(** Sum of [f] over a list. *)
Definition wsum {A} (f : A -> Z) (l : list A) : Z :=
  foldr (fun x acc => f x + acc) 0 l.

(** The mass of message [i] in each place it can be. *)
Definition txMass (i : Z) (tx : list msg) : Z :=
  wsum (fun m => if decide (msg_id m = i) then msg_size m else 0) tx.

Definition dqCount (i : Z) (dq : list delayedPkt) : Z :=
  wsum (fun d => if decide (dp_id d = i) then 1 else 0) dq.

Definition rxCount (i : Z) (rx : list pkt) : Z :=
  wsum (fun p => if decide (pkt_id p = i) then 1 else 0) rx.

Definition outCount (i : Z) (out : gmap Z (list pkt_info)) : Z :=
  Z.of_nat (length (default [] (out !! i))).

Definition mass (i : Z) (w : Sim) : Z :=
  txMass i (txQueue (sched w)) + dqCount i (delayQueue (sched w))
  + rxCount i (rxQueue (sched w)) + outCount i (pktOut w).

(** Total number of departure records in a store. *)
Definition recordCount (out : gmap Z (list pkt_info)) : nat :=
  map_fold (fun _ recs acc => (length recs + acc)%nat) 0%nat out.

(** [pktOutTimes] as [__main__] hands it to [run]. *)
Definition freshStores : Stores := MkStores ∅ ∅.

(** The states of the first phase of [run] at its slot boundaries: after
    [n <= steps] iterations of the generating loop, and after any number of
    iterations of the drain loop that follows it. *)
Definition simpleBoundary (distMatrix : list row) (probPerSlot : dbl)
    (rand : nat -> Q) (pois : nat -> nat) (steps : nat) (d : Driver) : Prop :=
  (exists n, (n <= steps)%nat
     /\ forRange (simpleSlot distMatrix probPerSlot rand pois) n
          (simpleInit ∅ freshStores) = OK d)
  \/ (exists d1 k,
        forRange (simpleSlot distMatrix probPerSlot rand pois) steps
          (simpleInit ∅ freshStores) = OK d1
        /\ whilePrefix queuesNonEmpty (drainStep (simpleScheduler pois)) k d1
           = OK d).

(** The states of the second phase at its slot boundaries, the first phase
    having ended in [d2]. *)
Definition idealBoundary (pois : nat -> nat) (steps : nat) (d2 d : Driver)
  : Prop :=
  (exists n, (n <= steps)%nat
     /\ forRange (idealSlot pois) n (idealInit freshStores d2) = OK d)
  \/ (exists e1 k,
        forRange (idealSlot pois) steps (idealInit freshStores d2) = OK e1
        /\ whilePrefix queuesNonEmpty (drainStep (idealScheduler pois)) k e1
           = OK d).

(** A distribution table as the sampler expects it: cumulative probabilities
    strictly increasing and ending at 1. *)
Definition validTable (distMatrix : list row) : Prop :=
  StronglySorted (fun r1 r2 => (row_prob r1 < row_prob r2)%Q) distMatrix
  /\ exists r, last distMatrix = Some r /\ (row_prob r == 1)%Q.

(** The slots of the records of every message are strictly increasing. *)
Definition slotsIncreasing (out : gmap Z (list pkt_info)) : Prop :=
  forall i recs, out !! i = Some recs ->
    StronglySorted Z.lt (out_slot <$> recs).

(** [run] fails before the simulation starts: the code that precedes the
    first loop (the mean size and [probPerSlot]) raises. *)
Definition failsBeforeStart (rho : Q) (distMatrix : list row) : Prop :=
  exists e, probPerSlotOf rho distMatrix = Raised e.

(** A float above zero. *)
Definition isPositive (x : dbl) : Prop :=
  match x with
  | Fin q => (0 < q)%Q
  | PInf => True
  | NInf | NaN => False
  end.

(** A float that no draw of [random.random()] is below: it is not above
    zero, or it is a NaN. *)
Definition notAbove (x : dbl) : Prop :=
  match x with
  | Fin q => (q <= 0)%Q
  | PInf => False
  | NInf | NaN => True
  end.

(** What a depletion pass releases, and what it keeps in flight. *)
Definition released (dq : list delayedPkt) : list pkt :=
  stripDelay <$> filter (fun d => dp_delay d = 0) dq.

Definition inFlight (dq : list delayedPkt) : list delayedPkt :=
  filter (fun d => dp_delay d <> 0) dq.

(** The entry survives a depletion pass of [self]: it is decremented and its
    packet is not handed to the receive queue. *)
Definition heldBack (self : Scheduler) (d : delayedPkt) : Prop :=
  exists self', depleteDelayQueue self = OK self'
    /\ decrDelay d ∈ delayQueue self' /\ stripDelay d ∉ rxQueue self'.

(** Mass bookkeeping of the first phase: nothing of a message that is not
    generated yet is anywhere, and every message of [msgDict] has its size
    spread over the queues and the records. *)
Definition massInvSimple (d : Driver) : Prop :=
  (forall i, msgId d <= i -> mass i (sim d) = 0)
  /\ (forall i size slot, msgDict d !! i = Some (size, slot) ->
        i < msgId d /\ mass i (sim d) = size).

(** Mass bookkeeping of the second phase, for the messages replayed so far
    (the ids below [msgId]). *)
Definition massInvIdeal (d : Driver) : Prop :=
  0 <= msgId d
  /\ (forall i, msgId d <= i -> mass i (sim d) = 0)
  /\ (forall i size slot, 0 <= i < msgId d ->
        msgDict d !! i = Some (size, slot) -> mass i (sim d) = size).

(** What one scheduler invocation at [slot] does to a store: nothing, or one
    record with that slot appended to the list of one message. *)
Definition appended (slot : Z) (out out' : gmap Z (list pkt_info)) : Prop :=
  out' = out
  \/ exists p,
       out' = <[pkt_id p := default [] (out !! pkt_id p)
                             ++ [PktInfo slot (pkt_prio p) (pkt_size p)]]> out.

(** The records of a store at the boundary before slot [n]: every list is
    non-empty, has strictly increasing slots, all below [n]. *)
Definition recordsBelow (n : Z) (out : gmap Z (list pkt_info)) : Prop :=
  forall i recs, out !! i = Some recs ->
    recs <> []
    /\ StronglySorted Z.lt (out_slot <$> recs)
    /\ Forall (fun r => out_slot r < n) recs.

(** The driver is at the boundary before slot [n]: the records are below
    [n], and [slot] holds [n - 1] whenever a drain iteration can run. *)
Definition atBoundary (n : Z) (d : Driver) : Prop :=
  recordsBelow n (pktOut (sim d))
  /\ (queuesNonEmpty d = true -> slotVar d = Some (n - 1)).

(** [msgDict] at the boundary before slot [n] of the generating loop: its
    keys are the ids handed out so far and every recorded slot is below [n]. *)
Definition dictBelow (n : nat) (d : Driver) : Prop :=
  0 <= msgId d
  /\ forall i size slot, msgDict d !! i = Some (size, slot) ->
       0 <= i < msgId d /\ 0 <= slot < Z.of_nat n.

(** Message [i] is in the message table with an arrival slot below [bound]. *)
Definition knownBefore (msgDict : gmap Z (Z * Z)) (bound i : Z) : Prop :=
  exists size arr, msgDict !! i = Some (size, arr) /\ arr < bound.

(** Every record of a store belongs to a message of the table and is later
    than the arrival of that message. *)
Definition outAfter (msgDict : gmap Z (Z * Z)) (out : gmap Z (list pkt_info))
  : Prop :=
  forall i recs, out !! i = Some recs ->
    exists size arr, msgDict !! i = Some (size, arr)
                     /\ Forall (fun r => arr < out_slot r) recs.

(** At the boundary before slot [n]: whatever is queued belongs to a message
    that arrived before [n]. *)
Definition arrivalInv (msgDict : gmap Z (Z * Z)) (n : Z) (w : Sim) : Prop :=
  (forall m, m ∈ txQueue (sched w) -> knownBefore msgDict n (msg_id m))
  /\ (forall d, d ∈ delayQueue (sched w) -> knownBefore msgDict n (dp_id d))
  /\ (forall p, p ∈ rxQueue (sched w) -> knownBefore msgDict n (pkt_id p))
  /\ outAfter msgDict (pktOut w).

(** Inside slot [s], from the arrival to the depletion: the transmit queue
    may hold the message that arrived in [s], and so may the delay queue,
    but not with delay 0. *)
Definition arrivalPre (msgDict : gmap Z (Z * Z)) (s : Z) (w : Sim) : Prop :=
  (forall m, m ∈ txQueue (sched w) -> knownBefore msgDict (s + 1) (msg_id m))
  /\ (forall d, d ∈ delayQueue (sched w) ->
         knownBefore msgDict (s + 1) (dp_id d)
         /\ (dp_delay d = 0 -> knownBefore msgDict s (dp_id d)))
  /\ (forall p, p ∈ rxQueue (sched w) -> knownBefore msgDict s (pkt_id p))
  /\ outAfter msgDict (pktOut w).

(** The driver is at the boundary before slot [n] of its phase. *)
Definition driverAt (n : Z) (d : Driver) : Prop :=
  arrivalInv (msgDict d) n (sim d)
  /\ recordsBelow n (pktOut (sim d))
  /\ (queuesNonEmpty d = true -> slotVar d = Some (n - 1)).

(** ** Sample inputs *)

(** The table of the end-to-end scenario: sizes 1 and 2, half each. *)
Definition exTable : list row := [Row (1#2) 1; Row 1 2].

(** A sequence of values of [random.random()]: with [probPerSlot = 1/5] a
    message of size 2 arrives in slot 0 and one of size 1 in slot 1. *)
Definition exRand (n : nat) : Q :=
  match n with
  | 0%nat => 0
  | 1%nat => 3#4
  | 2%nat => 0
  | 3%nat => 1#4
  | _ => 9#10
  end.

(** Another sequence of values of [random.random()]: with
    [probPerSlot = 3/5] a message arrives in slot 0 with the draw 1/4 for
    its size, and one in slot 1 with the draw 3/4. *)
Definition exRandLate (n : nat) : Q :=
  match n with
  | 0%nat => 0
  | 1%nat => 1#4
  | 2%nat => 0
  | _ => 3#4
  end.

(** A sequence of Poisson draws. *)
Definition exPois (n : nat) : nat :=
  match n with
  | 0%nat => 2%nat
  | 1%nat => 0%nat
  | _ => 1%nat
  end.

(** The first phase on the sample inputs after its two generating slots,
    and after three more drain iterations. *)
Definition exLoopEnd : Driver :=
  Eval vm_compute in
    match forRange (simpleSlot exTable (1#5) exRand exPois) 2
            (simpleInit ∅ freshStores) with
    | OK d => d
    | _ => simpleInit ∅ freshStores
    end.

Definition exDrained : Driver :=
  Eval vm_compute in
    match whilePrefix queuesNonEmpty (drainStep (simpleScheduler exPois)) 3
            exLoopEnd with
    | OK d => d
    | _ => exLoopEnd
    end.

(** What [run] returns on the sample inputs with [rho = 3/10] (which
    makes [probPerSlot] the double [7205759403792793 * 2^-55], just below
    1/5). *)
Definition exMsgDict : gmap Z (Z * Z) :=
  Eval vm_compute in
    match run 2 (3#10) exTable exRand exPois 10 ∅ (MkStores ∅ ∅) with
    | OK (msgDict, _) => msgDict
    | _ => ∅
    end.

Definition exStores : Stores :=
  Eval vm_compute in
    match run 2 (3#10) exTable exRand exPois 10 ∅ (MkStores ∅ ∅) with
    | OK (_, pktOutTimes) => pktOutTimes
    | _ => MkStores ∅ ∅
    end.

(** ** Further notions *)

(** Cumulative probabilities in strictly increasing order. *)
Definition probsIncreasing (distMatrix : list row) : Prop :=
  StronglySorted (fun r1 r2 => (row_prob r1 < row_prob r2)%Q) distMatrix.

(** A message table filled in the slots below [n] with the ids below
    [next]: the ids are consecutive from 0, every arrival slot is a slot
    below [n], and the arrival slots increase strictly with the id. *)
Definition tableWellFormed (n next : Z) (msgDict : gmap Z (Z * Z)) : Prop :=
  0 <= next <= n
  /\ (forall i, is_Some (msgDict !! i) <-> 0 <= i < next)
  /\ (forall i size arr, msgDict !! i = Some (size, arr) -> 0 <= arr < n)
  /\ (forall i j sizei arri sizej arrj,
        msgDict !! i = Some (sizei, arri) ->
        msgDict !! j = Some (sizej, arrj) -> i < j -> arri < arrj).

(** The transmit queue holds message [i] with a size that is not positive. *)
Definition stuck (i : Z) (tx : list msg) : Prop :=
  exists m, m ∈ tx /\ msg_id m = i /\ msg_size m <= 0.

(** Every message of the table whose size is not positive is still in the
    transmit queue. *)
Definition nonPositiveStuck (d : Driver) : Prop :=
  forall i size arr, msgDict d !! i = Some (size, arr) -> size <= 0 ->
    stuck i (txQueue (sched (sim d))).

(** The packets still to transmit. *)
Definition txTotal (w : Sim) : Z := wsum msg_size (txQueue (sched w)).

(** One more than the largest remaining delay of the delay queue (0 when it
    is empty): the number of depletion passes that empty it. *)
Definition dqSpan (w : Sim) : Z :=
  foldr (fun d acc => Z.max (dp_delay d + 1) acc) 0 (delayQueue (sched w)).

(** A world that a drain loop can empty: every message to transmit has a
    positive size and no remaining delay is negative. *)
Definition drainable (w : Sim) : Prop :=
  Forall (fun m => 1 <= msg_size m) (txQueue (sched w))
  /\ Forall (fun d => 0 <= dp_delay d) (delayQueue (sched w)).

(** What one invocation of a scheduler achieves on a drainable world: it
    stays drainable and either transmits, or, with nothing to transmit,
    brings the delay queue one pass nearer to empty, or, with that empty too,
    retires a packet. *)
Definition progresses (w w' : Sim) : Prop :=
  drainable w'
  /\ (txQueue (sched w) <> [] -> txTotal w' < txTotal w)
  /\ (txQueue (sched w) = [] ->
      txQueue (sched w') = []
      /\ (delayQueue (sched w) <> [] -> dqSpan w' < dqSpan w)
      /\ (delayQueue (sched w) = [] ->
          delayQueue (sched w') = []
          /\ length (rxQueue (sched w')) = pred (length (rxQueue (sched w))))).

(** Every message of the table has at least one packet. *)
Definition sizesPositive (msgDict : gmap Z (Z * Z)) : Prop :=
  forall i size arr, msgDict !! i = Some (size, arr) -> 1 <= size.

(** What an entry of the simple store adds to the aggregation: the size of
    its message and its penalty term, when its id is in the ideal store and
    nothing raises; nothing otherwise. *)
Definition contribution (pktOutTimesIdeal : gmap Z (list pkt_info))
    (msgDict : gmap Z (Z * Z)) (entry : Z * list pkt_info) : option (Z * Q) :=
  match pktOutTimesIdeal !! entry.1 with
  | None => None
  | Some recsIdeal =>
      match msgCompletionTime msgDict entry.1 entry.2,
            msgCompletionTime msgDict entry.1 recsIdeal,
            msgDict !! entry.1 with
      | OK completionSimple, OK completionIdeal, Some (msgSize, _) =>
          match penaltyTerm completionSimple completionIdeal with
          | OK term => Some (msgSize, term)
          | _ => None
          end
      | _, _, _ => None
      end
  end.

(** The terms of a sequence of contributions, added from the left to 0 as
    [+=] does. *)
Definition sumTerms (cs : list (Z * Q)) : Q :=
  fold_left (fun acc c => (acc + c.2)%Q) cs 0%Q.

(** The contributions of the messages of one size. *)
Definition ofSize (s : Z) (cs : list (Z * Q)) : list (Z * Q) :=
  filter (fun c => c.1 = s) cs.

(** The value of [penaltyPerSize] under the key [s] after the contributions
    [cs]: none when no message had that size. *)
Definition grouped (rho : Q) (s : Z) (cs : list (Z * Q)) : option (Q * Z * Q) :=
  match ofSize s cs with
  | [] => None
  | l => Some (sumTerms l, Z.of_nat (length l), rho)
  end.

(** The totals [a] are those of the contributions [cs]. *)
Definition aggregates (rho : Q) (cs : list (Z * Q)) (a : Agg) : Prop :=
  numMsg a = Z.of_nat (length cs)
  /\ penalty a = sumTerms cs
  /\ forall s, penaltyPerSize a !! s = grouped rho s cs.

(** The totals of the aggregation on the sample run. *)
Definition exAgg : Agg :=
  Eval vm_compute in
    match aggregate exMsgDict exStores (3#10) with
    | OK a => a
    | _ => aggInit
    end.

(** A way of weighing what is left of a message against its packets: a
    message of remaining size [n] weighs [g n], a packet made at remaining
    size [n] with priority [prio] weighs [fp n prio], and making a packet
    (with priority [prioOf n]) keeps the weight: the message goes on with
    size [n - 1] or, when that is 0, leaves the transmit queue. *)
Definition weighting (prioOf g : Z -> Z) (fp : Z -> Z -> Z) : Prop :=
  forall n,
    g n = fp n (prioOf n) + (if decide (n - 1 = 0) then 0 else g (n - 1)).

(** The weight of message [i] over the three queues and its records. *)
Definition lmass (g : Z -> Z) (fp : Z -> Z -> Z) (i : Z) (w : Sim) : Z :=
  wsum (fun m => if decide (msg_id m = i) then g (msg_size m) else 0)
    (txQueue (sched w))
  + wsum (fun d => if decide (dp_id d = i) then fp (dp_size d) (dp_prio d)
                   else 0) (delayQueue (sched w))
  + wsum (fun p => if decide (pkt_id p = i) then fp (pkt_size p) (pkt_prio p)
                   else 0) (rxQueue (sched w))
  + wsum (fun r => fp (out_size r) (out_prio r)) (default [] (pktOut w !! i)).

(** Weight bookkeeping of the two phases of [run]. *)
Definition lmassInvSimple (g : Z -> Z) (fp : Z -> Z -> Z) (d : Driver) : Prop :=
  (forall i, msgId d <= i -> lmass g fp i (sim d) = 0)
  /\ (forall i size slot, msgDict d !! i = Some (size, slot) ->
        i < msgId d /\ lmass g fp i (sim d) = g size).

Definition lmassInvIdeal (g : Z -> Z) (fp : Z -> Z -> Z) (d : Driver) : Prop :=
  0 <= msgId d
  /\ (forall i, msgId d <= i -> lmass g fp i (sim d) = 0)
  /\ (forall i size slot, 0 <= i < msgId d ->
        msgDict d !! i = Some (size, slot) -> lmass g fp i (sim d) = g size).

(** The weighting that follows the packet made at remaining size [k]: a
    message weighs 1 while that packet is still to be made, and the packet
    weighs 1 when it carries the size [k] and the priority [prio]. *)
Definition stillHolds (k n : Z) : Z := if decide (k <= n) then 1 else 0.

Definition isPacket (k prio size' prio' : Z) : Z :=
  if decide (size' = k /\ prio' = prio) then 1 else 0.

(** The size and the priority of a departure record. *)
Definition recordLabel (r : pkt_info) : Z * Z := (out_size r, out_prio r).

(** What the last block of a scheduler does in slot [slot] from the world
    [w]: of the packets received so far, those of the receive queue followed
    by those whose delay has just run out, it retires the first one among
    those of the least priority value and records it; the others stay, in
    order of priority. *)
Definition retiresFirstOfLeast (slot : Z) (w w' : Sim) : Prop :=
  let arrived := rxQueue (sched w) ++ released (delayQueue (sched w)) in
  (arrived = [] /\ rxQueue (sched w') = [] /\ pktOut w' = pktOut w)
  \/ (exists l1 p l2,
        arrived = l1 ++ p :: l2
        /\ Forall (fun q => pkt_prio p < pkt_prio q) l1
        /\ Forall (fun q => pkt_prio p <= pkt_prio q) l2
        /\ rxQueue (sched w') = sort_by pkt_prio (l1 ++ l2)
        /\ pktOut w'
           = <[pkt_id p := default [] (pktOut w !! pkt_id p)
                           ++ [PktInfo slot (pkt_prio p) (pkt_size p)]]>
               (pktOut w)).

(** The entries that one pass of the loop of [idealScheduler] adds to the
    delay queue for the messages [tx], when [k0] Poisson samples were drawn
    before: one per message, with its remaining size as size and as
    priority. *)
Definition idealPackets (pois : nat -> nat) (k0 : nat) (tx : list msg)
  : list delayedPkt :=
  imap (fun k m => DelayedPkt (msg_id m) (msg_size m) (msg_size m)
                     (Z.of_nat (pois (k0 + k)%nat) + fixedDelay)) tx.

(** Every packet in flight or received has the priority that [f] gives to
    its size. *)
Definition prioBy (f : Z -> Z) (w : Sim) : Prop :=
  Forall (fun d => dp_prio d = f (dp_size d)) (delayQueue (sched w))
  /\ Forall (fun p => pkt_prio p = f (pkt_size p)) (rxQueue (sched w)).

(** First in, first out: the packet received first is retired and recorded
    with priority 0, the others stay in the order in which they came. *)
Definition retiresHead (slot : Z) (w w' : Sim) : Prop :=
  let arrived := rxQueue (sched w) ++ released (delayQueue (sched w)) in
  rxQueue (sched w') = tail arrived
  /\ pktOut w'
     = match arrived with
       | [] => pktOut w
       | p :: _ =>
           <[pkt_id p := default [] (pktOut w !! pkt_id p)
                         ++ [PktInfo slot 0 (pkt_size p)]]> (pktOut w)
       end.

(** Smallest remaining size first: of the packets received, the first one
    among those of the least remaining size is retired and recorded. *)
Definition retiresSmallest (slot : Z) (w w' : Sim) : Prop :=
  let arrived := rxQueue (sched w) ++ released (delayQueue (sched w)) in
  (arrived = [] /\ rxQueue (sched w') = [] /\ pktOut w' = pktOut w)
  \/ (exists l1 p l2,
        arrived = l1 ++ p :: l2
        /\ Forall (fun q => pkt_size p < pkt_size q) l1
        /\ Forall (fun q => pkt_size p <= pkt_size q) l2
        /\ rxQueue (sched w') ≡ₚ l1 ++ l2
        /\ pktOut w'
           = <[pkt_id p := default [] (pktOut w !! pkt_id p)
                           ++ [PktInfo slot (pkt_size p) (pkt_size p)]]>
               (pktOut w)).

(** The second phase on the sample inputs after its first replaying slot:
    message 0 is replayed, message 1 is not yet. *)
Definition exReplayOne : Driver :=
  Eval vm_compute in
    match forRange (idealSlot exPois) 1 (idealInit freshStores exDrained) with
    | OK d => d
    | _ => exDrained
    end.

(** The second phase on the sample inputs after its two replaying slots. *)
Definition exReplayEnd : Driver :=
  Eval vm_compute in
    match forRange (idealSlot exPois) 2 (idealInit freshStores exDrained) with
    | OK d => d
    | _ => exDrained
    end.

(** A sequence of Poisson draws under which the packets sent in
    consecutive slots reach the receiver together, in both phases. *)
Definition exPoisBurst (n : nat) : nat :=
  match n with
  | 0%nat | 3%nat => 2%nat
  | 1%nat | 4%nat => 1%nat
  | _ => 0%nat
  end.

(** The first phase under these draws after its two generating slots, after
    one more drain iteration (the three packets are due together), and
    drained. *)
Definition exBurstLoopEnd : Driver :=
  Eval vm_compute in
    match forRange (simpleSlot exTable (1#5) exRand exPoisBurst) 2
            (simpleInit ∅ freshStores) with
    | OK d => d
    | _ => simpleInit ∅ freshStores
    end.

Definition exBurstSimple : Driver :=
  Eval vm_compute in
    match whilePrefix queuesNonEmpty (drainStep (simpleScheduler exPoisBurst)) 1
            exBurstLoopEnd with
    | OK d => d
    | _ => exBurstLoopEnd
    end.

Definition exBurstDrained : Driver :=
  Eval vm_compute in
    match whilePrefix queuesNonEmpty (drainStep (simpleScheduler exPoisBurst)) 4
            exBurstLoopEnd with
    | OK d => d
    | _ => exBurstLoopEnd
    end.

(** The second phase under these draws after its two replaying slots, and
    after one more drain iteration (the two packets of message 0 are due
    together). *)
Definition exBurstReplayEnd : Driver :=
  Eval vm_compute in
    match forRange (idealSlot exPoisBurst) 2
            (idealInit freshStores exBurstDrained) with
    | OK d => d
    | _ => exBurstDrained
    end.

Definition exBurstIdeal : Driver :=
  Eval vm_compute in
    match whilePrefix queuesNonEmpty (drainStep (idealScheduler exPoisBurst)) 1
            exBurstReplayEnd with
    | OK d => d
    | _ => exBurstReplayEnd
    end.

(** The transmit queue after the arrival step of a slot: the new message,
    if there is one, is appended and sorted in. *)
Definition withArrival (arrival : option msg) (tx : list msg) : list msg :=
  match arrival with
  | Some newMsg => sort_by msg_size (tx ++ [newMsg])
  | None => tx
  end.

(** * Lemmas *)

(** ** The result monad and the loops *)

Lemma bind_OK_inv {A B} (m : result A) (f : A -> result B) (b : B) :
  m ≫= f = OK b -> exists a, m = OK a /\ f a = OK b.
Proof. destruct m as [a| |]; simpl; intros H; try discriminate; eauto. Qed.

Lemma forRange_succ_inv {S} (body : nat -> S -> result S) n s0 s :
  forRange body (Datatypes.S n) s0 = OK s ->
  exists s', forRange body n s0 = OK s' /\ body n s' = OK s.
Proof. simpl. apply bind_OK_inv. Qed.

Lemma forRange_inv {S} (P : nat -> S -> Prop) (body : nat -> S -> result S) s0 :
  P O s0 ->
  (forall k s s', P k s -> body k s = OK s' -> P (Datatypes.S k) s') ->
  forall n s, forRange body n s0 = OK s -> P n s.
Proof.
  intros H0 Hstep. induction n as [|n IH]; intros s Hs.
  - simpl in Hs. by inversion Hs; subst.
  - apply forRange_succ_inv in Hs as (s' & Hs' & Hb). eauto.
Qed.

Lemma forRange_prefix {S} (body : nat -> S -> result S) s0 n m s :
  forRange body (n + m) s0 = OK s -> exists s', forRange body n s0 = OK s'.
Proof.
  revert s. induction m as [|m IH]; intros s Hs.
  - rewrite Nat.add_0_r in Hs. eauto.
  - rewrite Nat.add_succ_r in Hs.
    apply forRange_succ_inv in Hs as (s' & Hs' & _). eauto.
Qed.

Lemma whilePrefix_inv {S} (P : S -> Prop) (cond : S -> bool)
    (body : S -> result S) :
  (forall s s', P s -> cond s = true -> body s = OK s' -> P s') ->
  forall k s0 s, P s0 -> whilePrefix cond body k s0 = OK s -> P s.
Proof.
  intros Hstep. induction k as [|k IH]; intros s0 s H0 Hs; simpl in Hs.
  - by inversion Hs; subst.
  - destruct (cond s0) eqn:Hc.
    + apply bind_OK_inv in Hs as (s' & Hb & Hs'). eauto.
    + by inversion Hs; subst.
Qed.

Lemma whileLoop_prefix {S} (cond : S -> bool) (body : S -> result S) fuel s0 s :
  whileLoop cond body fuel s0 = OK s ->
  whilePrefix cond body fuel s0 = OK s /\ cond s = false.
Proof.
  revert s0. induction fuel as [|f IH]; intros s0 Hs; simpl in *.
  - destruct (cond s0) eqn:Hc; [discriminate|]. by inversion Hs; subst.
  - destruct (cond s0) eqn:Hc.
    + apply bind_OK_inv in Hs as (s' & Hb & Hs'). rewrite Hb. simpl. eauto.
    + by inversion Hs; subst.
Qed.

Lemma whileLoop_skip {S} (cond : S -> bool) (body : S -> result S) fuel s :
  cond s = false -> whileLoop cond body fuel s = OK s.
Proof. intros Hc. destruct fuel; simpl; by rewrite Hc. Qed.

(** ** Stable sorting *)

Section sorting.
Context {A : Type} (key : A -> Z).

Lemma insert_by_perm x (l : list A) : insert_by key x l ≡ₚ x :: l.
Proof.
  induction l as [|y l IH]; simpl; [done|].
  case_decide; [done|]. rewrite IH. apply perm_swap.
Qed.

Lemma sort_by_perm (l : list A) : sort_by key l ≡ₚ l.
Proof.
  induction l as [|x l IH]; simpl; [done|].
  rewrite insert_by_perm. by f_equiv.
Qed.

Lemma sort_by_length (l : list A) : length (sort_by key l) = length l.
Proof. by rewrite sort_by_perm. Qed.

Lemma sortedBy_cons x (l : list A) :
  sortedBy key (x :: l) <-> Forall (fun y => key x <= key y) l /\ sortedBy key l.
Proof.
  unfold sortedBy. split.
  - intros H. inversion H; subst. done.
  - intros [H1 H2]. by constructor.
Qed.

Lemma insert_by_sorted x (l : list A) :
  sortedBy key l -> sortedBy key (insert_by key x l).
Proof.
  induction l as [|y l IH]; simpl; intros Hs.
  - apply sortedBy_cons. split; [constructor | done].
  - apply sortedBy_cons in Hs as [Hy Hl]. case_decide as Hxy.
    + apply sortedBy_cons. split.
      * constructor; [done|]. eapply Forall_impl; [exact Hy|].
        simpl. intros; lia.
      * by apply sortedBy_cons.
    + apply sortedBy_cons. split; [|by apply IH].
      rewrite insert_by_perm. constructor; [lia | done].
Qed.

Lemma sort_by_sorted (l : list A) : sortedBy key (sort_by key l).
Proof.
  induction l as [|x l IH]; simpl; [constructor|]. by apply insert_by_sorted.
Qed.

(** Stability: a list already in order is left as it is. *)
Lemma sort_by_id (l : list A) : sortedBy key l -> sort_by key l = l.
Proof.
  induction l as [|x l IH]; simpl; intros Hs; [done|].
  apply sortedBy_cons in Hs as [Hx Hl]. rewrite IH by done.
  destruct l as [|y l]; simpl; [done|].
  inversion Hx; subst. by rewrite decide_True.
Qed.

(** Stability: the elements selected by a predicate keep their order. *)
Lemma insert_by_filter (P : A -> Prop) `{!forall a, Decision (P a)} x l :
  sortedBy key l ->
  filter P (insert_by key x l)
  = if decide (P x) then insert_by key x (filter P l) else filter P l.
Proof.
  induction l as [|y l IH]; simpl; intros Hs.
  - rewrite filter_cons, filter_nil. by destruct (decide (P x)).
  - apply sortedBy_cons in Hs as [Hy Hl].
    destruct (decide (key x <= key y)) as [Hxy|Hxy].
    + rewrite !filter_cons. destruct (decide (P x)) as [Hx|Hx]; [|done].
      destruct (decide (P y)) as [HPy|HPy]; simpl.
      * by rewrite decide_True.
      * assert (Hf : Forall (fun z => key x <= key z) (filter P l)).
        { apply Forall_forall. intros z Hz.
          apply list_elem_of_filter in Hz as [_ Hz].
          rewrite Forall_forall in Hy. specialize (Hy z Hz). lia. }
        destruct (filter P l) as [|z l'] eqn:E; simpl; [done|].
        inversion Hf; subst. by rewrite decide_True.
    + rewrite !filter_cons. rewrite IH by done.
      destruct (decide (P x)) as [Hx|Hx];
        destruct (decide (P y)) as [HPy|HPy]; simpl; try done.
      by rewrite decide_False.
Qed.

Lemma sort_by_filter (P : A -> Prop) `{!forall a, Decision (P a)} l :
  filter P (sort_by key l) = sort_by key (filter P l).
Proof.
  induction l as [|x l IH]; simpl; [done|].
  rewrite insert_by_filter by apply sort_by_sorted.
  rewrite filter_cons, IH. by case_decide.
Qed.

Lemma sortedBy_filter (P : A -> Prop) `{!forall a, Decision (P a)} l :
  sortedBy key l -> sortedBy key (filter P l).
Proof.
  induction l as [|x l IH]; intros Hs; [constructor|].
  apply sortedBy_cons in Hs as [Hx Hl]. rewrite filter_cons.
  case_decide; [|by apply IH].
  apply sortedBy_cons. split; [|by apply IH].
  apply Forall_forall. intros z Hz.
  apply list_elem_of_filter in Hz as [_ Hz].
  rewrite Forall_forall in Hx. by apply Hx.
Qed.

Lemma sortedBy_tail x (l : list A) : sortedBy key (x :: l) -> sortedBy key l.
Proof. intros H. by apply sortedBy_cons in H as [_ ?]. Qed.
End sorting.

Lemma sortedBy_fmap {A B} (key : B -> Z) (key' : A -> Z) (f : A -> B) l :
  (forall x y, key' x <= key' y -> key (f x) <= key (f y)) ->
  sortedBy key' l -> sortedBy key (f <$> l).
Proof.
  intros Hmono. induction l as [|x l IH]; intros Hs; [constructor|].
  apply sortedBy_cons in Hs as [Hx Hl]. rewrite fmap_cons.
  apply sortedBy_cons. split; [|by apply IH].
  apply Forall_fmap. eapply Forall_impl; [exact Hx|]. simpl. auto.
Qed.

(** ** list.remove *)

Lemma py_remove_middle {A} `{EqDecision A} (x : A) l1 l2 :
  x ∉ l1 -> py_remove x (l1 ++ x :: l2) = Some (l1 ++ l2).
Proof.
  induction l1 as [|y l1 IH]; simpl; intros Hx.
  - by rewrite decide_True.
  - apply not_elem_of_cons in Hx as [Hne Hx].
    rewrite decide_False by done. by rewrite IH.
Qed.

Lemma py_remove_elem_of {A} `{EqDecision A} (x : A) l :
  x ∈ l -> exists l1 l2, l = l1 ++ x :: l2 /\ (x ∉ l1)
                         /\ py_remove x l = Some (l1 ++ l2).
Proof.
  induction l as [|y l IH]; intros Hx; [by apply elem_of_nil in Hx|].
  destruct (decide (y = x)) as [->|Hne].
  - exists [], l. simpl. rewrite decide_True by done.
    split_and!; [done | apply not_elem_of_nil | done].
  - apply elem_of_cons in Hx as [->|Hx]; [done|].
    destruct (IH Hx) as (l1 & l2 & -> & Hn & Hr).
    exists (y :: l1), l2. simpl. rewrite decide_False by done. rewrite Hr.
    split_and!; [done | | done].
    apply not_elem_of_cons. split; [congruence | done].
Qed.

(** ** Weighted sums *)

Section wsum.
Context {A : Type} (f : A -> Z).

Lemma wsum_cons x l : wsum f (x :: l) = f x + wsum f l.
Proof. done. Qed.

Lemma wsum_app l1 l2 : wsum f (l1 ++ l2) = wsum f l1 + wsum f l2.
Proof. induction l1 as [|x l1 IH]; simpl; [done|]. rewrite IH. lia. Qed.

Lemma wsum_perm l1 l2 : l1 ≡ₚ l2 -> wsum f l1 = wsum f l2.
Proof. induction 1; simpl; lia. Qed.

Lemma wsum_split (P : A -> Prop) `{!forall a, Decision (P a)} l :
  wsum f l = wsum f (filter P l) + wsum f (filter (fun a => ~ P a) l).
Proof.
  induction l as [|x l IH]; simpl; [done|]. rewrite !filter_cons.
  destruct (decide (P x)); [rewrite decide_False by tauto
                           | rewrite decide_True by done]; simpl; lia.
Qed.

End wsum.

Lemma wsum_fmap {A B} (f : B -> Z) (g : A -> B) l :
  wsum f (g <$> l) = wsum (fun x => f (g x)) l.
Proof.
  unfold wsum. induction l as [|x l IH]; [done|].
  rewrite fmap_cons. cbn [foldr]. by rewrite IH.
Qed.

#[global] Instance wsum_proper {A} (f : A -> Z) :
  Proper ((≡ₚ) ==> (=)) (wsum f).
Proof. intros l1 l2. apply wsum_perm. Qed.

(** ** depleteDelayQueue *)

Lemma releaseLoop_spec snapshot rx pre :
  Forall (fun d => dp_delay d <> 0) pre ->
  releaseLoop snapshot rx (pre ++ snapshot)
  = OK (rx ++ released snapshot, pre ++ inFlight snapshot).
Proof.
  revert rx pre. unfold released, inFlight.
  induction snapshot as [|d rest IH]; intros rx pre Hpre; simpl.
  - by rewrite !app_nil_r.
  - rewrite !filter_cons. destruct (decide (dp_delay d = 0)) as [Hd|Hd].
    + rewrite decide_False by tauto.
      rewrite py_remove_middle.
      * rewrite IH by done. rewrite fmap_cons. by rewrite <- app_assoc.
      * intros Hin. rewrite Forall_forall in Hpre. by apply (Hpre d).
    + rewrite decide_True by done.
      replace (pre ++ d :: rest) with ((pre ++ [d]) ++ rest)
        by (by rewrite <- app_assoc).
      rewrite IH.
      * by rewrite <- app_assoc.
      * apply Forall_app. split; [done|]. by constructor.
Qed.

Lemma depleteDelayQueue_spec self :
  depleteDelayQueue self
  = OK (MkScheduler (txQueue self)
          (sort_by pkt_prio (rxQueue self ++ released (delayQueue self)))
          (decrDelay <$> inFlight (delayQueue self))).
Proof.
  unfold depleteDelayQueue.
  pose proof (releaseLoop_spec (delayQueue self) (rxQueue self) []) as H.
  simpl in H. rewrite H by constructor. done.
Qed.

Lemma depleteAndRecord_spec slot w :
  depleteAndRecord slot w
  = OK (let '(self', out) :=
          recordDeparture slot
            (MkScheduler (txQueue (sched w))
               (sort_by pkt_prio (rxQueue (sched w) ++ released (delayQueue (sched w))))
               (decrDelay <$> inFlight (delayQueue (sched w))))
            (pktOut w) in
        MkSim self' out (nPois w)).
Proof.
  unfold depleteAndRecord. rewrite depleteDelayQueue_spec. simpl.
  by destruct (recordDeparture _ _ _).
Qed.

(** ** The loop of idealScheduler *)

Lemma idealVisit_spec pois m rest done w :
  exists done',
    idealVisit pois m rest done w
    = OK (done',
          MkSim (MkScheduler (done' ++ rest) (rxQueue (sched w))
                   (sort_by dp_delay
                      (delayQueue (sched w)
                       ++ [DelayedPkt (msg_id m) (msg_size m) (msg_size m)
                             (Z.of_nat (pois (nPois w)) + fixedDelay)])))
            (pktOut w) (S (nPois w)))
    /\ ((msg_size m = 1 /\ done ++ [m] ≡ₚ m :: done'
         /\ (m ∉ done -> done' = done))
        \/ (msg_size m <> 1 /\ done' = done ++ [decrSize m])).
Proof.
  unfold idealVisit. destruct (decide (msg_size m = 1)) as [H1|H1].
  - destruct (py_remove_elem_of m (done ++ [m])) as (l1 & l2 & E & Hn & Hr).
    { apply elem_of_app. right. apply list_elem_of_singleton. done. }
    rewrite Hr. simpl. exists (l1 ++ l2). split; [done|]. left.
    split; [done|]. split.
    + rewrite E. by rewrite Permutation_middle.
    + intros Hnd. rewrite py_remove_middle in Hr by done.
      rewrite app_nil_r in Hr. by inversion Hr.
  - simpl. exists (done ++ [decrSize m]). split; [done|]. right. done.
Qed.

Lemma idealLoop_inv (I : list msg -> list msg -> Sim -> Prop) pois :
  (forall m rest done w done' w',
      I done (m :: rest) w -> idealVisit pois m rest done w = OK (done', w') ->
      I done' rest w') ->
  forall todo done w w',
    I done todo w -> idealLoop pois todo done w = OK w' ->
    exists done', I done' [] w'.
Proof.
  intros Hstep. induction todo as [|m rest IH]; intros done w w' HI Hl.
  - simpl in Hl. inversion Hl; subst. eauto.
  - simpl in Hl. apply bind_OK_inv in Hl as ([done1 w1] & Hv & Hl). eauto.
Qed.

Lemma idealLoop_total pois todo done w :
  exists w', idealLoop pois todo done w = OK w'.
Proof.
  revert done w. induction todo as [|m rest IH]; intros done w; simpl.
  - eauto.
  - destruct (idealVisit_spec pois m rest done w) as (done' & -> & _).
    simpl. apply IH.
Qed.

(** ** generateMsgSize *)

Lemma Qlt_bool_iff x y : Qlt_bool x y = true <-> (x < y)%Q.
Proof.
  unfold Qlt_bool. rewrite negb_true_iff. split.
  - intros H. apply Qnot_le_lt. intros Hle.
    apply Qle_bool_iff in Hle. congruence.
  - intros H. destruct (Qle_bool y x) eqn:E; [|done].
    apply Qle_bool_iff in E. by apply Qlt_not_le in H.
Qed.

Lemma generateMsgSize_Some distMatrix u s :
  generateMsgSize distMatrix u = Some s <->
  exists pre r post,
    distMatrix = pre ++ r :: post
    /\ Forall (fun r' => ~ (u < row_prob r')%Q) pre
    /\ (u < row_prob r)%Q /\ row_size r = s.
Proof.
  induction distMatrix as [|r0 rest IH]; simpl.
  - split; [done|]. intros (pre & r & post & E & _). by destruct pre.
  - destruct (Qlt_bool u (row_prob r0)) eqn:E.
    + apply Qlt_bool_iff in E. split.
      * intros [= <-]. exists [], r0, rest. by repeat split.
      * intros (pre & r & post & Hd & Hpre & Hr & Hs).
        destruct pre as [|r1 pre]; simpl in Hd; inversion Hd; subst; [done|].
        inversion Hpre; subst. done.
    + assert (Hn : ~ (u < row_prob r0)%Q).
      { intros H. apply Qlt_bool_iff in H. congruence. }
      rewrite IH. split.
      * intros (pre & r & post & -> & Hpre & Hr & Hs).
        exists (r0 :: pre), r, post. repeat split; try done. by constructor.
      * intros (pre & r & post & Hd & Hpre & Hr & Hs).
        destruct pre as [|r1 pre]; simpl in Hd; inversion Hd; subst; [done|].
        inversion Hpre; subst. exists pre, r, post. by repeat split.
Qed.

Lemma generateMsgSize_None distMatrix u :
  generateMsgSize distMatrix u = None <->
  Forall (fun r => ~ (u < row_prob r)%Q) distMatrix.
Proof.
  induction distMatrix as [|r0 rest IH]; simpl.
  - split; [constructor | done].
  - destruct (Qlt_bool u (row_prob r0)) eqn:E.
    + apply Qlt_bool_iff in E. split; [done|].
      intros H. inversion H; subst. done.
    + rewrite IH. split.
      * intros H. constructor; [|done].
        intros Hlt. apply Qlt_bool_iff in Hlt. congruence.
      * intros H. by inversion H.
Qed.

(** C7: [generateMsgSize], given the value [u] drawn by [random.random()],
    returns the size of the first row of the table whose cumulative
    probability strictly exceeds [u], and no value exactly when no row
    exceeds it (in particular for an empty table); for a valid table
    (cumulative probabilities strictly increasing and ending at 1) and
    [u] in [[0,1)] the returned value is one of the table's sizes. *)
Theorem generateMsgSize_contract (distMatrix : list row) (u : Q) :
  (forall s, generateMsgSize distMatrix u = Some s <->
     exists pre r post,
       distMatrix = pre ++ r :: post
       /\ Forall (fun r' => ~ (u < row_prob r')%Q) pre
       /\ (u < row_prob r)%Q /\ row_size r = s)
  /\ (generateMsgSize distMatrix u = None <->
      Forall (fun r => ~ (u < row_prob r)%Q) distMatrix)
  /\ (validTable distMatrix -> (0 <= u)%Q /\ (u < 1)%Q ->
      exists s, generateMsgSize distMatrix u = Some s
                /\ s ∈ row_size <$> distMatrix)
  /\ generateMsgSize [] u = None.
Proof.
  split; [intros s; apply generateMsgSize_Some|].
  split; [apply generateMsgSize_None|].
  split; [|done].
  intros [_ (r & Hlast & H1)] [_ Hu].
  destruct (generateMsgSize distMatrix u) as [s|] eqn:E.
  - exists s. split; [done|].
    apply generateMsgSize_Some in E as (pre & r' & post & -> & _ & _ & <-).
    apply list_elem_of_fmap. exists r'. split; [done|].
    apply elem_of_app. right. apply elem_of_cons. by left.
  - exfalso. apply generateMsgSize_None in E.
    rewrite Forall_forall in E. apply (E r).
    + apply last_Some in Hlast as [l' ->].
      apply elem_of_app. right. apply list_elem_of_singleton. done.
    + by rewrite H1.
Qed.

Lemma generateMsgSize_contract_witness :
  exists s, generateMsgSize [Row (1#2) 1; Row 1 2] (3#4) = Some s
            /\ s ∈ row_size <$> [Row (1#2) 1; Row 1 2].
Proof.
  apply (proj1 (proj2 (proj2
           (generateMsgSize_contract [Row (1#2) 1; Row 1 2] (3#4))))).
  - split.
    + repeat constructor.
    + exists (Row 1 2). split; reflexivity.
  - split; [discriminate | reflexivity].
Defined.

(** ** Injection and release *)

Lemma sortedBy_const {A} (key : A -> Z) c (l : list A) :
  Forall (fun x => key x = c) l -> sortedBy key l.
Proof.
  induction 1 as [|x l Hx Hl IH]; [constructor|].
  apply sortedBy_cons. split; [|done].
  eapply Forall_impl; [exact Hl|]. simpl. intros; lia.
Qed.

(** Stability of the sort: the elements of one key keep their order. *)
Lemma sort_by_stable {A} (key : A -> Z) c (l : list A) :
  filter (fun x => key x = c) (sort_by key l) = filter (fun x => key x = c) l.
Proof.
  rewrite sort_by_filter. apply sort_by_id.
  apply (sortedBy_const _ c). apply Forall_forall.
  intros d Hd. by apply list_elem_of_filter in Hd as [? _].
Qed.

Lemma released_sort_by dq : released (sort_by dp_delay dq) = released dq.
Proof. unfold released. f_equal. apply sort_by_stable. Qed.

Lemma released_inject dq d :
  dp_delay d <> 0 -> released (sort_by dp_delay (dq ++ [d])) = released dq.
Proof.
  intros Hd. rewrite released_sort_by. unfold released.
  rewrite filter_app, filter_cons, filter_nil, decide_False by done.
  by rewrite app_nil_r.
Qed.

Lemma fixedDelay_pos sample : Z.of_nat sample + fixedDelay <> 0.
Proof. unfold fixedDelay. lia. Qed.

Lemma elem_of_sort_by {A} (key : A -> Z) x (l : list A) :
  x ∈ sort_by key l <-> x ∈ l.
Proof. by rewrite sort_by_perm. Qed.

Lemma simpleTransmit_released pois w :
  released (delayQueue (sched (simpleTransmit pois w)))
  = released (delayQueue (sched w))
  /\ rxQueue (sched (simpleTransmit pois w)) = rxQueue (sched w)
  /\ pktOut (simpleTransmit pois w) = pktOut w.
Proof.
  unfold simpleTransmit. destruct (txQueue (sched w)) as [|h rest]; [done|].
  cbn zeta. case_decide; simpl;
    (split; [apply released_inject; simpl; apply fixedDelay_pos | done]).
Qed.

Lemma idealLoop_released pois todo done w w' :
  idealLoop pois todo done w = OK w' ->
  released (delayQueue (sched w')) = released (delayQueue (sched w))
  /\ rxQueue (sched w') = rxQueue (sched w)
  /\ pktOut w' = pktOut w.
Proof.
  intros Hl.
  destruct (idealLoop_inv
    (fun _ _ w1 =>
       released (delayQueue (sched w1)) = released (delayQueue (sched w))
       /\ rxQueue (sched w1) = rxQueue (sched w) /\ pktOut w1 = pktOut w)
    pois) with (todo := todo) (done := done) (w := w) (w' := w')
    as [_ H]; try done.
  intros m rest done0 w0 done' w1 (H1 & H2 & H3) Hv.
  destruct (idealVisit_spec pois m rest done0 w0) as (done1 & E & _).
  rewrite E in Hv. inversion Hv; subst. simpl.
  rewrite released_inject by (simpl; apply fixedDelay_pos). done.
Qed.

Lemma inFlight_decr self d :
  d ∈ delayQueue self -> dp_delay d <> 0 ->
  decrDelay d ∈ decrDelay <$> inFlight (delayQueue self).
Proof.
  intros Hd Hnz. apply list_elem_of_fmap. exists d. split; [done|].
  apply list_elem_of_filter. done.
Qed.

(** C1 (as the code has it): [depleteDelayQueue] hands the entries whose
    delay is 0 to the receive queue and only then decrements the entries that
    remain, so an entry that has delay 0 when the pass runs is released in
    that very pass, and an entry with another delay is kept and decremented.
    [addPktToDelayQueue] gives every packet a delay of at least
    [fixedDelay = 1]; hence what a scheduler invocation releases is what the
    delay queue held with delay 0 before the invocation injected anything,
    and the packet that [simpleScheduler] injects at a slot is still in the
    delay queue after the depletion of that slot, its delay being the Poisson
    draw: it is never released before the next slot. *)
Theorem deplete_release_order :
  (forall self,
      depleteDelayQueue self
      = OK (MkScheduler (txQueue self)
              (sort_by pkt_prio (rxQueue self ++ released (delayQueue self)))
              (decrDelay <$> inFlight (delayQueue self))))
  /\ (forall self d, d ∈ delayQueue self -> dp_delay d = 0 ->
        exists self', depleteDelayQueue self = OK self'
                      /\ stripDelay d ∈ rxQueue self')
  /\ (forall self d, d ∈ delayQueue self -> dp_delay d <> 0 ->
        exists self', depleteDelayQueue self = OK self'
                      /\ decrDelay d ∈ delayQueue self')
  /\ (forall pois w,
        exists self2,
          depleteDelayQueue (sched (simpleTransmit pois w)) = OK self2
          /\ rxQueue self2
             = sort_by pkt_prio
                 (rxQueue (sched w) ++ released (delayQueue (sched w)))
          /\ forall h rest, txQueue (sched w) = h :: rest ->
               DelayedPkt (msg_id h) (msg_size h) 0
                 (Z.of_nat (pois (nPois w))) ∈ delayQueue self2)
  /\ (forall pois w w1, idealTransmit pois w = OK w1 ->
        exists self2,
          depleteDelayQueue (sched w1) = OK self2
          /\ rxQueue self2
             = sort_by pkt_prio
                 (rxQueue (sched w) ++ released (delayQueue (sched w)))).
Proof.
  split; [apply depleteDelayQueue_spec|].
  split.
  { intros self d Hd H0. eexists. split; [apply depleteDelayQueue_spec|].
    simpl. apply elem_of_sort_by, elem_of_app. right.
    apply list_elem_of_fmap. exists d. split; [done|].
    by apply list_elem_of_filter. }
  split.
  { intros self d Hd Hnz. eexists. split; [apply depleteDelayQueue_spec|].
    simpl. by apply inFlight_decr. }
  split.
  { intros pois w. eexists. split; [apply depleteDelayQueue_spec|]. simpl.
    destruct (simpleTransmit_released pois w) as (-> & -> & _).
    split; [done|]. intros h rest Htx.
    unfold simpleTransmit. rewrite Htx. cbn zeta.
    set (d := DelayedPkt (msg_id h) (msg_size h) 0
                (Z.of_nat (pois (nPois w)) + fixedDelay)).
    assert (Hin : decrDelay d
                  ∈ decrDelay <$> inFlight (sort_by dp_delay (delayQueue (sched w) ++ [d]))).
    { apply (inFlight_decr (MkScheduler [] [] _)); simpl.
      - apply elem_of_sort_by, elem_of_app. right.
        by apply list_elem_of_singleton.
      - apply fixedDelay_pos. }
    replace (decrDelay d)
      with (DelayedPkt (msg_id h) (msg_size h) 0 (Z.of_nat (pois (nPois w))))
      in Hin by (unfold decrDelay, d, fixedDelay; simpl; f_equal; lia).
    by case_decide. }
  intros pois w w1 Hi. eexists. split; [apply depleteDelayQueue_spec|]. simpl.
  apply idealLoop_released in Hi as (-> & -> & _). done.
Qed.

Lemma deplete_release_order_witness :
  exists self',
    depleteDelayQueue (MkScheduler [] [] [DelayedPkt 0 1 0 0; DelayedPkt 0 2 0 3])
    = OK self'
    /\ decrDelay (DelayedPkt 0 2 0 3) ∈ delayQueue self'.
Proof.
  apply (proj1 (proj2 (proj2 deplete_release_order))).
  - apply elem_of_cons. right. apply elem_of_cons. by left.
  - simpl. lia.
Defined.

(** C1, the statement as the specification has it, fails: an entry that sits
    in the delay queue with delay 0 is not held back for a slot, the
    depletion pass of that slot releases it; [simpleScheduler] invoked for
    slot 5 on such a queue records the departure in slot 5 itself. *)
Lemma delay0_released_at_once :
  depleteDelayQueue (MkScheduler [] [] [DelayedPkt 0 1 0 0])
  = OK (MkScheduler [] [Pkt 0 1 0] [])
  /\ ~ heldBack (MkScheduler [] [] [DelayedPkt 0 1 0 0]) (DelayedPkt 0 1 0 0)
  /\ simpleScheduler exPois 5
       (MkSim (MkScheduler [] [] [DelayedPkt 0 1 0 0]) ∅ 0)
     = OK (MkSim (MkScheduler [] [] []) {[ 0 := [PktInfo 5 0 1] ]} 0).
Proof.
  split; [reflexivity|]. split; [|vm_compute; reflexivity].
  intros (self' & Hd & Hin & _).
  assert (E : depleteDelayQueue (MkScheduler [] [] [DelayedPkt 0 1 0 0])
              = OK (MkScheduler [] [Pkt 0 1 0] [])) by reflexivity.
  rewrite E in Hd. inversion Hd; subst. simpl in Hin.
  by apply elem_of_nil in Hin.
Qed.

(** ** Counting packets and records *)

Lemma recordCount_insert_fresh (out : gmap Z (list pkt_info)) i recs :
  out !! i = None ->
  recordCount (<[i := recs]> out) = (length recs + recordCount out)%nat.
Proof.
  intros Hi. unfold recordCount.
  rewrite map_fold_insert_L; [done | intros; lia | done].
Qed.

Lemma recordCount_lookup (out : gmap Z (list pkt_info)) i recs :
  out !! i = Some recs ->
  recordCount out = (length recs + recordCount (delete i out))%nat.
Proof.
  intros Hi. unfold recordCount.
  by rewrite (map_fold_delete_L _ _ i recs); [|intros; lia|].
Qed.

Lemma recordCount_append (out : gmap Z (list pkt_info)) i info :
  recordCount (<[i := default [] (out !! i) ++ [info]]> out)
  = S (recordCount out).
Proof.
  destruct (out !! i) as [recs|] eqn:Hi; simpl.
  - rewrite <- insert_delete_eq.
    rewrite recordCount_insert_fresh by apply lookup_delete_eq.
    rewrite (recordCount_lookup out i recs) by done.
    rewrite length_app. simpl. lia.
  - by rewrite recordCount_insert_fresh.
Qed.

Lemma recordDeparture_store slot self out :
  snd (recordDeparture slot self out)
  = match rxQueue self with
    | [] => out
    | p :: _ =>
        <[pkt_id p := default [] (out !! pkt_id p)
                      ++ [PktInfo slot (pkt_prio p) (pkt_size p)]]> out
    end.
Proof.
  unfold recordDeparture. destruct (rxQueue self) as [|p rest]; [done|].
  simpl. by destruct (out !! pkt_id p).
Qed.

Lemma recordDeparture_sched slot self out :
  fst (recordDeparture slot self out)
  = MkScheduler (txQueue self) (tail (rxQueue self)) (delayQueue self).
Proof.
  unfold recordDeparture. destruct self as [tx [|p rest] dq]; done.
Qed.

Lemma recordDeparture_count slot self out :
  (rxQueue self = []
   /\ recordDeparture slot self out = (self, out))
  \/ (exists p,
        rxQueue self = p :: rxQueue (fst (recordDeparture slot self out))
        /\ recordCount (snd (recordDeparture slot self out))
           = S (recordCount out)).
Proof.
  rewrite recordDeparture_store, recordDeparture_sched.
  destruct (rxQueue self) as [|p rest] eqn:E.
  - left. split; [done|]. unfold recordDeparture. by rewrite E.
  - right. exists p. simpl. split; [done|]. apply recordCount_append.
Qed.

Lemma released_inFlight_length dq :
  (length (released dq) + length (inFlight dq))%nat = length dq.
Proof.
  unfold released, inFlight. rewrite length_fmap.
  induction dq as [|d dq IH]; [done|]. rewrite !filter_cons.
  destruct (decide (dp_delay d = 0)).
  - rewrite decide_False by tauto. simpl. lia.
  - rewrite decide_True by done. simpl. lia.
Qed.

Lemma depleteAndRecord_counts slot w :
  exists self w',
    depleteDelayQueue (sched w) = OK self
    /\ depleteAndRecord slot w = OK w'
    /\ nPois w' = nPois w
    /\ txQueue (sched w') = txQueue self
    /\ delayQueue (sched w') = delayQueue self
    /\ (length (delayQueue self) + length (rxQueue self))%nat
       = (length (delayQueue (sched w)) + length (rxQueue (sched w)))%nat
    /\ ((rxQueue self = [] /\ rxQueue (sched w') = []
         /\ pktOut w' = pktOut w)
        \/ (exists p, rxQueue self = p :: rxQueue (sched w')
                      /\ recordCount (pktOut w') = S (recordCount (pktOut w)))).
Proof.
  eexists. eexists. split; [apply depleteDelayQueue_spec|].
  split; [apply depleteAndRecord_spec|].
  match goal with |- context [recordDeparture ?s ?self ?out] =>
    pose proof (recordDeparture_count s self out) as Hc;
    pose proof (recordDeparture_sched s self out) as Hs;
    destruct (recordDeparture s self out) as [self' out'] eqn:E
  end.
  simpl in *. subst self'. simpl.
  split; [done|]. split; [done|]. split; [done|]. split.
  - rewrite sort_by_length, length_app, length_fmap.
    pose proof (released_inFlight_length (delayQueue (sched w))). lia.
  - destruct Hc as [[H1 H2]|(p & H1 & H2)].
    + left. rewrite H1. inversion H2. done.
    + right. exists p. done.
Qed.

Lemma simpleTransmit_counts pois w :
  let injected := match txQueue (sched w) with [] => O | _ => 1%nat end in
  length (delayQueue (sched (simpleTransmit pois w)))
  = (length (delayQueue (sched w)) + injected)%nat
  /\ nPois (simpleTransmit pois w) = (nPois w + injected)%nat.
Proof.
  unfold simpleTransmit. destruct (txQueue (sched w)) as [|h rest]; simpl.
  - lia.
  - case_decide; simpl; rewrite sort_by_length, length_app; simpl; lia.
Qed.

Lemma idealLoop_counts pois todo done w w' :
  idealLoop pois todo done w = OK w' ->
  length (delayQueue (sched w'))
  = (length (delayQueue (sched w)) + length todo)%nat
  /\ nPois w' = (nPois w + length todo)%nat.
Proof.
  revert done w. induction todo as [|m rest IH]; intros done w Hl; simpl in Hl.
  - inversion Hl; subst. simpl. lia.
  - destruct (idealVisit_spec pois m rest done w) as (done' & E & _).
    rewrite E in Hl. simpl in Hl. apply IH in Hl as [H1 H2].
    simpl in *. rewrite sort_by_length, length_app in H1. simpl in H1. lia.
Qed.

(** C3: one invocation of [simpleScheduler] injects at most one packet into
    the delay queue (one if the transmit queue is not empty, none otherwise)
    and one invocation of [idealScheduler] injects exactly one packet per
    message of the transmit queue; both retire at most one packet from the
    receive queue, appending one departure record for it.  Depletion only
    moves packets from the delay queue to the receive queue. *)
Theorem per_slot_packet_counts (pois : nat -> nat) (slot : Z) (w : Sim) :
  (exists self w',
      let injected := match txQueue (sched w) with [] => O | _ => 1%nat end in
      depleteDelayQueue (sched (simpleTransmit pois w)) = OK self
      /\ simpleScheduler pois slot w = OK w'
      /\ (injected <= 1)%nat
      /\ length (delayQueue (sched (simpleTransmit pois w)))
         = (length (delayQueue (sched w)) + injected)%nat
      /\ rxQueue (sched (simpleTransmit pois w)) = rxQueue (sched w)
      /\ (length (delayQueue self) + length (rxQueue self))%nat
         = (length (delayQueue (sched w)) + length (rxQueue (sched w))
            + injected)%nat
      /\ delayQueue (sched w') = delayQueue self
      /\ ((rxQueue self = [] /\ rxQueue (sched w') = []
           /\ pktOut w' = pktOut w)
          \/ (exists p, rxQueue self = p :: rxQueue (sched w')
                /\ recordCount (pktOut w') = S (recordCount (pktOut w)))))
  /\ (exists w1 self w',
        idealTransmit pois w = OK w1
        /\ depleteDelayQueue (sched w1) = OK self
        /\ idealScheduler pois slot w = OK w'
        /\ length (delayQueue (sched w1))
           = (length (delayQueue (sched w)) + length (txQueue (sched w)))%nat
        /\ rxQueue (sched w1) = rxQueue (sched w)
        /\ (length (delayQueue self) + length (rxQueue self))%nat
           = (length (delayQueue (sched w)) + length (rxQueue (sched w))
              + length (txQueue (sched w)))%nat
        /\ delayQueue (sched w') = delayQueue self
        /\ ((rxQueue self = [] /\ rxQueue (sched w') = []
             /\ pktOut w' = pktOut w)
            \/ (exists p, rxQueue self = p :: rxQueue (sched w')
                  /\ recordCount (pktOut w') = S (recordCount (pktOut w))))).
Proof.
  split.
  - destruct (depleteAndRecord_counts slot (simpleTransmit pois w))
      as (self & w' & Hd & Hr & _ & _ & Hdq & Hlen & Hret).
    destruct (simpleTransmit_counts pois w) as [Hinj _].
    destruct (simpleTransmit_released pois w) as (_ & Hrx & Hout).
    exists self, w'. cbn zeta. split; [done|]. split; [done|].
    split; [by destruct (txQueue (sched w)); lia|].
    split; [done|]. split; [done|].
    split; [cbn zeta in Hinj; rewrite Hrx in Hlen; lia|].
    split; [done|]. by rewrite Hout in Hret.
  - destruct (idealLoop_total pois (txQueue (sched w)) [] w) as [w1 Hw1].
    destruct (depleteAndRecord_counts slot w1)
      as (self & w' & Hd & Hr & _ & _ & Hdq & Hlen & Hret).
    pose proof (idealLoop_counts _ _ _ _ _ Hw1) as [Hinj _].
    pose proof (idealLoop_released _ _ _ _ _ Hw1) as (_ & Hrx & Hout).
    exists w1, self, w'. split; [done|]. split; [done|].
    split; [unfold idealScheduler, idealTransmit; by rewrite Hw1|].
    split; [done|]. split; [done|].
    split; [rewrite Hrx in Hlen; lia|].
    split; [done|]. by rewrite Hout in Hret.
Qed.

(** ** Order of the queues *)

Lemma sortedBy_decrSize tx :
  sortedBy msg_size tx -> sortedBy msg_size (decrSize <$> tx).
Proof. apply sortedBy_fmap. simpl. intros; lia. Qed.

Lemma sortedBy_decrDelay dq :
  sortedBy dp_delay dq -> sortedBy dp_delay (decrDelay <$> dq).
Proof. apply sortedBy_fmap. simpl. intros; lia. Qed.

Lemma simpleTransmit_tx_sorted pois w :
  sortedBy msg_size (txQueue (sched w)) ->
  sortedBy msg_size (txQueue (sched (simpleTransmit pois w))).
Proof.
  unfold simpleTransmit.
  destruct (txQueue (sched w)) as [|h rest] eqn:E; [by rewrite E|].
  intros Hs. apply sortedBy_cons in Hs as [Hh Hrest]. cbn zeta.
  case_decide; simpl; [done|].
  apply sortedBy_cons. split; [|done].
  eapply Forall_impl; [exact Hh|]. simpl. intros; lia.
Qed.

Lemma simpleTransmit_dq_sorted pois w :
  sortedBy dp_delay (delayQueue (sched w)) ->
  sortedBy dp_delay (delayQueue (sched (simpleTransmit pois w))).
Proof.
  unfold simpleTransmit. destruct (txQueue (sched w)) as [|h rest]; [done|].
  intros _. cbn zeta. case_decide; simpl; apply sort_by_sorted.
Qed.

Lemma idealLoop_tx pois todo done w w' :
  txQueue (sched w) = done ++ todo ->
  sortedBy msg_size todo ->
  (forall d t, d ∈ done -> t ∈ todo -> msg_size d < msg_size t) ->
  idealLoop pois todo done w = OK w' ->
  txQueue (sched w')
  = done ++ (decrSize <$> filter (fun m => msg_size m <> 1) todo).
Proof.
  revert done w. induction todo as [|m rest IH]; intros done w Htx Hs Hlt Hl.
  - simpl in Hl. inversion Hl; subst. by rewrite Htx.
  - simpl in Hl.
    destruct (idealVisit_spec pois m rest done w) as (done' & E & Hcase).
    rewrite E in Hl. simpl in Hl.
    apply sortedBy_cons in Hs as [Hm Hrest]. rewrite Forall_forall in Hm.
    rewrite filter_cons.
    destruct Hcase as [(H1 & _ & Hnd)|(H1 & ->)].
    + rewrite decide_False by tauto.
      rewrite Hnd in Hl.
      * apply IH in Hl; try done.
        intros d t Hd Ht. apply Hlt; [done|]. apply elem_of_cons. by right.
      * intros Hin. specialize (Hlt m m Hin). 
        assert (msg_size m < msg_size m); [|lia].
        apply Hlt. apply elem_of_cons. by left.
    + rewrite decide_True by done.
      apply IH in Hl; try done.
      * rewrite Hl, fmap_cons. by rewrite <- app_assoc.
      * intros d t Hd Ht. apply elem_of_app in Hd as [Hd|Hd].
        -- apply Hlt; [done|]. apply elem_of_cons. by right.
        -- apply list_elem_of_singleton in Hd. subst d. simpl.
           specialize (Hm t Ht). lia.
Qed.

Lemma idealTransmit_tx pois w :
  sortedBy msg_size (txQueue (sched w)) ->
  exists w1, idealTransmit pois w = OK w1
    /\ txQueue (sched w1)
       = decrSize <$> filter (fun m => msg_size m <> 1) (txQueue (sched w)).
Proof.
  intros Hs. unfold idealTransmit.
  destruct (idealLoop_total pois (txQueue (sched w)) [] w) as [w1 Hw1].
  exists w1. split; [done|].
  apply idealLoop_tx in Hw1; try done.
  intros d t Hd. by apply elem_of_nil in Hd.
Qed.

Lemma idealLoop_dq_sorted pois todo done w w' :
  sortedBy dp_delay (delayQueue (sched w)) ->
  idealLoop pois todo done w = OK w' ->
  sortedBy dp_delay (delayQueue (sched w')).
Proof.
  intros Hs Hl.
  destruct (idealLoop_inv
    (fun _ _ w1 => sortedBy dp_delay (delayQueue (sched w1))) pois)
    with (todo := todo) (done := done) (w := w) (w' := w') as [_ H]; try done.
  intros m rest done0 w0 done' w1 _ Hv.
  destruct (idealVisit_spec pois m rest done0 w0) as (done1 & E & _).
  rewrite E in Hv. inversion Hv; subst. simpl. apply sort_by_sorted.
Qed.

Lemma depleteAndRecord_sorted slot w :
  sortedBy msg_size (txQueue (sched w)) ->
  sortedBy dp_delay (delayQueue (sched w)) ->
  exists w', depleteAndRecord slot w = OK w' /\ queuesSorted (sched w').
Proof.
  intros Htx Hdq. eexists. split; [apply depleteAndRecord_spec|].
  match goal with |- context [recordDeparture ?s ?self ?out] =>
    pose proof (recordDeparture_sched s self out) as Hs;
    destruct (recordDeparture s self out) as [self' out'] eqn:E
  end.
  simpl in *. subst self'. split; [done|]. simpl. split.
  - apply sortedBy_decrDelay. by apply sortedBy_filter.
  - pose proof (sort_by_sorted pkt_prio
      (rxQueue (sched w) ++ released (delayQueue (sched w)))) as Hrx.
    destruct (sort_by pkt_prio _) as [|p rest]; simpl; [constructor|].
    by apply sortedBy_tail in Hrx.
Qed.

(** ** Conservation of mass *)

Lemma dqCount_released i dq :
  rxCount i (released dq) + dqCount i (decrDelay <$> inFlight dq) = dqCount i dq.
Proof.
  unfold rxCount, dqCount, released, inFlight. rewrite !wsum_fmap. simpl.
  rewrite (wsum_split _ (fun d => dp_delay d = 0) dq). done.
Qed.

Lemma outCount_append i j info (out : gmap Z (list pkt_info)) :
  outCount i (<[j := default [] (out !! j) ++ [info]]> out)
  = outCount i out + (if decide (j = i) then 1 else 0).
Proof.
  unfold outCount. destruct (decide (j = i)) as [->|Hne].
  - rewrite lookup_insert_eq. simpl. rewrite length_app. simpl. lia.
  - rewrite lookup_insert_ne by done. lia.
Qed.

Lemma mass_depleteAndRecord i slot w w' :
  depleteAndRecord slot w = OK w' -> mass i w' = mass i w.
Proof.
  rewrite depleteAndRecord_spec. intros [= <-].
  match goal with |- context [recordDeparture ?s ?self ?out] =>
    pose proof (recordDeparture_sched s self out) as Hs;
    pose proof (recordDeparture_store s self out) as Ho;
    destruct (recordDeparture s self out) as [self' out'] eqn:E
  end.
  simpl in *. subst self' out'. unfold mass. simpl.
  pose proof (dqCount_released i (delayQueue (sched w))) as Hd.
  assert (Hrx : rxCount i (sort_by pkt_prio
                  (rxQueue (sched w) ++ released (delayQueue (sched w))))
                = rxCount i (rxQueue (sched w))
                  + rxCount i (released (delayQueue (sched w)))).
  { unfold rxCount. by rewrite sort_by_perm, wsum_app. }
  destruct (sort_by pkt_prio _) as [|p rest]; simpl.
  - change (rxCount i []) with 0 in Hrx. lia.
  - rewrite outCount_append.
    change (rxCount i (p :: rest))
      with ((if decide (pkt_id p = i) then 1 else 0) + rxCount i rest) in Hrx.
    lia.
Qed.

Lemma mass_inject i tx rx dq out k id size prio delay :
  mass i (MkSim (MkScheduler tx rx
                   (sort_by dp_delay (dq ++ [DelayedPkt id size prio delay])))
            out k)
  = txMass i tx + dqCount i dq + rxCount i rx + outCount i out
    + (if decide (id = i) then 1 else 0).
Proof.
  unfold mass, dqCount. simpl. rewrite sort_by_perm, wsum_app. simpl. lia.
Qed.

Lemma mass_simpleTransmit i pois w : mass i (simpleTransmit pois w) = mass i w.
Proof.
  unfold simpleTransmit.
  destruct (txQueue (sched w)) as [|h rest] eqn:E; [done|]. cbn zeta.
  case_decide as H0; unfold addPktToDelayQueue;
    cbn [txQueue rxQueue delayQueue pkt_id pkt_size pkt_prio];
    rewrite mass_inject; unfold mass; rewrite E;
    unfold txMass; rewrite ?wsum_cons; simpl in *;
    destruct (decide (msg_id h = i)); lia.
Qed.

Lemma mass_simpleScheduler i pois slot w w' :
  simpleScheduler pois slot w = OK w' -> mass i w' = mass i w.
Proof.
  unfold simpleScheduler. intros H. apply (mass_depleteAndRecord i) in H.
  by rewrite mass_simpleTransmit in H.
Qed.

Lemma mass_idealLoop i pois todo done w w' :
  txQueue (sched w) = done ++ todo ->
  idealLoop pois todo done w = OK w' -> mass i w' = mass i w.
Proof.
  revert done w. induction todo as [|m rest IH]; intros done w Htx Hl.
  - simpl in Hl. by inversion Hl.
  - simpl in Hl.
    destruct (idealVisit_spec pois m rest done w) as (done' & E & Hcase).
    rewrite E in Hl. simpl in Hl. apply IH in Hl; [|done].
    rewrite Hl, mass_inject. unfold mass. rewrite Htx. unfold txMass.
    rewrite !wsum_app, wsum_cons.
    destruct Hcase as [(H1 & Hperm & _)|(H1 & ->)].
    + assert (Hw := wsum_perm
        (fun m0 => if decide (msg_id m0 = i) then msg_size m0 else 0) _ _ Hperm).
      rewrite wsum_app, wsum_cons in Hw. simpl in Hw.
      destruct (decide (msg_id m = i)); lia.
    + rewrite wsum_app. simpl. destruct (decide (msg_id m = i)); lia.
Qed.

Lemma mass_idealScheduler i pois slot w w' :
  idealScheduler pois slot w = OK w' -> mass i w' = mass i w.
Proof.
  unfold idealScheduler, idealTransmit. intros H.
  apply bind_OK_inv in H as (w1 & H1 & H2).
  apply (mass_depleteAndRecord i) in H2.
  apply (mass_idealLoop i) in H1; [lia | done].
Qed.

Lemma mass_enqueueMsg i newMsg w :
  mass i (enqueueMsg newMsg w)
  = mass i w + (if decide (msg_id newMsg = i) then msg_size newMsg else 0).
Proof.
  unfold mass, enqueueMsg, txMass. simpl.
  rewrite sort_by_perm, wsum_app. simpl. lia.
Qed.

(** ** The driver: structure of one slot *)

Lemma simpleSlot_inv distMatrix probPerSlot rand pois slot d d' :
  simpleSlot distMatrix probPerSlot rand pois slot d = OK d' ->
  exists arrival w,
    simpleArrival distMatrix probPerSlot rand d = OK arrival
    /\ simpleScheduler pois (Z.of_nat slot)
         (sim (simpleEnqueue slot d arrival)) = OK w
    /\ d' = MkDriver w (msgId (simpleEnqueue slot d arrival))
              (msgDict (simpleEnqueue slot d arrival))
              (nRand (simpleEnqueue slot d arrival))
              (Some (Z.of_nat slot)).
Proof.
  unfold simpleSlot. intros H.
  apply bind_OK_inv in H as (arrival & Ha & H).
  apply bind_OK_inv in H as (w & Hw & H).
  exists arrival, w. split; [done|]. split; [done|].
  inversion H. by destruct arrival.
Qed.

Lemma simpleArrival_Some distMatrix probPerSlot rand d m :
  simpleArrival distMatrix probPerSlot rand d = OK (Some m) ->
  msg_id m = msgId d.
Proof.
  unfold simpleArrival. destruct (flt _ _); [|done].
  destruct (generateMsgSize _ _); [|done]. by intros [= <-].
Qed.

Lemma idealSlot_inv pois slot d d' :
  idealSlot pois slot d = OK d' ->
  exists w,
    idealScheduler pois (Z.of_nat slot)
      (sim (idealEnqueue slot d (idealArrival slot d))) = OK w
    /\ d' = MkDriver w (msgId (idealEnqueue slot d (idealArrival slot d)))
              (msgDict d) (nRand d) (Some (Z.of_nat slot)).
Proof.
  unfold idealSlot. intros H.
  apply bind_OK_inv in H as (w & Hw & H).
  exists w. split; [done|]. inversion H. by destruct (idealArrival slot d).
Qed.

Lemma idealArrival_Some slot d m :
  idealArrival slot d = Some m ->
  msg_id m = msgId d
  /\ msgDict d !! msgId d = Some (msg_size m, Z.of_nat slot).
Proof.
  unfold idealArrival. destruct (msgDict d !! msgId d) as [[size a]|]; [|done].
  case_decide; [|done]. intros [= <-]. simpl. by subst.
Qed.

Lemma drainStep_inv scheduler d d' :
  drainStep scheduler d = OK d' ->
  exists slot w,
    slotVar d = Some slot
    /\ scheduler (slot + 1) (sim d) = OK w
    /\ d' = MkDriver w (msgId d) (msgDict d) (nRand d) (Some (slot + 1)).
Proof.
  unfold drainStep. destruct (slotVar d) as [slot|]; [|done]. intros H.
  apply bind_OK_inv in H as (w & Hw & H). exists slot, w. by inversion H.
Qed.

(** ** The driver: conservation of mass *)

Lemma massInvSimple_init : massInvSimple (simpleInit ∅ freshStores).
Proof.
  split; [done|]. intros i size slot H. simpl in H.
  by rewrite lookup_empty in H.
Qed.

Lemma massInvSimple_enqueue distMatrix probPerSlot rand slot d arrival :
  massInvSimple d ->
  simpleArrival distMatrix probPerSlot rand d = OK arrival ->
  massInvSimple (simpleEnqueue slot d arrival).
Proof.
  intros [Ha Hb] Harr. destruct arrival as [m|]; [|done].
  apply simpleArrival_Some in Harr. split; simpl.
  - intros i Hi. rewrite mass_enqueueMsg, decide_False by lia.
    rewrite Ha by lia. lia.
  - intros i size s Hl. rewrite mass_enqueueMsg.
    destruct (decide (msgId d = i)) as [<-|Hne].
    + rewrite lookup_insert_eq in Hl. inversion Hl; subst.
      rewrite decide_True by done. rewrite Ha by lia. lia.
    + rewrite lookup_insert_ne in Hl by done.
      destruct (Hb i size s Hl) as [H1 H2].
      rewrite decide_False by congruence. lia.
Qed.

Lemma massInvSimple_sched d w nr sv :
  massInvSimple d -> (forall i, mass i w = mass i (sim d)) ->
  massInvSimple (MkDriver w (msgId d) (msgDict d) nr sv).
Proof.
  intros [Ha Hb] Hm. split; simpl.
  - intros i Hi. rewrite Hm. by apply Ha.
  - intros i size s Hl. rewrite Hm. by apply (Hb i size s).
Qed.

Lemma massInvSimple_slot distMatrix probPerSlot rand pois slot d d' :
  massInvSimple d ->
  simpleSlot distMatrix probPerSlot rand pois slot d = OK d' ->
  massInvSimple d'.
Proof.
  intros Hinv H. apply simpleSlot_inv in H as (arrival & w & Ha & Hw & ->).
  apply (massInvSimple_sched (simpleEnqueue slot d arrival)).
  - by eapply massInvSimple_enqueue.
  - intros i. by eapply mass_simpleScheduler.
Qed.

Lemma massInvSimple_drain pois d d' :
  massInvSimple d -> drainStep (simpleScheduler pois) d = OK d' ->
  massInvSimple d'.
Proof.
  intros Hinv H. apply drainStep_inv in H as (slot & w & _ & Hw & ->).
  apply massInvSimple_sched; [done|]. intros i. by eapply mass_simpleScheduler.
Qed.

Lemma massInvIdeal_init d2 : massInvIdeal (idealInit freshStores d2).
Proof. split; [done|]. split; [done|]. simpl. intros; lia. Qed.

Lemma massInvIdeal_enqueue slot d :
  massInvIdeal d -> massInvIdeal (idealEnqueue slot d (idealArrival slot d)).
Proof.
  intros (H0 & Ha & Hb).
  destruct (idealArrival slot d) as [m|] eqn:Harr; [|done].
  apply idealArrival_Some in Harr as [Hid Hl].
  split; [simpl; lia|]. split; simpl.
  - intros i Hi. rewrite mass_enqueueMsg, decide_False by lia.
    rewrite Ha by lia. lia.
  - intros i size s Hi Hli. rewrite mass_enqueueMsg.
    destruct (decide (msg_id m = i)) as [He|Hne].
    + subst i. rewrite Hid in Hli. rewrite Hl in Hli. inversion Hli; subst.
      rewrite Ha by lia. lia.
    + rewrite (Hb i size s) by (done || lia). lia.
Qed.

Lemma massInvIdeal_sched d w nr sv :
  massInvIdeal d -> (forall i, mass i w = mass i (sim d)) ->
  massInvIdeal (MkDriver w (msgId d) (msgDict d) nr sv).
Proof.
  intros (H0 & Ha & Hb) Hm. split; [done|]. split; simpl.
  - intros i Hi. rewrite Hm. by apply Ha.
  - intros i size s Hi Hl. rewrite Hm. by eapply Hb.
Qed.

Lemma massInvIdeal_slot pois slot d d' :
  massInvIdeal d -> idealSlot pois slot d = OK d' ->
  massInvIdeal d' /\ msgDict d' = msgDict d.
Proof.
  intros Hinv H. apply idealSlot_inv in H as (w & Hw & ->). split; [|done].
  pose proof (massInvIdeal_enqueue slot d Hinv) as He.
  eapply (massInvIdeal_sched _ w) in He.
  - replace (msgDict d)
      with (msgDict (idealEnqueue slot d (idealArrival slot d)))
      by (by destruct (idealArrival slot d)).
    replace (nRand d)
      with (nRand (idealEnqueue slot d (idealArrival slot d)))
      by (by destruct (idealArrival slot d)).
    exact He.
  - intros i. by eapply mass_idealScheduler.
Qed.

Lemma massInvIdeal_drain pois d d' :
  massInvIdeal d -> drainStep (idealScheduler pois) d = OK d' ->
  massInvIdeal d' /\ msgDict d' = msgDict d.
Proof.
  intros Hinv H. apply drainStep_inv in H as (slot & w & _ & Hw & ->).
  split; [|done].
  apply massInvIdeal_sched; [done|]. intros i. by eapply mass_idealScheduler.
Qed.

Lemma exLoopEnd_boundary :
  simpleBoundary exTable (1#5) exRand exPois 2 exLoopEnd.
Proof. left. exists 2%nat. split; [lia | vm_compute; reflexivity]. Defined.

Lemma exDrained_boundary :
  simpleBoundary exTable (1#5) exRand exPois 2 exDrained.
Proof.
  right. exists exLoopEnd, 3%nat. split; vm_compute; reflexivity.
Defined.

(** ** Departure records *)

Lemma depleteAndRecord_appended slot w w' :
  depleteAndRecord slot w = OK w' -> appended slot (pktOut w) (pktOut w').
Proof.
  rewrite depleteAndRecord_spec. intros [= <-].
  match goal with |- context [recordDeparture ?s ?self ?out] =>
    pose proof (recordDeparture_store s self out) as Ho;
    destruct (recordDeparture s self out) as [self' out'] eqn:E
  end.
  simpl in *. subst out'.
  destruct (sort_by pkt_prio _) as [|p rest]; [by left|]. right. by exists p.
Qed.

Lemma simpleScheduler_appended pois slot w w' :
  simpleScheduler pois slot w = OK w' -> appended slot (pktOut w) (pktOut w').
Proof.
  unfold simpleScheduler. intros H. apply depleteAndRecord_appended in H.
  by destruct (simpleTransmit_released pois w) as (_ & _ & <-).
Qed.

Lemma idealScheduler_appended pois slot w w' :
  idealScheduler pois slot w = OK w' -> appended slot (pktOut w) (pktOut w').
Proof.
  unfold idealScheduler, idealTransmit. intros H.
  apply bind_OK_inv in H as (w1 & H1 & H2).
  apply depleteAndRecord_appended in H2.
  by apply idealLoop_released in H1 as (_ & _ & <-).
Qed.

Lemma StronglySorted_lt_snoc l x :
  StronglySorted Z.lt l -> Forall (fun y => y < x) l ->
  StronglySorted Z.lt (l ++ [x]).
Proof.
  induction l as [|y l IH]; simpl; intros Hs Hx.
  - repeat constructor.
  - inversion Hs; subst. inversion Hx; subst. constructor; [by apply IH|].
    apply Forall_app. split; [done|]. by constructor.
Qed.

Lemma recordsBelow_appended n slot out out' :
  n <= slot -> recordsBelow n out -> appended slot out out' ->
  recordsBelow (slot + 1) out'.
Proof.
  intros Hn Hinv Happ i recs Hl.
  assert (Hold : forall recs0, out !! i = Some recs0 ->
            recs0 <> [] /\ StronglySorted Z.lt (out_slot <$> recs0)
            /\ Forall (fun r => out_slot r < slot + 1) recs0).
  { intros recs0 H0. destruct (Hinv i recs0 H0) as (H1 & H2 & H3).
    split; [done|]. split; [done|].
    eapply Forall_impl; [exact H3|]. simpl. intros; lia. }
  destruct Happ as [->|(p & ->)]; [by apply Hold|].
  destruct (decide (pkt_id p = i)) as [<-|Hne].
  - rewrite lookup_insert_eq in Hl. inversion Hl; subst. clear Hl.
    split; [by destruct (default [] _)|].
    assert (Hd : StronglySorted Z.lt (out_slot <$> default [] (out !! pkt_id p))
                 /\ Forall (fun r => out_slot r < slot)
                      (default [] (out !! pkt_id p))).
    { destruct (out !! pkt_id p) as [recs0|] eqn:E; simpl.
      - destruct (Hinv _ _ E) as (_ & H2 & H3). split; [done|].
        eapply Forall_impl; [exact H3|]. simpl. intros; lia.
      - split; constructor. }
    destruct Hd as [Hs Hb]. split.
    + rewrite fmap_app. simpl. apply StronglySorted_lt_snoc; [done|].
      by apply Forall_fmap.
    + apply Forall_app. split.
      * eapply Forall_impl; [exact Hb|]. simpl. intros; lia.
      * constructor; [simpl; lia | constructor].
  - rewrite lookup_insert_ne in Hl by done. by apply Hold.
Qed.

Lemma py_max_sorted l : StronglySorted Z.lt l -> py_max l = last l.
Proof.
  destruct l as [|x l]; [done|]. simpl. revert x.
  induction l as [|y l IH]; intros x Hs; [done|].
  inversion Hs as [|? ? Hs' Hx]; subst. inversion Hx; subst.
  cbn [foldl]. rewrite Z.max_r by lia. rewrite IH by done. done.
Qed.

Lemma atBoundary_for (body : nat -> Driver -> result Driver) d0 :
  (forall k d d', body k d = OK d' ->
     slotVar d' = Some (Z.of_nat k)
     /\ appended (Z.of_nat k) (pktOut (sim d)) (pktOut (sim d'))) ->
  pktOut (sim d0) = ∅ -> queuesNonEmpty d0 = false ->
  forall n d, forRange body n d0 = OK d -> atBoundary (Z.of_nat n) d.
Proof.
  intros Hbody Hout Hq.
  apply (forRange_inv (fun n d => atBoundary (Z.of_nat n) d)).
  - split.
    + intros i recs Hl. rewrite Hout in Hl. by rewrite lookup_empty in Hl.
    + rewrite Hq. done.
  - intros k d d' [Hr _] Hb. destruct (Hbody k d d' Hb) as [Hs Ha]. split.
    + replace (Z.of_nat (S k)) with (Z.of_nat k + 1) by lia.
      eapply recordsBelow_appended; [|exact Hr|exact Ha]. lia.
    + intros _. rewrite Hs. f_equal. lia.
Qed.

Lemma atBoundary_drain scheduler :
  (forall slot w w', scheduler slot w = OK w' ->
     appended slot (pktOut w) (pktOut w')) ->
  forall k d0 d, (exists n, atBoundary n d0) ->
    whilePrefix queuesNonEmpty (drainStep scheduler) k d0 = OK d ->
    exists n, atBoundary n d.
Proof.
  intros Hsched k d0 d H0 Hk.
  eapply (whilePrefix_inv (fun d => exists n, atBoundary n d)); [|exact H0|exact Hk].
  intros s s' (n & Hr & Hslot) Hc Hb.
  apply drainStep_inv in Hb as (slot & w & Hsv & Hw & ->).
  rewrite Hslot in Hsv by done. inversion Hsv; subst slot.
  exists (n + 1). split; simpl.
  - replace (n + 1) with (n - 1 + 1 + 1) by lia.
    eapply recordsBelow_appended; [|exact Hr|by apply Hsched]. lia.
  - intros _. f_equal. lia.
Qed.

Lemma recordsBelow_increasing n out :
  recordsBelow n out ->
  slotsIncreasing out
  /\ forall i recs, out !! i = Some recs ->
       recs <> [] /\ py_max (out_slot <$> recs) = out_slot <$> last recs.
Proof.
  intros H. split.
  - intros i recs Hl. by destruct (H i recs Hl) as (_ & ? & _).
  - intros i recs Hl. destruct (H i recs Hl) as (? & Hs & _). split; [done|].
    rewrite py_max_sorted by done. by rewrite fmap_last.
Qed.

(** C10: at every slot boundary of either phase of [run], the departure
    records of every message have strictly increasing slots, so the slot of
    the last record is the maximum that the analyzer takes. *)
Theorem departure_slots_increasing distMatrix probPerSlot rand pois steps :
  (forall d, simpleBoundary distMatrix probPerSlot rand pois steps d ->
     slotsIncreasing (pktOut (sim d))
     /\ forall i recs, pktOut (sim d) !! i = Some recs ->
          recs <> [] /\ py_max (out_slot <$> recs) = out_slot <$> last recs)
  /\ (forall d2 d, idealBoundary pois steps d2 d ->
        slotsIncreasing (pktOut (sim d))
        /\ forall i recs, pktOut (sim d) !! i = Some recs ->
             recs <> [] /\ py_max (out_slot <$> recs) = out_slot <$> last recs).
Proof.
  split.
  - intros d Hb. cut (exists n, atBoundary n d).
    { intros (n & Hr & _). by eapply recordsBelow_increasing. }
    assert (Hfor : forall n d1,
      forRange (simpleSlot distMatrix probPerSlot rand pois) n
        (simpleInit ∅ freshStores) = OK d1 -> atBoundary (Z.of_nat n) d1).
    { apply atBoundary_for; try done.
      intros k d0 d' Hs. apply simpleSlot_inv in Hs as (arr & w & _ & Hw & ->).
      split; [done|]. apply simpleScheduler_appended in Hw. simpl.
      by destruct arr. }
    destruct Hb as [(n & _ & Hn)|(d1 & k & H1 & Hk)]; [eauto|].
    eapply atBoundary_drain; [|eauto|exact Hk].
    apply simpleScheduler_appended.
  - intros d2 d Hb. cut (exists n, atBoundary n d).
    { intros (n & Hr & _). by eapply recordsBelow_increasing. }
    assert (Hfor : forall n d1,
      forRange (idealSlot pois) n (idealInit freshStores d2) = OK d1 ->
      atBoundary (Z.of_nat n) d1).
    { apply atBoundary_for; try done.
      intros k d0 d' Hs. apply idealSlot_inv in Hs as (w & Hw & ->).
      split; [done|]. apply idealScheduler_appended in Hw. simpl.
      by destruct (idealArrival k d0). }
    destruct Hb as [(n & _ & Hn)|(e1 & k & H1 & Hk)]; [eauto|].
    eapply atBoundary_drain; [|eauto|exact Hk].
    apply idealScheduler_appended.
Qed.

Lemma departure_slots_increasing_witness :
  slotsIncreasing (pktOut (sim exDrained)).
Proof.
  apply (proj1 (departure_slots_increasing exTable (1#5) exRand exPois 2)
           exDrained exDrained_boundary).
Defined.

(** ** The replayed arrivals *)

Lemma simpleSlot_dict distMatrix probPerSlot rand pois slot d d' :
  simpleSlot distMatrix probPerSlot rand pois slot d = OK d' ->
  exists arrival,
    simpleArrival distMatrix probPerSlot rand d = OK arrival
    /\ msgId d' = msgId (simpleEnqueue slot d arrival)
    /\ msgDict d' = msgDict (simpleEnqueue slot d arrival).
Proof.
  intros H. apply simpleSlot_inv in H as (arrival & w & Ha & _ & ->).
  by exists arrival.
Qed.

Lemma dictBelow_slot distMatrix probPerSlot rand pois n d d' :
  dictBelow n d ->
  simpleSlot distMatrix probPerSlot rand pois n d = OK d' ->
  dictBelow (S n) d'.
Proof.
  intros [H0 Hd] Hs.
  apply simpleSlot_dict in Hs as (arrival & Ha & Hid & Hdict).
  unfold dictBelow. rewrite Hid, Hdict. destruct arrival as [m|]; simpl.
  - split; [lia|]. intros i size slot Hl.
    destruct (decide (msgId d = i)) as [<-|Hne].
    + rewrite lookup_insert_eq in Hl. inversion Hl; subst. lia.
    + rewrite lookup_insert_ne in Hl by done.
      destruct (Hd i size slot Hl). lia.
  - split; [lia|]. intros i size slot Hl. destruct (Hd i size slot Hl). lia.
Qed.

Lemma dictBelow_for distMatrix probPerSlot rand pois n d :
  forRange (simpleSlot distMatrix probPerSlot rand pois) n
    (simpleInit ∅ freshStores) = OK d ->
  dictBelow n d.
Proof.
  revert n d. apply (forRange_inv dictBelow).
  - split; [done|]. intros i size slot H. simpl in H.
    by rewrite lookup_empty in H.
  - intros k s s' Hs Hb. by eapply dictBelow_slot.
Qed.

(** Later slots only add entries for new ids, with later slots. *)
Lemma dict_extension distMatrix probPerSlot rand pois n m sn sm :
  forRange (simpleSlot distMatrix probPerSlot rand pois) n
    (simpleInit ∅ freshStores) = OK sn ->
  forRange (simpleSlot distMatrix probPerSlot rand pois) (n + m)
    (simpleInit ∅ freshStores) = OK sm ->
  msgId sn <= msgId sm
  /\ (forall i, i < msgId sn -> msgDict sm !! i = msgDict sn !! i)
  /\ (forall i size slot, msgId sn <= i ->
        msgDict sm !! i = Some (size, slot) -> Z.of_nat n <= slot).
Proof.
  intros Hn. revert sm. induction m as [|m IH]; intros sm Hm.
  - rewrite Nat.add_0_r, Hn in Hm. inversion Hm; subst sm.
    split; [lia|]. split; [done|]. intros i size slot Hi Hl.
    apply dictBelow_for in Hn as [_ Hd]. destruct (Hd i size slot Hl). lia.
  - rewrite Nat.add_succ_r in Hm.
    apply forRange_succ_inv in Hm as (s' & Hs' & Hb).
    destruct (IH s' Hs') as (H1 & H2 & H3).
    apply simpleSlot_dict in Hb as (arrival & Ha & Hid & Hdict).
    rewrite Hid, Hdict. destruct arrival as [msg|]; simpl.
    + split; [lia|]. split.
      * intros i Hi. rewrite lookup_insert_ne by lia. by apply H2.
      * intros i size slot Hi Hl.
        destruct (decide (msgId s' = i)) as [<-|Hne].
        -- rewrite lookup_insert_eq in Hl. inversion Hl; subst. lia.
        -- rewrite lookup_insert_ne in Hl by done. by eapply H3.
    + done.
Qed.

Lemma idealScheduler_total pois slot w :
  exists w', idealScheduler pois slot w = OK w'.
Proof.
  unfold idealScheduler, idealTransmit.
  destruct (idealLoop_total pois (txQueue (sched w)) [] w) as [w1 ->].
  simpl. rewrite depleteAndRecord_spec. eauto.
Qed.

Lemma simpleScheduler_total pois slot w :
  exists w', simpleScheduler pois slot w = OK w'.
Proof. unfold simpleScheduler. rewrite depleteAndRecord_spec. eauto. Qed.

Lemma idealSlot_step pois slot d :
  exists d', idealSlot pois slot d = OK d'
    /\ msgDict d' = msgDict d
    /\ msgId d' = msgId d + (if idealArrival slot d is Some _ then 1 else 0).
Proof.
  unfold idealSlot.
  destruct (idealScheduler_total pois (Z.of_nat slot)
              (sim (idealEnqueue slot d (idealArrival slot d)))) as [w ->].
  simpl. eexists. split; [done|]. simpl.
  destruct (idealArrival slot d); simpl; split; (done || lia).
Qed.

Lemma ideal_for_total pois n d0 :
  exists d, forRange (idealSlot pois) n d0 = OK d /\ msgDict d = msgDict d0.
Proof.
  induction n as [|n (d & Hd & Hm)]; simpl; [eauto|].
  rewrite Hd. simpl.
  destruct (idealSlot_step pois n d) as (d' & -> & Hm' & _).
  exists d'. split; [done | congruence].
Qed.

Lemma drain_msgDict scheduler fuel d d' :
  whileLoop queuesNonEmpty (drainStep scheduler) fuel d = OK d' ->
  msgDict d' = msgDict d /\ msgId d' = msgId d.
Proof.
  intros H. apply whileLoop_prefix in H as [H _].
  eapply (whilePrefix_inv
            (fun s => msgDict s = msgDict d /\ msgId s = msgId d));
    [|done|exact H].
  intros s s' [Hs1 Hs2] _ Hb. apply drainStep_inv in Hb as (? & ? & _ & _ & ->).
  done.
Qed.

Lemma arrival_agree distMatrix probPerSlot rand pois steps dS n sn en :
  forRange (simpleSlot distMatrix probPerSlot rand pois) steps
    (simpleInit ∅ freshStores) = OK dS ->
  (n < steps)%nat ->
  forRange (simpleSlot distMatrix probPerSlot rand pois) n
    (simpleInit ∅ freshStores) = OK sn ->
  msgDict en = msgDict dS -> msgId en = msgId sn ->
  simpleArrival distMatrix probPerSlot rand sn = OK (idealArrival n en).
Proof.
  intros HS Hn Hsn Hdict Hid.
  replace steps with (S n + (steps - S n))%nat in HS by lia.
  destruct (forRange_prefix _ _ _ _ _ HS) as [s1 Hs1].
  destruct (dict_extension _ _ _ _ _ _ _ _ Hs1 HS) as (H1 & H2 & H3).
  apply forRange_succ_inv in Hs1 as (sn' & Hsn' & Hb).
  rewrite Hsn in Hsn'. inversion Hsn'; subst sn'. clear Hsn'.
  apply simpleSlot_dict in Hb as (arrival & Ha & Hid1 & Hdict1).
  rewrite Ha. f_equal. unfold idealArrival. rewrite Hdict, Hid.
  destruct arrival as [m|]; simpl in *.
  - pose proof (simpleArrival_Some _ _ _ _ _ Ha) as Hm.
    rewrite H2 by lia. rewrite Hdict1, lookup_insert_eq.
    rewrite decide_True by done. destruct m; simpl in *; by subst.
  - destruct (msgDict dS !! msgId sn) as [[size slot]|] eqn:E; [|done].
    apply H3 in E; [|lia]. rewrite decide_False by lia. done.
Qed.

Lemma lockstep distMatrix probPerSlot rand pois steps dS d2 n :
  forRange (simpleSlot distMatrix probPerSlot rand pois) steps
    (simpleInit ∅ freshStores) = OK dS ->
  msgDict d2 = msgDict dS ->
  (n <= steps)%nat ->
  exists sn en,
    forRange (simpleSlot distMatrix probPerSlot rand pois) n
      (simpleInit ∅ freshStores) = OK sn
    /\ forRange (idealSlot pois) n (idealInit freshStores d2) = OK en
    /\ msgDict en = msgDict dS
    /\ msgId en = msgId sn.
Proof.
  intros HS Hd2. induction n as [|n IH]; intros Hn.
  - eexists. eexists. split; [done|]. split; [done|]. done.
  - destruct IH as (sn & en & Hsn & Hen & Hdict & Hid); [lia|].
    pose proof (arrival_agree _ _ _ _ _ _ _ _ _ HS Hn Hsn Hdict Hid) as Hagree.
    assert (Hs1 : exists s1,
      forRange (simpleSlot distMatrix probPerSlot rand pois) (S n)
        (simpleInit ∅ freshStores) = OK s1).
    { replace steps with (S n + (steps - S n))%nat in HS by lia.
      by eapply forRange_prefix. }
    destruct Hs1 as [s1 Hs1]. exists s1.
    destruct (idealSlot_step pois n en) as (e1 & He1 & Hm1 & Hi1).
    exists e1. split; [done|]. split; [simpl; by rewrite Hen|].
    split; [congruence|].
    apply forRange_succ_inv in Hs1 as (sn' & Hsn' & Hb).
    rewrite Hsn in Hsn'. inversion Hsn'; subst sn'.
    apply simpleSlot_dict in Hb as (arrival & Ha & Hid1 & _).
    rewrite Ha in Hagree. inversion Hagree; subst arrival.
    rewrite Hi1, Hid1. destruct (idealArrival n en); simpl; lia.
Qed.

Lemma replayed_id pois d0 i k ek :
  msgId d0 = 0 ->
  forRange (idealSlot pois) k d0 = OK ek ->
  0 <= i < msgId ek ->
  exists n en m,
    (n < k)%nat /\ forRange (idealSlot pois) n d0 = OK en
    /\ idealArrival n en = Some m /\ msg_id m = i.
Proof.
  intros H0. revert ek. induction k as [|k IH]; intros ek Hk Hi.
  - simpl in Hk. inversion Hk; subst. lia.
  - apply forRange_succ_inv in Hk as (e' & He' & Hb).
    destruct (idealSlot_step pois k e') as (e1 & He1 & _ & Hid).
    rewrite Hb in He1. inversion He1; subst e1.
    destruct (decide (i < msgId e')) as [Hlt|Hge].
    + destruct (IH e' He') as (n & en & m & Hn & Hen & Hm & Hmi); [lia|].
      exists n, en, m. split; [lia|]. done.
    + destruct (idealArrival k e') as [m|] eqn:Harr; [|lia].
      exists k, e', m. split; [lia|]. split; [done|]. split; [done|].
      apply idealArrival_Some in Harr as [-> _]. lia.
Qed.

(** C6: the second phase of [run] replays the arrivals of the first.  In
    every slot below [steps] the replaying loop creates exactly the message
    the generating loop created in that slot, or none if it created none;
    in both loops that message is appended to the transmit queue and sorted
    in, the queue stays as it is when there is none, and the scheduler of
    the slot is invoked on that queue.  Hence every message of the message
    table enters the transmit queue of the second phase with its id and size
    in its recorded slot, as it did in the first, and nothing else is
    inserted. *)
Theorem replay_trace_identical distMatrix probPerSlot rand pois steps fuel dS d2 :
  forRange (simpleSlot distMatrix probPerSlot rand pois) steps
    (simpleInit ∅ freshStores) = OK dS ->
  whileLoop queuesNonEmpty (drainStep (simpleScheduler pois)) fuel dS = OK d2 ->
  (forall n, (n < steps)%nat ->
     exists sn en arrival sn' en',
       forRange (simpleSlot distMatrix probPerSlot rand pois) n
         (simpleInit ∅ freshStores) = OK sn
       /\ forRange (idealSlot pois) n (idealInit freshStores d2) = OK en
       /\ simpleArrival distMatrix probPerSlot rand sn = OK arrival
       /\ idealArrival n en = arrival
       /\ txQueue (sched (sim (simpleEnqueue n sn arrival)))
          = withArrival arrival (txQueue (sched (sim sn)))
       /\ txQueue (sched (sim (idealEnqueue n en arrival)))
          = withArrival arrival (txQueue (sched (sim en)))
       /\ forRange (simpleSlot distMatrix probPerSlot rand pois) (S n)
            (simpleInit ∅ freshStores) = OK sn'
       /\ simpleScheduler pois (Z.of_nat n) (sim (simpleEnqueue n sn arrival))
          = OK (sim sn')
       /\ forRange (idealSlot pois) (S n) (idealInit freshStores d2) = OK en'
       /\ idealScheduler pois (Z.of_nat n) (sim (idealEnqueue n en arrival))
          = OK (sim en'))
  /\ (forall i size slot, msgDict dS !! i = Some (size, slot) ->
        exists n sn en,
          (n < steps)%nat /\ slot = Z.of_nat n
          /\ forRange (simpleSlot distMatrix probPerSlot rand pois) n
               (simpleInit ∅ freshStores) = OK sn
          /\ forRange (idealSlot pois) n (idealInit freshStores d2) = OK en
          /\ simpleArrival distMatrix probPerSlot rand sn
             = OK (Some (Msg i size))
          /\ idealArrival n en = Some (Msg i size)
          /\ Msg i size
             ∈ txQueue (sched (sim (simpleEnqueue n sn (Some (Msg i size)))))
          /\ Msg i size
             ∈ txQueue (sched (sim (idealEnqueue n en (Some (Msg i size))))))
  /\ (forall n en m, (n < steps)%nat ->
        forRange (idealSlot pois) n (idealInit freshStores d2) = OK en ->
        idealArrival n en = Some m ->
        msgDict dS !! msg_id m = Some (msg_size m, Z.of_nat n)).
Proof.
  intros HS Hdrain.
  apply drain_msgDict in Hdrain as [Hd2 _].
  assert (Hslot : forall n, (n < steps)%nat ->
    exists sn en,
      forRange (simpleSlot distMatrix probPerSlot rand pois) n
        (simpleInit ∅ freshStores) = OK sn
      /\ forRange (idealSlot pois) n (idealInit freshStores d2) = OK en
      /\ simpleArrival distMatrix probPerSlot rand sn
         = OK (idealArrival n en)).
  { intros n Hn.
    destruct (lockstep _ _ _ pois _ _ _ n HS Hd2)
      as (sn & en & Hsn & Hen & Hm & Hid); [lia|].
    exists sn, en. split; [done|]. split; [done|].
    by apply (arrival_agree _ _ _ pois steps dS n sn en). }
  assert (Hmsg : forall i size slot, msgDict dS !! i = Some (size, slot) ->
    exists n en,
      (n < steps)%nat /\ slot = Z.of_nat n
      /\ forRange (idealSlot pois) n (idealInit freshStores d2) = OK en
      /\ idealArrival n en = Some (Msg i size)).
  { intros i size slot Hl.
    destruct (lockstep _ _ _ pois _ _ _ steps HS Hd2)
      as (sS & eS & HsS & HeS & Hm & Hid); [lia|].
    rewrite HS in HsS. inversion HsS; subst sS.
    pose proof (dictBelow_for _ _ _ _ _ _ HS) as [_ Hdb].
    destruct (Hdb i size slot Hl) as [Hi _].
    destruct (replayed_id pois (idealInit freshStores d2) i steps eS)
      as (n & en & m & Hn & Hen & Harr & Hmi); [done|done|lia|].
    exists n, en. split; [done|].
    destruct (ideal_for_total pois n (idealInit freshStores d2))
      as (en' & Hen' & Hdict).
    rewrite Hen in Hen'. inversion Hen'; subst en'. simpl in Hdict.
    pose proof (idealArrival_Some _ _ _ Harr) as [Hmid Hlk].
    rewrite Hdict, Hd2, <- Hmid, Hmi, Hl in Hlk. inversion Hlk; subst.
    split; [done|]. split; [done|]. rewrite Harr. f_equal.
    destruct m; simpl in *; by subst. }
  split; [|split].
  - intros n Hn. destruct (Hslot n Hn) as (sn & en & Hsn & Hen & Harr).
    assert (Hnext : exists sn',
      forRange (simpleSlot distMatrix probPerSlot rand pois) (S n)
        (simpleInit ∅ freshStores) = OK sn').
    { replace steps with (S n + (steps - S n))%nat in HS by lia.
      by eapply forRange_prefix. }
    destruct Hnext as [sn' Hsn'].
    pose proof Hsn' as Hb. apply forRange_succ_inv in Hb as (sn0 & Hsn0 & Hb).
    rewrite Hsn in Hsn0. inversion Hsn0; subst sn0. clear Hsn0.
    apply simpleSlot_inv in Hb as (arrival & w & Ha & Hw & Hsn'eq).
    rewrite Harr in Ha. inversion Ha; subst arrival. clear Ha.
    destruct (idealSlot_step pois n en) as (en' & Hb' & _).
    pose proof Hb' as Hw'. apply idealSlot_inv in Hw' as (w' & Hw' & Hen'eq).
    exists sn, en, (idealArrival n en), sn', en'.
    split; [done|]. split; [done|]. split; [done|]. split; [done|].
    split; [by destruct (idealArrival n en)|].
    split; [by destruct (idealArrival n en)|].
    split; [done|]. split; [by rewrite Hsn'eq|].
    split; [simpl; by rewrite Hen|]. by rewrite Hen'eq.
  - intros i size slot Hl.
    destruct (Hmsg i size slot Hl) as (n & en & Hn & -> & Hen & Harr).
    destruct (Hslot n Hn) as (sn & en0 & Hsn & Hen0 & Ha).
    rewrite Hen in Hen0. inversion Hen0; subst en0. clear Hen0.
    rewrite Harr in Ha.
    exists n, sn, en. split; [done|]. split; [done|]. split; [done|].
    split; [done|]. split; [done|]. split; [done|].
    split; simpl; apply elem_of_sort_by, elem_of_app; right;
      by apply list_elem_of_singleton.
  - intros n en m Hn Hen Harr.
    destruct (ideal_for_total pois n (idealInit freshStores d2))
      as (en' & Hen' & Hdict).
    rewrite Hen in Hen'. inversion Hen'; subst en'. simpl in Hdict.
    apply idealArrival_Some in Harr as [Hmid Hlk].
    by rewrite Hdict, Hd2, <- Hmid in Hlk.
Qed.

Lemma exDrained_end :
  whileLoop queuesNonEmpty (drainStep (simpleScheduler exPois)) 3 exLoopEnd
  = OK exDrained.
Proof. vm_compute. reflexivity. Defined.

Lemma exLoopEnd_for :
  forRange (simpleSlot exTable (1#5) exRand exPois) 2
    (simpleInit ∅ freshStores) = OK exLoopEnd.
Proof. vm_compute. reflexivity. Defined.

Lemma replay_trace_identical_witness :
  exists n sn en,
    (n < 2)%nat /\ 1 = Z.of_nat n
    /\ forRange (simpleSlot exTable (1#5) exRand exPois) n
         (simpleInit ∅ freshStores) = OK sn
    /\ forRange (idealSlot exPois) n (idealInit freshStores exDrained) = OK en
    /\ simpleArrival exTable (1#5) exRand sn = OK (Some (Msg 1 1))
    /\ idealArrival n en = Some (Msg 1 1)
    /\ Msg 1 1 ∈ txQueue (sched (sim (simpleEnqueue n sn (Some (Msg 1 1)))))
    /\ Msg 1 1 ∈ txQueue (sched (sim (idealEnqueue n en (Some (Msg 1 1))))).
Proof.
  apply (proj1 (proj2 (replay_trace_identical exTable (1#5) exRand exPois 2 3
                         exLoopEnd exDrained exLoopEnd_for exDrained_end))
           1 1 1).
  vm_compute. reflexivity.
Defined.

(** ** Conservation of mass along a run *)

(** C2 (as the code has it): at every slot boundary of the first phase of
    [run], every message of [msgDict] has its original size spread over the
    transmit queue (its remaining size), the delay queue, the receive queue
    and its departure records.  In the second phase, which starts from the
    [msgDict] that the first phase left, this holds at the boundary after
    [n] replaying slots for the messages that arrived in a slot below [n];
    a message that arrives later is nowhere yet (all four counts are 0).  At
    every boundary of the drain loop of the second phase it holds for every
    message. *)
Theorem queue_mass_conservation distMatrix probPerSlot rand pois steps :
  (forall d, simpleBoundary distMatrix probPerSlot rand pois steps d ->
     forall i size slot, msgDict d !! i = Some (size, slot) ->
       mass i (sim d) = size)
  /\ (forall d1 fuel d2,
        forRange (simpleSlot distMatrix probPerSlot rand pois) steps
          (simpleInit ∅ freshStores) = OK d1 ->
        whileLoop queuesNonEmpty (drainStep (simpleScheduler pois)) fuel d1
        = OK d2 ->
        (forall n e, (n <= steps)%nat ->
           forRange (idealSlot pois) n (idealInit freshStores d2) = OK e ->
           msgDict e = msgDict d2
           /\ forall i size slot, msgDict e !! i = Some (size, slot) ->
                mass i (sim e)
                = if decide (slot < Z.of_nat n) then size else 0)
        /\ (forall e1 k e,
              forRange (idealSlot pois) steps (idealInit freshStores d2)
              = OK e1 ->
              whilePrefix queuesNonEmpty (drainStep (idealScheduler pois)) k e1
              = OK e ->
              msgDict e = msgDict d2
              /\ forall i size slot, msgDict e !! i = Some (size, slot) ->
                   mass i (sim e) = size)).
Proof.
  split.
  - intros d Hb. cut (massInvSimple d).
    { intros [_ H] i size slot Hl. by apply (H i size slot). }
    assert (Hfor : forall n d1,
      forRange (simpleSlot distMatrix probPerSlot rand pois) n
        (simpleInit ∅ freshStores) = OK d1 -> massInvSimple d1).
    { intros n d1. apply (forRange_inv (fun _ => massInvSimple)).
      - apply massInvSimple_init.
      - intros k s s' Hs Hbody. by eapply massInvSimple_slot. }
    destruct Hb as [(n & _ & Hn)|(d1 & k & H1 & Hk)]; [by eapply Hfor|].
    eapply (whilePrefix_inv massInvSimple); [|by eapply Hfor|exact Hk].
    intros s s' Hs _ Hbody. by eapply massInvSimple_drain.
  - intros d1 fuel d2 Hd1 Hd2.
    pose proof (drain_msgDict _ _ _ _ Hd2) as [Hm2 _].
    assert (Hfor : forall n e,
      forRange (idealSlot pois) n (idealInit freshStores d2) = OK e ->
      massInvIdeal e /\ msgDict e = msgDict d2).
    { intros n e.
      apply (forRange_inv (fun _ e => massInvIdeal e /\ msgDict e = msgDict d2)).
      - split; [apply massInvIdeal_init | done].
      - intros k s s' [Hs Hm] Hbody.
        destruct (massInvIdeal_slot _ _ _ _ Hs Hbody) as [? Hm'].
        split; [done | congruence]. }
    pose proof (dictBelow_for _ _ _ _ _ _ Hd1) as [_ Hdb1].
    split.
    + intros n e Hn He. destruct (Hfor n e He) as [(_ & Hout & Hin) Hme].
      split; [done|]. intros i size slot Hl.
      destruct (lockstep _ _ _ pois _ _ d2 n Hd1 Hm2 Hn)
        as (sn & en & Hsn & Hen & _ & Hid).
      rewrite He in Hen. inversion Hen; subst en. clear Hen.
      replace steps with (n + (steps - n))%nat in Hd1 by lia.
      destruct (dict_extension _ _ _ _ _ _ _ _ Hsn Hd1) as (_ & Hsame & Hlate).
      pose proof (dictBelow_for _ _ _ _ _ _ Hsn) as [_ Hdbn].
      pose proof Hl as Hl1. rewrite Hme, Hm2 in Hl1.
      destruct (Hdb1 i size slot Hl1) as [Hi _].
      destruct (decide (i < msgId sn)) as [Hlt|Hge].
      * rewrite (Hsame i Hlt) in Hl1.
        destruct (Hdbn i size slot Hl1) as [_ Hslot].
        rewrite decide_True by lia.
        apply (Hin i size slot); [lia | done].
      * assert (Z.of_nat n <= slot) by (apply (Hlate i size slot); [lia|done]).
        rewrite decide_False by lia. apply Hout. lia.
    + intros e1 k e He1 Hk.
      destruct (lockstep _ _ _ pois _ _ d2 steps Hd1 Hm2)
        as (sS & eS & HsS & HeS & _ & Hid); [lia|].
      rewrite Hd1 in HsS. inversion HsS; subst sS.
      rewrite He1 in HeS. inversion HeS; subst eS. clear HsS HeS.
      assert (Hinv : massInvIdeal e /\ msgDict e = msgDict d2
                     /\ msgId e = msgId d1).
      { eapply (whilePrefix_inv
                  (fun e => massInvIdeal e /\ msgDict e = msgDict d2
                            /\ msgId e = msgId d1));
          [| |exact Hk].
        - intros s s' (Hs & Hm & Hi) _ Hbody.
          destruct (massInvIdeal_drain _ _ _ Hs Hbody) as [? Hm'].
          apply drainStep_inv in Hbody as (slot & w & _ & _ & ->).
          split; [done|]. split; [congruence | done].
        - destruct (Hfor steps e1 He1). done. }
      destruct Hinv as ((_ & _ & Hin) & Hme & Hie). split; [done|].
      intros i size slot Hl. pose proof Hl as Hl1. rewrite Hme, Hm2 in Hl1.
      destruct (Hdb1 i size slot Hl1) as [Hi _].
      apply (Hin i size slot); [lia | done].
Qed.

Lemma queue_mass_conservation_witness :
  mass 0 (sim exLoopEnd) = 2
  /\ mass 0 (sim exReplayOne) = 2
  /\ mass 1 (sim exReplayOne) = 0.
Proof.
  pose proof (queue_mass_conservation exTable (1#5) exRand exPois 2)
    as [HS HI].
  split.
  - apply (HS exLoopEnd exLoopEnd_boundary 0 2 0). vm_compute. reflexivity.
  - destruct (HI exLoopEnd 3%nat exDrained exLoopEnd_for exDrained_end)
      as [Hfor _].
    destruct (Hfor 1%nat exReplayOne) as [_ Hmass];
      [lia | vm_compute; reflexivity |].
    split.
    + apply (Hmass 0 2 0). vm_compute. reflexivity.
    + apply (Hmass 1 1 1). vm_compute. reflexivity.
Defined.

(** C2, the statement as the specification has it, fails in the second
    phase.  On the sample run the first phase generates message 0 of size 2
    in slot 0; at the boundary of the second phase before its slot 0 the
    message is in [msgDict], but its four counts are 0, not 2: it is
    replayed only in the slot that follows. *)
Lemma replay_mass_before_arrival :
  forRange (simpleSlot exTable (1#5) exRand exPois) 2
    (simpleInit ∅ freshStores) = OK exLoopEnd
  /\ whileLoop queuesNonEmpty (drainStep (simpleScheduler exPois)) 3 exLoopEnd
     = OK exDrained
  /\ idealBoundary exPois 2 exDrained (idealInit freshStores exDrained)
  /\ msgDict (idealInit freshStores exDrained) !! 0 = Some (2, 0)
  /\ mass 0 (sim (idealInit freshStores exDrained)) = 0
  /\ mass 0 (sim (idealInit freshStores exDrained)) <> 2.
Proof.
  split; [vm_compute; reflexivity|]. split; [vm_compute; reflexivity|].
  split; [left; exists 0%nat; split; [lia | reflexivity]|].
  split; [vm_compute; reflexivity|]. split; [reflexivity | discriminate].
Qed.

(** ** The penalty aggregation *)

Lemma msgCompletionTime_last msgDict key recs size arr r :
  msgDict !! key = Some (size, arr) ->
  StronglySorted Z.lt (out_slot <$> recs) ->
  last recs = Some r ->
  msgCompletionTime msgDict key recs = OK (out_slot r - arr).
Proof.
  intros Hk Hs Hl. unfold msgCompletionTime.
  rewrite py_max_sorted by done. rewrite fmap_last, Hl. simpl. by rewrite Hk.
Qed.

Lemma py_div_OK x y : ~ (y == 0)%Q -> py_div x y = OK (x / y)%Q.
Proof.
  intros Hy. unfold py_div. destruct (Qeq_bool y 0) eqn:E; [|done].
  by apply Qeq_bool_iff in E.
Qed.

Lemma inject_Z_nonzero z : z <> 0 -> ~ (inject_Z z == 0)%Q.
Proof.
  intros Hz H. apply Hz. unfold Qeq, inject_Z in H. simpl in H. lia.
Qed.

Lemma aggStep_absent ideal msgDict rho a key recsSimple :
  ideal !! key = None -> aggStep ideal msgDict rho a (key, recsSimple) = OK a.
Proof. intros H. unfold aggStep. by rewrite H. Qed.

Lemma aggLoop_filter ideal msgDict rho entries a :
  aggLoop ideal msgDict rho entries a
  = aggLoop ideal msgDict rho
      (filter (fun e => is_Some (ideal !! e.1)) entries) a.
Proof.
  revert a. induction entries as [|[key recs] entries IH]; intros a; [done|].
  rewrite filter_cons. cbn [fst].
  destruct (decide (is_Some (ideal !! key))) as [Hs|Hn]; cbn [aggLoop].
  - destruct (aggStep ideal msgDict rho a (key, recs)); simpl; auto.
  - rewrite aggStep_absent; [apply IH|].
    destruct (ideal !! key) eqn:E; [|done]. exfalso. apply Hn. eauto.
Qed.

Lemma aggLoop_ext ideal ideal' msgDict rho entries a :
  (forall e, e ∈ entries -> ideal' !! e.1 = ideal !! e.1) ->
  aggLoop ideal' msgDict rho entries a = aggLoop ideal msgDict rho entries a.
Proof.
  revert a. induction entries as [|[key recs] entries IH]; intros a H; [done|].
  cbn [aggLoop]. assert (Hk : ideal' !! key = ideal !! key).
  { apply (H (key, recs)). apply elem_of_cons. by left. }
  assert (Hstep : aggStep ideal' msgDict rho a (key, recs)
                  = aggStep ideal msgDict rho a (key, recs)).
  { unfold aggStep. by rewrite Hk. }
  rewrite Hstep.
  destruct (aggStep ideal msgDict rho a (key, recs)) as [a'| |]; simpl;
    try done.
  apply IH. intros e He. apply H. apply elem_of_cons. by right.
Qed.

(** ** Runs without messages *)

Lemma run_zero_steps rho distMatrix rand pois fuel msgDict0 pktOutTimes p :
  probPerSlotOf rho distMatrix = OK p ->
  run 0 rho distMatrix rand pois fuel msgDict0 pktOutTimes
  = OK (msgDict0, pktOutTimes).
Proof.
  intros Hp. unfold run. rewrite Hp. simpl.
  rewrite whileLoop_skip by done. simpl.
  rewrite whileLoop_skip by done. simpl. by destruct pktOutTimes.
Qed.

(** A driver state in which nothing was ever generated. *)
Lemma idle_simpleSlot distMatrix p rand pois slot d :
  notAbove p -> (forall n, 0 <= rand n)%Q ->
  sim d = MkSim freshScheduler ∅ 0 -> msgId d = 0 -> msgDict d = ∅ ->
  exists d', simpleSlot distMatrix p rand pois slot d = OK d'
    /\ sim d' = MkSim freshScheduler ∅ 0 /\ msgId d' = 0 /\ msgDict d' = ∅.
Proof.
  intros Hp Hr Hs Hi Hm. unfold simpleSlot, simpleArrival.
  assert (E : flt (rand (nRand d)) p = false).
  { destruct p as [q| | |]; simpl in *; try done.
    destruct (Qlt_bool (rand (nRand d)) q) eqn:E; [|done].
    apply Qlt_bool_iff in E. exfalso.
    apply (Qlt_irrefl 0). eapply Qle_lt_trans; [apply (Hr (nRand d))|].
    eapply Qlt_le_trans; [exact E | exact Hp]. }
  rewrite E. simpl. rewrite Hs. simpl. eexists. split; [done|]. done.
Qed.

Lemma idle_simple_for distMatrix p rand pois n :
  notAbove p -> (forall k, 0 <= rand k)%Q ->
  exists d,
    forRange (simpleSlot distMatrix p rand pois) n (simpleInit ∅ freshStores)
    = OK d
    /\ sim d = MkSim freshScheduler ∅ 0 /\ msgId d = 0 /\ msgDict d = ∅.
Proof.
  intros Hp Hr. induction n as [|n (d & Hd & Hs & Hi & Hm)]; simpl.
  - eexists. split; [done|]. done.
  - rewrite Hd. simpl. by apply idle_simpleSlot.
Qed.

Lemma idle_idealSlot pois slot d :
  sim d = MkSim freshScheduler ∅ 0 -> msgDict d = ∅ ->
  exists d', idealSlot pois slot d = OK d'
    /\ sim d' = MkSim freshScheduler ∅ 0 /\ msgDict d' = ∅.
Proof.
  intros Hs Hm. unfold idealSlot, idealArrival. rewrite Hm, lookup_empty.
  simpl. rewrite Hs. simpl. eexists. split; [done|]. done.
Qed.

Lemma idle_ideal_for pois n d0 :
  sim d0 = MkSim freshScheduler ∅ 0 -> msgDict d0 = ∅ ->
  exists d, forRange (idealSlot pois) n d0 = OK d
    /\ sim d = MkSim freshScheduler ∅ 0 /\ msgDict d = ∅.
Proof.
  intros Hs0 Hm0. induction n as [|n (d & Hd & Hs & Hm)]; simpl.
  - eexists. split; [done|]. done.
  - rewrite Hd. simpl. by apply idle_idealSlot.
Qed.

Lemma idle_queues d :
  sim d = MkSim freshScheduler ∅ 0 -> queuesNonEmpty d = false.
Proof. intros H. unfold queuesNonEmpty. by rewrite H. Qed.

(** On the sample operands the float operations give what the processor
    gives: every sample is a binary64 number, and sums, differences,
    products and quotients (by a divisor that is not zero) agree. *)
Example float_operations_as_hardware :
  forallb (fun x => dbl_eqb x (ofFloat (toFloat x))) floatSamples = true
  /\ forallb (asHardware fadd PrimFloat.add) floatSamplePairs = true
  /\ forallb (asHardware fsub PrimFloat.sub) floatSamplePairs = true
  /\ forallb (asHardware fmul PrimFloat.mul) floatSamplePairs = true
  /\ forallb (fun p => isZero p.2 || asHardware fdiv PrimFloat.div p)
       floatSamplePairs = true.
Proof. do 4 (split; [vm_compute; reflexivity|]). vm_compute. reflexivity. Qed.

(** The mean size of three sample tables, as [run] computes it:
    [[0.3, 2], [0.1, 3]] gives [0.0] (the exact mean is not zero),
    [[0.2, 1], [0.9, 1], [1.0, 1]] gives [0.9999999999999999], and
    [[0.1, -3], [0.2, 1], [0.4, 1]] gives [-2.7755575615628914e-17] (the
    exact mean is zero). *)
Example sizeAvg_of_sample_tables :
  sizeAvgLoop [Row (3#10) 2; Row (1#10) 3] 0 0 = OK (Fin 0)
  /\ sizeAvgLoop [Row (2#10) 1; Row (9#10) 1; Row 1 1] 0 0
     = OK (Fin (9007199254740991 # 9007199254740992))
  /\ sizeAvgLoop [Row (1#10) (-3); Row (2#10) 1; Row (4#10) 1] 0 0
     = OK (Fin (-1 # 36028797018963968)).
Proof. do 2 (split; [vm_compute; reflexivity|]). vm_compute. reflexivity. Qed.

Lemma roundHalfEven_nonneg n d : 0 <= n -> 0 < d -> 0 <= roundHalfEven n d.
Proof.
  intros Hn Hd. unfold roundHalfEven.
  assert (0 <= n / d) by (apply Z.div_pos; lia).
  destruct (2 * (n mod d) ?= d); [destruct (Z.even (n / d))|..]; lia.
Qed.

Lemma roundPos_sign n d : isPositive (roundPos n d) \/ roundPos n d = Fin 0.
Proof.
  unfold roundPos.
  set (t := Z.max (-1074) (ilog2 n d - 52)).
  destruct (0 <=? t) eqn:Et.
  - apply Z.leb_le in Et.
    assert (Hv : 0 <= roundHalfEven (Z.pos n) (Z.pos d * 2 ^ t) * 2 ^ t).
    { apply Z.mul_nonneg_nonneg; [|lia].
      apply roundHalfEven_nonneg; [lia|]. apply Z.mul_pos_pos; lia. }
    destruct (2 ^ 1024 <=? _); [by left|].
    destruct (roundHalfEven (Z.pos n) (Z.pos d * 2 ^ t) * 2 ^ t) as [|v|v] eqn:Ev;
      [by right | left | lia].
    simpl. reflexivity.
  - assert (Hm : 0 <= roundHalfEven (Z.pos n * 2 ^ (- t)) (Z.pos d)).
    { apply roundHalfEven_nonneg; [|lia]. apply Z.mul_nonneg_nonneg; lia. }
    destruct (roundHalfEven (Z.pos n * 2 ^ (- t)) (Z.pos d)) as [|m|m] eqn:Em;
      [right | left | lia].
    + done.
    + cbn [isPositive]. rewrite Qred_correct. reflexivity.
Qed.

Lemma round64_nonpos q : (q <= 0)%Q -> notAbove (round64 q).
Proof.
  intros Hq. unfold round64. destruct q as [[|n|n] d]; simpl.
  - apply Qle_refl.
  - exfalso. unfold Qle in Hq. simpl in Hq. lia.
  - destruct (roundPos_sign n d) as [H| ->]; [|simpl; apply Qle_refl].
    destruct (roundPos n d) as [v| | |]; simpl in *; try done.
    rewrite Qred_correct. apply (Qopp_le_compat 0 v). by apply Qlt_le_weak.
Qed.

Lemma fdiv_nonpos x y : notAbove x -> x <> NaN -> isPositive y -> notAbove (fdiv x y).
Proof.
  intros Hx Hn Hy.
  destruct x as [a| | |], y as [b| | |]; simpl in *; try done.
  - apply round64_nonpos. apply Qle_shift_div_r; [done|]. by rewrite Qmult_0_l.
  - assert (Hb : Z.sgn (Qnum b) = 1).
    { unfold Qlt in Hy. simpl in Hy. destruct (Qnum b); simpl; lia. }
    by rewrite Hb.
Qed.

Lemma round64_not_NaN q : round64 q <> NaN.
Proof.
  unfold round64.
  assert (H : forall n d, roundPos n d <> NaN /\ fneg (roundPos n d) <> NaN).
  { intros n d. unfold roundPos.
    destruct (0 <=? _); [destruct (2 ^ 1024 <=? _)|]; done. }
  destruct (Qnum q); [done|apply H..].
Qed.

Lemma float_of_int_raises z e :
  float_of_int z = Raised e -> e = OverflowError.
Proof.
  unfold float_of_int. destruct (round64 (inject_Z z)); congruence.
Qed.

Lemma float_of_int_fuel z : float_of_int z <> OutOfFuel.
Proof. unfold float_of_int. by destruct (round64 (inject_Z z)). Qed.

Lemma sizeAvgLoop_raises distMatrix sizeAvg prevProb e :
  sizeAvgLoop distMatrix sizeAvg prevProb = Raised e ->
  e = OverflowError
  /\ Exists (fun r => float_of_int (row_size r) = Raised OverflowError)
       distMatrix.
Proof.
  revert sizeAvg prevProb.
  induction distMatrix as [|r rest IH]; intros sizeAvg prevProb; [done|].
  cbn [sizeAvgLoop].
  destruct (float_of_int (row_size r)) as [size|e0|] eqn:E;
    cbn [mbind result_bind].
  - intros H. apply IH in H as [-> H]. split; [done|]. by right.
  - intros [= <-]. pose proof (float_of_int_raises _ _ E) as ->.
    split; [done|]. by left.
  - done.
Qed.

Lemma sizeAvgLoop_fuel distMatrix sizeAvg prevProb :
  sizeAvgLoop distMatrix sizeAvg prevProb <> OutOfFuel.
Proof.
  revert sizeAvg prevProb.
  induction distMatrix as [|r rest IH]; intros sizeAvg prevProb; [done|].
  cbn [sizeAvgLoop].
  destruct (float_of_int (row_size r)) as [size|e0|] eqn:E;
    cbn [mbind result_bind]; [apply IH | done |].
  by apply float_of_int_fuel in E.
Qed.

Lemma run_idle steps rho distMatrix rand pois fuel sizeAvg :
  sizeAvgLoop distMatrix 0 0 = OK sizeAvg -> isPositive sizeAvg ->
  (rho <= 0)%Q -> (forall n, 0 <= rand n)%Q ->
  run steps rho distMatrix rand pois fuel ∅ freshStores = OK (∅, freshStores).
Proof.
  intros Havg Hpos Hrho Hr. unfold run, probPerSlotOf. rewrite Havg.
  cbn [mbind result_bind]. unfold float_div.
  assert (Hz : isZero sizeAvg = false).
  { destruct sizeAvg as [q| | |]; simpl in *; try done.
    destruct (Qeq_bool q 0) eqn:E; [|done]. apply Qeq_bool_iff in E.
    rewrite E in Hpos. by apply Qlt_irrefl in Hpos. }
  rewrite Hz. cbn [mbind result_bind].
  assert (Hp : notAbove (fdiv (round64 rho) sizeAvg)).
  { apply fdiv_nonpos; [by apply round64_nonpos | apply round64_not_NaN | done]. }
  destruct (idle_simple_for distMatrix _ rand pois steps Hp Hr)
    as (d1 & -> & Hs1 & Hi1 & Hm1).
  simpl. rewrite whileLoop_skip by (by apply idle_queues). simpl.
  destruct (idle_ideal_for pois steps (idealInit freshStores d1))
    as (e1 & -> & Hs2 & Hm2); [simpl; by rewrite Hs1 | done |].
  simpl. rewrite whileLoop_skip by (by apply idle_queues). simpl.
  by rewrite Hm2, Hs1, Hs2.
Qed.

(** ** Runs that raise nothing *)

Lemma drain_noraise scheduler fuel d e :
  (forall slot w, exists w', scheduler slot w = OK w') ->
  (queuesNonEmpty d = true -> is_Some (slotVar d)) ->
  whileLoop queuesNonEmpty (drainStep scheduler) fuel d <> Raised e.
Proof.
  intros Htot. revert d.
  induction fuel as [|fuel IH]; intros d Hsv; cbn [whileLoop].
  - by destruct (queuesNonEmpty d).
  - destruct (queuesNonEmpty d) eqn:Hq; [|done].
    destruct (Hsv eq_refl) as [slot Hslot].
    destruct (Htot (slot + 1) (sim d)) as [w Hw].
    assert (Hstep : drainStep scheduler d
                    = OK (MkDriver w (msgId d) (msgDict d) (nRand d)
                            (Some (slot + 1)))).
    { unfold drainStep. by rewrite Hslot, Hw. }
    rewrite Hstep. apply IH. simpl. eauto.
Qed.

Lemma simple_for_noraise distMatrix p rand pois n :
  (forall k, is_Some (generateMsgSize distMatrix (rand k))) ->
  exists d,
    forRange (simpleSlot distMatrix p rand pois) n (simpleInit ∅ freshStores)
    = OK d
    /\ (queuesNonEmpty d = true -> is_Some (slotVar d)).
Proof.
  intros Hgen. induction n as [|n (d & Hd & _)]; simpl.
  - eexists. split; [done|]. done.
  - rewrite Hd. simpl. unfold simpleSlot, simpleArrival.
    destruct (flt (rand (nRand d)) p).
    + destruct (Hgen (S (nRand d))) as [size ->]. simpl.
      destruct (simpleScheduler_total pois (Z.of_nat n)
                  (enqueueMsg (Msg (msgId d) size) (sim d))) as [w ->].
      simpl. eexists. split; [done|]. simpl. eauto.
    + simpl. destruct (simpleScheduler_total pois (Z.of_nat n) (sim d)) as [w ->].
      simpl. eexists. split; [done|]. simpl. eauto.
Qed.

Lemma ideal_for_slotVar pois n d0 :
  queuesNonEmpty d0 = false ->
  exists d, forRange (idealSlot pois) n d0 = OK d
    /\ (queuesNonEmpty d = true -> is_Some (slotVar d)).
Proof.
  intros H0. induction n as [|n (d & Hd & _)]; simpl.
  - exists d0. split; [done|]. by rewrite H0.
  - rewrite Hd. simpl.
    destruct (idealSlot_step pois n d) as (d' & Hd' & _).
    exists d'. split; [done|]. intros _.
    apply idealSlot_inv in Hd' as (w & _ & ->). simpl. eauto.
Qed.

Lemma run_noraise steps rho distMatrix rand pois fuel e p :
  probPerSlotOf rho distMatrix = OK p ->
  (forall n, is_Some (generateMsgSize distMatrix (rand n))) ->
  run steps rho distMatrix rand pois fuel ∅ freshStores <> Raised e.
Proof.
  intros Hp Hgen. unfold run. rewrite Hp. cbn [mbind result_bind].
  destruct (simple_for_noraise distMatrix p rand pois steps Hgen)
    as (d1 & -> & Hsv1).
  cbn [mbind result_bind].
  pose proof (drain_noraise (simpleScheduler pois) fuel d1 e
                (simpleScheduler_total pois) Hsv1) as Hd.
  destruct (whileLoop queuesNonEmpty (drainStep (simpleScheduler pois)) fuel d1)
    as [d2| |]; cbn [mbind result_bind]; [|intros [= ->]; by apply Hd|done].
  destruct (ideal_for_slotVar pois steps (idealInit freshStores d2))
    as (e1 & -> & Hsv2); [done|].
  cbn [mbind result_bind].
  pose proof (drain_noraise (idealScheduler pois) fuel e1 e
                (idealScheduler_total pois) Hsv2) as He.
  destruct (whileLoop queuesNonEmpty (drainStep (idealScheduler pois)) fuel e1);
    cbn [mbind result_bind]; [done|intros [= ->]; by apply He|done].
Qed.

Lemma sizeAvgLoop_converts distMatrix sizeAvg prevProb x :
  sizeAvgLoop distMatrix sizeAvg prevProb = OK x ->
  ~ Exists (fun r => float_of_int (row_size r) = Raised OverflowError)
      distMatrix.
Proof.
  revert sizeAvg prevProb.
  induction distMatrix as [|r rest IH]; intros sizeAvg prevProb E Hex;
    [by inversion Hex|].
  cbn [sizeAvgLoop] in E.
  destruct (float_of_int (row_size r)) as [size|e0|] eqn:Er;
    cbn [mbind result_bind] in E; [|done..].
  inversion Hex as [? ? Hr|? ? Hrest]; subst; [congruence|].
  by eapply IH.
Qed.

Lemma failsBeforeStart_iff rho distMatrix :
  failsBeforeStart rho distMatrix <->
  Exists (fun r => float_of_int (row_size r) = Raised OverflowError) distMatrix
  \/ exists sizeAvg,
       sizeAvgLoop distMatrix 0 0 = OK sizeAvg /\ isZero sizeAvg = true.
Proof.
  unfold failsBeforeStart, probPerSlotOf.
  destruct (sizeAvgLoop distMatrix 0 0) as [sizeAvg|e0|] eqn:E;
    cbn [mbind result_bind].
  - unfold float_div. destruct (isZero sizeAvg) eqn:Ez.
    + split; [|by eexists]. intros _. right. by exists sizeAvg.
    + split; [by intros [e He]|].
      intros [Hex|(a & [= <-] & Ha)]; [|congruence].
      by apply sizeAvgLoop_converts in E.
  - apply sizeAvgLoop_raises in E as [-> Hex]. split; [by left | by eexists].
  - by apply sizeAvgLoop_fuel in E.
Qed.

(** C5 (as the code has it): [run] validates nothing.  On a table of
    [[probability, size]] rows with integer sizes it fails before the
    simulation starts exactly when a size is too large for a float
    ([OverflowError] in the product) or the mean size, computed in float
    arithmetic, is zero, as for an empty table: the division
    [rho / sizeAvg] raises.  With [rho <= 0] and a mean size above zero it
    runs to completion and generates no message; and whatever the order of
    the cumulative probabilities, once the division has passed it raises
    nothing as long as every draw of the sampler finds a row. *)
Theorem config_not_validated :
  (forall rho distMatrix,
      failsBeforeStart rho distMatrix <->
      Exists (fun r => float_of_int (row_size r) = Raised OverflowError)
        distMatrix
      \/ exists sizeAvg,
           sizeAvgLoop distMatrix 0 0 = OK sizeAvg /\ isZero sizeAvg = true)
  /\ (forall steps rho distMatrix rand pois fuel msgDict0 pktOutTimes sizeAvg,
        sizeAvgLoop distMatrix 0 0 = OK sizeAvg -> isZero sizeAvg = true ->
        run steps rho distMatrix rand pois fuel msgDict0 pktOutTimes
        = Raised ZeroDivisionError)
  /\ (forall steps rho distMatrix rand pois fuel sizeAvg,
        sizeAvgLoop distMatrix 0 0 = OK sizeAvg -> isPositive sizeAvg ->
        (rho <= 0)%Q -> (forall n, 0 <= rand n)%Q ->
        run steps rho distMatrix rand pois fuel ∅ freshStores
        = OK (∅, freshStores))
  /\ (forall steps rho distMatrix rand pois fuel e p,
        probPerSlotOf rho distMatrix = OK p ->
        (forall n, is_Some (generateMsgSize distMatrix (rand n))) ->
        run steps rho distMatrix rand pois fuel ∅ freshStores <> Raised e).
Proof.
  split; [|split; [|split]].
  - apply failsBeforeStart_iff.
  - intros steps rho distMatrix rand pois fuel msgDict0 pktOutTimes sizeAvg
      Havg Hz.
    unfold run, probPerSlotOf, float_div. rewrite Havg.
    cbn [mbind result_bind]. by rewrite Hz.
  - apply run_idle.
  - apply run_noraise.
Qed.

Lemma exRand_nonneg n : (0 <= exRand n)%Q.
Proof. do 5 (destruct n as [|n]; [discriminate|]). discriminate. Qed.

Lemma config_not_validated_witness :
  run 3 1 [] exRand exPois 0 ∅ freshStores = Raised ZeroDivisionError
  /\ run 3 (-1#2) exTable exRand exPois 0 ∅ freshStores = OK (∅, freshStores).
Proof.
  split.
  - apply (proj1 (proj2 config_not_validated) 3%nat 1%Q [] exRand exPois 0%nat
             ∅ freshStores (Fin 0)); reflexivity.
  - apply (proj1 (proj2 (proj2 config_not_validated)) 3%nat (-1#2)%Q exTable
             exRand exPois 0%nat (Fin (3#2))).
    + vm_compute. reflexivity.
    + reflexivity.
    + discriminate.
    + apply exRand_nonneg.
Defined.

(** C5, the statement as the specification has it, fails.  With a negative
    [rho] nothing fails: [run] returns with no message generated.  With
    cumulative probabilities that decrease nothing fails either: the
    simulation runs and returns its records.  With a table that stops at
    1/2 the code before the loops passes, slot 0 is simulated with the
    [probPerSlot] it computed, and the fault comes in slot 1, in which the
    sampler finds no row. *)
Lemma invalid_config_runs :
  (~ failsBeforeStart (-1#2) exTable
   /\ run 3 (-1#2) exTable exRand exPois 0 ∅ freshStores = OK (∅, freshStores))
  /\ (~ failsBeforeStart (3#10) [Row 1 2; Row (1#2) 1]
      /\ exists r, run 2 (3#10) [Row 1 2; Row (1#2) 1] exRand exPois 10 ∅
                     freshStores = OK r /\ fst r !! 0 = Some (2, 0))
  /\ (~ failsBeforeStart (3#10) [Row (1#2) 1]
      /\ (exists p d,
            probPerSlotOf (3#10) [Row (1#2) 1] = OK p
            /\ forRange (simpleSlot [Row (1#2) 1] p exRandLate exPois) 1
                 (simpleInit ∅ freshStores) = OK d
            /\ msgDict d !! 0 = Some (1, 0))
      /\ run 2 (3#10) [Row (1#2) 1] exRandLate exPois 10 ∅ freshStores
         = Raised TypeError).
Proof.
  assert (Hno : forall rho distMatrix p,
            probPerSlotOf rho distMatrix = OK p ->
            ~ failsBeforeStart rho distMatrix).
  { intros rho distMatrix p Hp [e He]. rewrite Hp in He. discriminate. }
  split; [|split].
  - split; [by eapply Hno; vm_compute|]. vm_compute. reflexivity.
  - split; [by eapply Hno; vm_compute|].
    destruct (run 2 (3#10) [Row 1 2; Row (1#2) 1] exRand exPois 10 ∅ freshStores)
      as [r| |] eqn:E; [|vm_compute in E; discriminate..].
    exists r. split; [done|].
    vm_compute in E. inversion E; subst r. vm_compute. reflexivity.
  - split; [by eapply Hno; vm_compute|]. split; [|vm_compute; reflexivity].
    destruct (probPerSlotOf (3#10) [Row (1#2) 1]) as [p| |] eqn:Ep;
      [|vm_compute in Ep; discriminate..].
    exists p.
    destruct (forRange (simpleSlot [Row (1#2) 1] p exRandLate exPois) 1
                (simpleInit ∅ freshStores)) as [d| |] eqn:E;
      [|vm_compute in Ep; inversion Ep; subst p;
        vm_compute in E; discriminate..].
    exists d. split; [done|]. split; [done|].
    vm_compute in Ep. inversion Ep; subst p.
    vm_compute in E. inversion E; subst d. vm_compute. reflexivity.
Qed.

(** ** The run of zero steps *)

(** C4: the program never reaches its analyzer: whatever the options,
    [--slots 0] included, the first call [parser.adding(...)] raises
    [AttributeError], so nothing is reported.  The sweep itself, entered
    with [steps = 0], generates no message and leaves both stores empty, its
    aggregation compares zero messages, and the mean [penalty/numMsg] that it
    then computes divides by zero, on the first value of [rho]. *)
Theorem zero_steps_mean_faults (rand : nat -> Q) (pois : nat -> nat) (fuel : nat) :
  (forall steps distMatrix rands poiss,
      main steps distMatrix rands poiss fuel = Raised AttributeError)
  /\ run 0 (15#100) exTable rand pois fuel ∅ freshStores = OK (∅, freshStores)
  /\ aggregate ∅ freshStores (15#100) = OK aggInit
  /\ numMsg aggInit = 0
  /\ meanPenalty aggInit = Raised ZeroDivisionError
  /\ sweepStep 0 (15#100) exTable rand pois fuel = Raised ZeroDivisionError
  /\ (forall rands poiss,
        sweepLoop 0 exTable rands poiss fuel 0 sweepRhos
        = Raised ZeroDivisionError).
Proof.
  assert (Hrun : forall rho rand pois p,
            probPerSlotOf rho exTable = OK p ->
            run 0 rho exTable rand pois fuel ∅ freshStores
            = OK (∅, freshStores)).
  { intros. by eapply run_zero_steps. }
  assert (Hstep : forall rho rand pois p,
            probPerSlotOf rho exTable = OK p ->
            sweepStep 0 rho exTable rand pois fuel = Raised ZeroDivisionError).
  { intros rho' rand' pois' p Hp. unfold sweepStep. fold freshStores.
    by rewrite (Hrun _ _ _ _ Hp). }
  split; [done|].
  split; [by eapply Hrun; vm_compute|]. split; [reflexivity|].
  split; [reflexivity|]. split; [reflexivity|].
  split; [by eapply Hstep; vm_compute|].
  intros rands poiss. cbn [sweepRhos fmap list_fmap sweepLoop].
  assert (H0 : exists p,
            probPerSlotOf (float_value (round64 (15#100))) exTable = OK p)
    by (vm_compute; by eexists).
  destruct H0 as [p Hp].
  by rewrite (Hstep _ (rands 0%nat) (poiss 0%nat) p Hp).
Qed.

(** ** Records come after arrivals *)

Lemma knownBefore_mono msgDict b b' i :
  b <= b' -> knownBefore msgDict b i -> knownBefore msgDict b' i.
Proof. intros Hb (size & arr & Hl & Ha). exists size, arr. split; [done | lia]. Qed.

Lemma arrivalInv_pre msgDict s w : arrivalInv msgDict s w -> arrivalPre msgDict s w.
Proof.
  intros (Htx & Hdq & Hrx & Hout). split; [|split; [|split]]; try done.
  - intros m Hm. eapply knownBefore_mono; [|by apply Htx]. lia.
  - intros d Hd. split; [|intros _; by apply Hdq].
    eapply knownBefore_mono; [|by apply Hdq]. lia.
Qed.

Lemma arrivalPre_enqueue msgDict s w m :
  arrivalPre msgDict s w -> knownBefore msgDict (s + 1) (msg_id m) ->
  arrivalPre msgDict s (enqueueMsg m w).
Proof.
  intros (Htx & Hdq & Hrx & Hout) Hm. split; [|done]. simpl.
  intros m' Hm'. apply elem_of_sort_by, elem_of_app in Hm' as [Hm'|Hm'].
  - by apply Htx.
  - apply list_elem_of_singleton in Hm'. by subst.
Qed.

Lemma arrivalPre_inject msgDict s tx tx' rx dq out k k' id size prio sample :
  arrivalPre msgDict s (MkSim (MkScheduler tx rx dq) out k) ->
  knownBefore msgDict (s + 1) id ->
  (forall m, m ∈ tx' -> knownBefore msgDict (s + 1) (msg_id m)) ->
  arrivalPre msgDict s
    (MkSim (MkScheduler tx' rx
              (sort_by dp_delay
                 (dq ++ [DelayedPkt id size prio (Z.of_nat sample + fixedDelay)])))
       out k').
Proof.
  intros (Htx & Hdq & Hrx & Hout) Hid Htx'. simpl in *.
  split; [done|]. split; [|done]. simpl.
  intros d Hd. apply elem_of_sort_by, elem_of_app in Hd as [Hd|Hd].
  - by apply Hdq.
  - apply list_elem_of_singleton in Hd. subst d. simpl. split; [done|].
    intros H0. by apply fixedDelay_pos in H0.
Qed.

Lemma arrivalPre_simpleTransmit msgDict s pois w :
  arrivalPre msgDict s w -> arrivalPre msgDict s (simpleTransmit pois w).
Proof.
  intros Hpre. unfold simpleTransmit.
  destruct w as [[tx rx dq] out k]. simpl.
  destruct tx as [|h rest]; [done|]. cbn zeta.
  assert (Hh : knownBefore msgDict (s + 1) (msg_id h)).
  { destruct Hpre as (Htx & _). apply Htx. simpl. apply elem_of_cons. by left. }
  assert (Hrest : forall m, m ∈ rest -> knownBefore msgDict (s + 1) (msg_id m)).
  { destruct Hpre as (Htx & _). intros m Hm. apply Htx. simpl.
    apply elem_of_cons. by right. }
  case_decide; unfold addPktToDelayQueue; simpl;
    (eapply arrivalPre_inject; [exact Hpre | done |]).
  - done.
  - intros m Hm. apply elem_of_cons in Hm as [->|Hm]; [done | by apply Hrest].
Qed.

Lemma arrivalPre_idealLoop msgDict s pois todo done w w' :
  txQueue (sched w) = done ++ todo ->
  arrivalPre msgDict s w ->
  idealLoop pois todo done w = OK w' ->
  arrivalPre msgDict s w'.
Proof.
  intros Htx Hpre Hl.
  destruct (idealLoop_inv
    (fun done1 todo1 w1 =>
       txQueue (sched w1) = done1 ++ todo1 /\ arrivalPre msgDict s w1) pois)
    with (todo := todo) (done := done) (w := w) (w' := w')
    as [_ [_ H]]; try done.
  clear. intros m rest done0 w0 done' w1 [Htx Hpre] Hv.
  destruct (idealVisit_spec pois m rest done0 w0) as (done1 & E & Hcase).
  rewrite E in Hv. inversion Hv; subst done1 w1. clear Hv E.
  split; [done|].
  destruct w0 as [[tx rx dq] out k]. simpl in *. subst tx.
  assert (Hall : forall m', m' ∈ done0 ++ m :: rest ->
                   knownBefore msgDict (s + 1) (msg_id m')).
  { destruct Hpre as (H & _). exact H. }
  eapply arrivalPre_inject; [exact Hpre | |].
  - apply Hall. apply elem_of_app. right. apply elem_of_cons. by left.
  - intros m' Hm'. apply elem_of_app in Hm' as [Hm'|Hm'].
    + destruct Hcase as [(_ & Hperm & _)|(_ & ->)].
      * apply Hall. apply elem_of_app.
        assert (Hin : m' ∈ done0 ++ [m]).
        { rewrite Hperm. apply elem_of_cons. by right. }
        apply elem_of_app in Hin as [Hin|Hin]; [by left|].
        apply list_elem_of_singleton in Hin. subst. right.
        apply elem_of_cons. by left.
      * apply elem_of_app in Hm' as [Hm'|Hm'].
        -- apply Hall. apply elem_of_app. by left.
        -- apply list_elem_of_singleton in Hm'. subst m'. simpl.
           apply Hall. apply elem_of_app. right. apply elem_of_cons. by left.
    + apply Hall. apply elem_of_app. right. apply elem_of_cons. by right.
Qed.

Lemma outAfter_append msgDict out i size arr info :
  outAfter msgDict out ->
  msgDict !! i = Some (size, arr) -> arr < out_slot info ->
  outAfter msgDict (<[i := default [] (out !! i) ++ [info]]> out).
Proof.
  intros Hout Hi Ha j recs Hl. destruct (decide (i = j)) as [<-|Hne].
  - rewrite lookup_insert_eq in Hl. inversion Hl; subst. clear Hl.
    exists size, arr. split; [done|]. apply Forall_app. split.
    + destruct (out !! i) as [recs0|] eqn:E; simpl; [|constructor].
      destruct (Hout i recs0 E) as (size' & arr' & Hi' & Hf).
      rewrite Hi in Hi'. by inversion Hi'; subst.
    + by repeat constructor.
  - rewrite lookup_insert_ne in Hl by done. by apply Hout.
Qed.

Lemma arrivalInv_depleteAndRecord msgDict s w w' :
  arrivalPre msgDict s w -> depleteAndRecord s w = OK w' ->
  arrivalInv msgDict (s + 1) w'.
Proof.
  intros (Htx & Hdq & Hrx & Hout). rewrite depleteAndRecord_spec. intros [= <-].
  match goal with |- context [recordDeparture ?sl ?self ?out] =>
    pose proof (recordDeparture_sched sl self out) as Hs;
    pose proof (recordDeparture_store sl self out) as Ho;
    destruct (recordDeparture sl self out) as [self' out'] eqn:E
  end.
  simpl in *. subst self' out'.
  assert (Hrx' : forall p,
    p ∈ sort_by pkt_prio (rxQueue (sched w) ++ released (delayQueue (sched w))) ->
    knownBefore msgDict s (pkt_id p)).
  { intros p Hp. apply elem_of_sort_by, elem_of_app in Hp as [Hp|Hp].
    - by apply Hrx.
    - unfold released in Hp. apply list_elem_of_fmap in Hp as (d & -> & Hd).
      apply list_elem_of_filter in Hd as [H0 Hd]. simpl.
      by apply (Hdq d Hd). }
  split; [|split; [|split]]; simpl.
  - done.
  - intros d Hd. apply list_elem_of_fmap in Hd as (d0 & -> & Hd0).
    apply list_elem_of_filter in Hd0 as [_ Hd0]. simpl. by apply (Hdq d0 Hd0).
  - intros p Hp. eapply (knownBefore_mono _ s); [lia|]. apply Hrx'.
    destruct (sort_by pkt_prio _) as [|p0 rest]; simpl in *; [done|].
    apply elem_of_cons. by right.
  - destruct (sort_by pkt_prio _) as [|p0 rest] eqn:E'; [done|].
    destruct (Hrx' p0) as (size & arr & Hl & Ha);
      [apply elem_of_cons; by left|].
    by eapply outAfter_append.
Qed.

Lemma arrivalInv_simpleScheduler msgDict s pois w w' :
  arrivalPre msgDict s w -> simpleScheduler pois s w = OK w' ->
  arrivalInv msgDict (s + 1) w'.
Proof.
  unfold simpleScheduler. intros Hpre H.
  eapply arrivalInv_depleteAndRecord; [|exact H].
  by apply arrivalPre_simpleTransmit.
Qed.

Lemma arrivalInv_idealScheduler msgDict s pois w w' :
  arrivalPre msgDict s w -> idealScheduler pois s w = OK w' ->
  arrivalInv msgDict (s + 1) w'.
Proof.
  unfold idealScheduler, idealTransmit. intros Hpre H.
  apply bind_OK_inv in H as (w1 & H1 & H2).
  eapply arrivalInv_depleteAndRecord; [|exact H2].
  by eapply (arrivalPre_idealLoop _ _ _ _ [] w).
Qed.

Lemma arrivalInv_dict_mono (msgDict msgDict' : gmap Z (Z * Z)) n w :
  (forall i v, msgDict !! i = Some v -> msgDict' !! i = Some v) ->
  arrivalInv msgDict n w -> arrivalInv msgDict' n w.
Proof.
  intros Hsub (Htx & Hdq & Hrx & Hout).
  assert (Hk : forall b i, knownBefore msgDict b i -> knownBefore msgDict' b i).
  { intros b i (size & arr & Hl & Ha). exists size, arr. split; [|done].
    by apply Hsub. }
  split; [|split; [|split]]; try (intros; apply Hk; auto).
  intros i recs Hl. destruct (Hout i recs Hl) as (size & arr & Hi & Hf).
  exists size, arr. split; [by apply Hsub | done].
Qed.

Lemma arrivalPre_simpleEnqueue distMatrix probPerSlot rand k d arrival :
  arrivalInv (msgDict d) (Z.of_nat k) (sim d) -> dictBelow k d ->
  simpleArrival distMatrix probPerSlot rand d = OK arrival ->
  arrivalPre (msgDict (simpleEnqueue k d arrival)) (Z.of_nat k)
    (sim (simpleEnqueue k d arrival)).
Proof.
  intros Hinv [_ Hdict] Harr. destruct arrival as [m|]; simpl.
  - apply simpleArrival_Some in Harr.
    assert (Hfresh : msgDict d !! msgId d = None).
    { destruct (msgDict d !! msgId d) as [[size slot]|] eqn:E; [|done].
      destruct (Hdict _ _ _ E). lia. }
    apply arrivalPre_enqueue.
    + apply arrivalInv_pre. eapply arrivalInv_dict_mono; [|exact Hinv].
      intros i v Hi. rewrite lookup_insert_ne; [done|]. congruence.
    + exists (msg_size m), (Z.of_nat k). rewrite Harr, lookup_insert_eq.
      split; [done | lia].
  - by apply arrivalInv_pre.
Qed.

Lemma driverAt_simpleSlot distMatrix probPerSlot rand pois k d d' :
  driverAt (Z.of_nat k) d -> dictBelow k d ->
  simpleSlot distMatrix probPerSlot rand pois k d = OK d' ->
  driverAt (Z.of_nat (S k)) d'.
Proof.
  intros (Hinv & Hrec & _) Hdict Hs.
  apply simpleSlot_inv in Hs as (arrival & w & Ha & Hw & ->).
  replace (Z.of_nat (S k)) with (Z.of_nat k + 1) by lia.
  split; [|split]; simpl.
  - eapply arrivalInv_simpleScheduler; [|exact Hw].
    by eapply arrivalPre_simpleEnqueue.
  - eapply recordsBelow_appended; [|exact Hrec|].
    + lia.
    + apply simpleScheduler_appended in Hw. by destruct arrival.
  - intros _. f_equal. lia.
Qed.

Lemma driverAt_fresh msgDict0 mid np nr sv :
  driverAt 0 (MkDriver (MkSim freshScheduler ∅ np) mid msgDict0 nr sv).
Proof.
  split; [|split].
  - split; [|split; [|split]]; simpl.
    1-3: intros ? H; by apply elem_of_nil in H.
    intros i recs H. by rewrite lookup_empty in H.
  - intros i recs H. simpl in H. by rewrite lookup_empty in H.
  - done.
Qed.

Lemma driverAt_simple_for distMatrix probPerSlot rand pois n d :
  forRange (simpleSlot distMatrix probPerSlot rand pois) n
    (simpleInit ∅ freshStores) = OK d ->
  driverAt (Z.of_nat n) d.
Proof.
  intros H.
  cut (driverAt (Z.of_nat n) d /\ dictBelow n d); [by intros [? _]|].
  revert n d H.
  apply (forRange_inv (fun n d => driverAt (Z.of_nat n) d /\ dictBelow n d)).
  - split; [apply driverAt_fresh|].
    split; [done|]. intros i size slot H. simpl in H.
    by rewrite lookup_empty in H.
  - intros k s s' [Hat Hdict] Hb. split.
    + by eapply driverAt_simpleSlot.
    + by eapply dictBelow_slot.
Qed.

Lemma driverAt_drain scheduler :
  (forall msgDict s w w', arrivalPre msgDict s w -> scheduler s w = OK w' ->
     arrivalInv msgDict (s + 1) w') ->
  (forall slot w w', scheduler slot w = OK w' ->
     appended slot (pktOut w) (pktOut w')) ->
  forall k d0 d, (exists n, driverAt n d0) ->
    whilePrefix queuesNonEmpty (drainStep scheduler) k d0 = OK d ->
    exists n, driverAt n d.
Proof.
  intros Hinv Happ k d0 d H0 Hk.
  eapply (whilePrefix_inv (fun d => exists n, driverAt n d)); [|exact H0|exact Hk].
  intros s s' (n & Ha & Hr & Hslot) Hc Hb.
  apply drainStep_inv in Hb as (slot & w & Hsv & Hw & ->).
  rewrite Hslot in Hsv by done. inversion Hsv; subst slot.
  replace (n - 1 + 1) with n in * by lia.
  exists (n + 1). split; [|split]; simpl.
  - eapply Hinv; [|exact Hw]. by apply arrivalInv_pre.
  - eapply recordsBelow_appended; [|exact Hr|by apply Happ]. lia.
  - intros _. f_equal. lia.
Qed.

Lemma driverAt_idealSlot pois k d d' :
  driverAt (Z.of_nat k) d -> idealSlot pois k d = OK d' ->
  driverAt (Z.of_nat (S k)) d'.
Proof.
  intros (Hinv & Hrec & _) Hs.
  apply idealSlot_inv in Hs as (w & Hw & ->).
  replace (Z.of_nat (S k)) with (Z.of_nat k + 1) by lia.
  split; [|split]; simpl.
  - eapply arrivalInv_idealScheduler; [|exact Hw].
    destruct (idealArrival k d) as [m|] eqn:Harr; simpl.
    + apply idealArrival_Some in Harr as [Hid Hl].
      apply arrivalPre_enqueue; [by apply arrivalInv_pre|].
      exists (msg_size m), (Z.of_nat k). rewrite Hid. split; [done | lia].
    + by apply arrivalInv_pre.
  - eapply recordsBelow_appended; [|exact Hrec|].
    + lia.
    + apply idealScheduler_appended in Hw. by destruct (idealArrival k d).
  - intros _. f_equal. lia.
Qed.

Lemma driverAt_ideal_for pois n d2 d :
  forRange (idealSlot pois) n (idealInit freshStores d2) = OK d ->
  driverAt (Z.of_nat n) d.
Proof.
  revert n d. apply (forRange_inv (fun n d => driverAt (Z.of_nat n) d)).
  - apply driverAt_fresh.
  - intros k s s' Hat Hb. by eapply driverAt_idealSlot.
Qed.

(** ** The aggregation on what run returns *)

Lemma run_inv steps rho distMatrix rand pois fuel msgDict0 pktOutTimes r :
  run steps rho distMatrix rand pois fuel msgDict0 pktOutTimes = OK r ->
  exists p d1 d2 e1 e2,
    probPerSlotOf rho distMatrix = OK p
    /\ forRange (simpleSlot distMatrix p rand pois) steps
         (simpleInit msgDict0 pktOutTimes) = OK d1
    /\ whileLoop queuesNonEmpty (drainStep (simpleScheduler pois)) fuel d1 = OK d2
    /\ forRange (idealSlot pois) steps (idealInit pktOutTimes d2) = OK e1
    /\ whileLoop queuesNonEmpty (drainStep (idealScheduler pois)) fuel e1 = OK e2
    /\ r = (msgDict e2, MkStores (pktOut (sim d2)) (pktOut (sim e2))).
Proof.
  unfold run. intros H.
  apply bind_OK_inv in H as (p & Hp & H).
  apply bind_OK_inv in H as (d1 & Hd1 & H).
  apply bind_OK_inv in H as (d2 & Hd2 & H).
  apply bind_OK_inv in H as (e1 & He1 & H).
  apply bind_OK_inv in H as (e2 & He2 & H).
  exists p, d1, d2, e1, e2. by inversion H.
Qed.

Lemma completion_good msgDict n out key recs :
  outAfter msgDict out -> recordsBelow n out -> out !! key = Some recs ->
  exists size arr r,
    msgDict !! key = Some (size, arr) /\ last recs = Some r
    /\ msgCompletionTime msgDict key recs = OK (out_slot r - arr)
    /\ 0 < out_slot r - arr.
Proof.
  intros Hout Hrec Hl.
  destruct (Hout key recs Hl) as (size & arr & Hk & Hf).
  destruct (Hrec key recs Hl) as (Hne & Hs & _).
  destruct (last recs) as [r|] eqn:E.
  - exists size, arr, r. split; [done|]. split; [done|].
    split; [by eapply msgCompletionTime_last|].
    apply last_Some in E as [l' ->]. apply Forall_app in Hf as [_ Hf].
    inversion Hf; subst. lia.
  - apply last_None in E. done.
Qed.

Lemma aggLoop_total msgDict nS nI simple ideal rho entries a :
  outAfter msgDict simple -> recordsBelow nS simple ->
  outAfter msgDict ideal -> recordsBelow nI ideal ->
  (forall e, e ∈ entries -> simple !! e.1 = Some e.2) ->
  exists a', aggLoop ideal msgDict rho entries a = OK a'.
Proof.
  intros HoS HrS HoI HrI. revert a.
  induction entries as [|[key recsS] entries IH]; intros a He; [by eexists|].
  cbn [aggLoop].
  assert (Hstep : exists a', aggStep ideal msgDict rho a (key, recsS) = OK a').
  { unfold aggStep. destruct (ideal !! key) as [recsI|] eqn:Ei; [|by eexists].
    assert (HlS : simple !! key = Some recsS).
    { apply (He (key, recsS)). apply elem_of_cons. by left. }
    destruct (completion_good _ _ _ _ _ HoS HrS HlS)
      as (size & arr & rS & Hk & _ & -> & _).
    destruct (completion_good _ _ _ _ _ HoI HrI Ei)
      as (size' & arr' & rI & Hk' & _ & -> & Hpos).
    cbn [mbind result_bind]. unfold penaltyTerm.
    rewrite py_div_OK by (apply inject_Z_nonzero; lia).
    cbn [mbind result_bind]. rewrite Hk.
    destruct (default _ _) as [[total count] r]. by eexists. }
  destruct Hstep as [a' ->]. cbn [mbind result_bind]. apply IH.
  intros e Hin. apply He. apply elem_of_cons. by right.
Qed.

Lemma run_stores_good steps rho distMatrix rand pois fuel msgDict stores :
  run steps rho distMatrix rand pois fuel ∅ freshStores = OK (msgDict, stores) ->
  exists nS nI,
    outAfter msgDict (simpleStore stores)
    /\ recordsBelow nS (simpleStore stores)
    /\ outAfter msgDict (idealStore stores)
    /\ recordsBelow nI (idealStore stores).
Proof.
  intros H.
  apply run_inv in H as (p & d1 & d2 & e1 & e2 & _ & Hd1 & Hd2 & He1 & He2 & E).
  inversion E; subst msgDict stores. clear E. simpl.
  pose proof (drain_msgDict _ _ _ _ Hd2) as [Hm2 _].
  pose proof (drain_msgDict _ _ _ _ He2) as [Hm3 _].
  destruct (ideal_for_total pois steps (idealInit freshStores d2))
    as (e1' & He1' & Hm1).
  rewrite He1 in He1'. inversion He1'; subst e1'. simpl in Hm1.
  apply whileLoop_prefix in Hd2 as [Hd2 _].
  apply whileLoop_prefix in He2 as [He2 _].
  destruct (driverAt_drain (simpleScheduler pois)
              (fun D s w w' => arrivalInv_simpleScheduler D s pois w w')
              (simpleScheduler_appended pois) fuel d1 d2)
    as (nS & (_ & _ & _ & HoS) & HrS & _); [|done|].
  { eexists. by eapply driverAt_simple_for. }
  destruct (driverAt_drain (idealScheduler pois)
              (fun D s w w' => arrivalInv_idealScheduler D s pois w w')
              (idealScheduler_appended pois) fuel e1 e2)
    as (nI & (_ & _ & _ & HoI) & HrI & _); [|done|].
  { eexists. by eapply driverAt_ideal_for. }
  exists nS, nI. rewrite Hm3, Hm1. rewrite Hm3, Hm1 in HoI. done.
Qed.

Lemma exRun_result :
  run 2 (3#10) exTable exRand exPois 10 ∅ freshStores = OK (exMsgDict, exStores).
Proof. vm_compute. reflexivity. Defined.

(** ** Order of the queues along a run *)

Lemma simpleScheduler_sorted pois slot w :
  queuesSorted (sched w) ->
  exists w', simpleScheduler pois slot w = OK w' /\ queuesSorted (sched w').
Proof.
  intros (Htx & Hdq & Hrx). unfold simpleScheduler.
  apply depleteAndRecord_sorted.
  - by apply simpleTransmit_tx_sorted.
  - by apply simpleTransmit_dq_sorted.
Qed.

Lemma idealScheduler_sorted pois slot w :
  queuesSorted (sched w) ->
  exists w', idealScheduler pois slot w = OK w' /\ queuesSorted (sched w').
Proof.
  intros (Htx & Hdq & Hrx). unfold idealScheduler.
  destruct (idealTransmit_tx pois w Htx) as (w1 & H1 & H2).
  rewrite H1. simpl. apply depleteAndRecord_sorted.
  - rewrite H2. apply sortedBy_decrSize. by apply sortedBy_filter.
  - unfold idealTransmit in H1. by eapply idealLoop_dq_sorted.
Qed.

Lemma enqueueMsg_sorted newMsg w :
  queuesSorted (sched w) -> queuesSorted (sched (enqueueMsg newMsg w)).
Proof. intros (Htx & Hdq & Hrx). split; [|done]. apply sort_by_sorted. Qed.

Lemma queuesSorted_fresh : queuesSorted freshScheduler.
Proof. repeat split; constructor. Qed.

Lemma sorted_simpleSlot distMatrix probPerSlot rand pois slot d d' :
  queuesSorted (sched (sim d)) ->
  simpleSlot distMatrix probPerSlot rand pois slot d = OK d' ->
  queuesSorted (sched (sim d')).
Proof.
  intros Hs H. apply simpleSlot_inv in H as (arrival & w & _ & Hw & ->). simpl.
  destruct (simpleScheduler_sorted pois (Z.of_nat slot)
              (sim (simpleEnqueue slot d arrival))) as (w' & Hw' & Hsorted).
  { destruct arrival; simpl; [by apply enqueueMsg_sorted | done]. }
  rewrite Hw in Hw'. by inversion Hw'; subst.
Qed.

Lemma sorted_idealSlot pois slot d d' :
  queuesSorted (sched (sim d)) -> idealSlot pois slot d = OK d' ->
  queuesSorted (sched (sim d')).
Proof.
  intros Hs H. apply idealSlot_inv in H as (w & Hw & ->). simpl.
  destruct (idealScheduler_sorted pois (Z.of_nat slot)
              (sim (idealEnqueue slot d (idealArrival slot d))))
    as (w' & Hw' & Hsorted).
  { destruct (idealArrival slot d); simpl; [by apply enqueueMsg_sorted | done]. }
  rewrite Hw in Hw'. by inversion Hw'; subst.
Qed.

Lemma sorted_drain scheduler :
  (forall slot w, queuesSorted (sched w) ->
     exists w', scheduler slot w = OK w' /\ queuesSorted (sched w')) ->
  forall k d0 d, queuesSorted (sched (sim d0)) ->
    whilePrefix queuesNonEmpty (drainStep scheduler) k d0 = OK d ->
    queuesSorted (sched (sim d)).
Proof.
  intros Hsched k d0 d H0 Hk.
  eapply (whilePrefix_inv (fun d => queuesSorted (sched (sim d))));
    [|exact H0|exact Hk].
  intros s s' Hs _ Hb. apply drainStep_inv in Hb as (slot & w & _ & Hw & ->).
  simpl. destruct (Hsched (slot + 1) (sim s) Hs) as (w' & Hw' & Hsorted).
  rewrite Hw in Hw'. by inversion Hw'; subst.
Qed.

(** C8: every operation keeps the three queues in order: the transmit queue
    ascending by remaining size, the delay queue ascending by remaining
    delay, the receive queue ascending by priority.  In particular the
    transmit blocks of the two schedulers, which do not sort, keep the
    transmit queue in order: [simpleScheduler] decrements the head (and pops
    it at 0), [idealScheduler] drops the messages of size 1 and decrements
    all the others.  Hence the three queues are in order at every slot
    boundary of both phases of [run]. *)
Theorem queue_order_preserved :
  (forall newMsg w, queuesSorted (sched w) ->
      queuesSorted (sched (enqueueMsg newMsg w)))
  /\ (forall p sample self, queuesSorted self ->
        queuesSorted (addPktToDelayQueue p sample self))
  /\ (forall self, queuesSorted self ->
        exists self', depleteDelayQueue self = OK self' /\ queuesSorted self')
  /\ (forall slot self out, queuesSorted self ->
        queuesSorted (fst (recordDeparture slot self out)))
  /\ (forall pois w, sortedBy msg_size (txQueue (sched w)) ->
        sortedBy msg_size (txQueue (sched (simpleTransmit pois w))))
  /\ (forall pois w, sortedBy msg_size (txQueue (sched w)) ->
        exists w1, idealTransmit pois w = OK w1
          /\ txQueue (sched w1)
             = decrSize <$> filter (fun m => msg_size m <> 1)
                              (txQueue (sched w))
          /\ sortedBy msg_size (txQueue (sched w1)))
  /\ (forall pois slot w, queuesSorted (sched w) ->
        exists w', simpleScheduler pois slot w = OK w'
                   /\ queuesSorted (sched w'))
  /\ (forall pois slot w, queuesSorted (sched w) ->
        exists w', idealScheduler pois slot w = OK w'
                   /\ queuesSorted (sched w'))
  /\ (forall distMatrix probPerSlot rand pois steps d,
        simpleBoundary distMatrix probPerSlot rand pois steps d ->
        queuesSorted (sched (sim d)))
  /\ (forall pois steps d2 d, idealBoundary pois steps d2 d ->
        queuesSorted (sched (sim d))).
Proof.
  split; [apply enqueueMsg_sorted|].
  split.
  { intros p sample self (Htx & Hdq & Hrx).
    split; [done|]. split; [apply sort_by_sorted | done]. }
  split.
  { intros self (Htx & Hdq & Hrx).
    eexists. split; [apply depleteDelayQueue_spec|].
    split; [done|]. simpl. split.
    - apply sortedBy_decrDelay. by apply sortedBy_filter.
    - apply sort_by_sorted. }
  split.
  { intros slot self out (Htx & Hdq & Hrx). rewrite recordDeparture_sched.
    split; [done|]. split; [done|]. simpl.
    destruct (rxQueue self) as [|p rest]; [done|]. by apply sortedBy_tail in Hrx. }
  split; [apply simpleTransmit_tx_sorted|].
  split.
  { intros pois w Hs. destruct (idealTransmit_tx pois w Hs) as (w1 & H1 & H2).
    exists w1. split; [done|]. split; [done|]. rewrite H2.
    apply sortedBy_decrSize. by apply sortedBy_filter. }
  split; [apply simpleScheduler_sorted|].
  split; [apply idealScheduler_sorted|].
  split.
  - intros distMatrix probPerSlot rand pois steps d Hb.
    assert (Hfor : forall n d1,
      forRange (simpleSlot distMatrix probPerSlot rand pois) n
        (simpleInit ∅ freshStores) = OK d1 -> queuesSorted (sched (sim d1))).
    { apply (forRange_inv (fun _ d1 => queuesSorted (sched (sim d1)))).
      - apply queuesSorted_fresh.
      - intros k s s' Hs Hbody. by eapply sorted_simpleSlot. }
    destruct Hb as [(n & _ & Hn)|(d1 & k & H1 & Hk)]; [by eapply Hfor|].
    eapply sorted_drain; [|by eapply Hfor|exact Hk].
    apply simpleScheduler_sorted.
  - intros pois steps d2 d Hb.
    assert (Hfor : forall n d1,
      forRange (idealSlot pois) n (idealInit freshStores d2) = OK d1 ->
      queuesSorted (sched (sim d1))).
    { apply (forRange_inv (fun _ d1 => queuesSorted (sched (sim d1)))).
      - apply queuesSorted_fresh.
      - intros k s s' Hs Hbody. by eapply sorted_idealSlot. }
    destruct Hb as [(n & _ & Hn)|(e1 & k & H1 & Hk)]; [by eapply Hfor|].
    eapply sorted_drain; [|by eapply Hfor|exact Hk].
    apply idealScheduler_sorted.
Qed.

Lemma queue_order_preserved_witness :
  (exists w',
     idealScheduler (fun _ => 2%nat) 7
       (MkSim (MkScheduler [Msg 0 1; Msg 1 3] [Pkt 2 1 1]
                 [DelayedPkt 2 2 2 0; DelayedPkt 3 4 4 1]) ∅ 0) = OK w'
     /\ queuesSorted (sched w'))
  /\ queuesSorted (sched (sim exDrained)).
Proof.
  split.
  - apply (proj1 (proj2 (proj2 (proj2 (proj2 (proj2 (proj2 (proj2
             queue_order_preserved)))))))).
    unfold queuesSorted, sortedBy. simpl.
    split; [|split]; repeat constructor; simpl; lia.
  - apply (proj1 (proj2 (proj2 (proj2 (proj2 (proj2 (proj2 (proj2 (proj2
             queue_order_preserved))))))))
             exTable (1#5) exRand exPois 2%nat exDrained exDrained_boundary).
Defined.

(** * Further properties of the code *)

(** ** The sampler on an increasing table *)

Lemma probsIncreasing_le_all pre r rest u :
  probsIncreasing (pre ++ r :: rest) -> (row_prob r <= u)%Q ->
  Forall (fun r' => ~ (u < row_prob r')%Q) (pre ++ [r]).
Proof.
  intros Hs Hr. apply Forall_forall. intros r' Hin Hlt.
  apply (Qlt_irrefl u). eapply Qlt_le_trans; [exact Hlt|].
  apply elem_of_app in Hin as [Hin|Hin].
  - apply Qlt_le_weak. eapply Qlt_le_trans; [|exact Hr].
    apply (StronglySorted_app_1_elem_of _ _ _ r' r) in Hs; [done|done|].
    apply elem_of_cons. by left.
  - apply list_elem_of_singleton in Hin. by subst.
Qed.

(** X1: on a table whose cumulative probabilities increase, the sampler
    returns the size of row [i] exactly for the draws that lie between the
    cumulative probability of the row before (included) and that of row [i]
    (excluded); for the first row there is no lower bound. *)
Theorem generateMsgSize_bracket (distMatrix : list row) (u : Q) (s : Z) :
  probsIncreasing distMatrix ->
  (generateMsgSize distMatrix u = Some s <->
   exists pre r post,
     distMatrix = pre ++ r :: post /\ row_size r = s
     /\ (forall r', last pre = Some r' -> (row_prob r' <= u)%Q)
     /\ (u < row_prob r)%Q).
Proof.
  intros Hs. rewrite generateMsgSize_Some. split.
  - intros (pre & r & post & -> & Hpre & Hu & <-).
    exists pre, r, post. split; [done|]. split; [done|]. split; [|done].
    intros r' Hl. apply last_Some in Hl as [l' ->].
    apply Forall_app in Hpre as [_ Hr']. inversion Hr'; subst.
    by apply Qnot_lt_le.
  - intros (pre & r & post & -> & <- & Hlast & Hu).
    exists pre, r, post. split; [done|]. split; [|done].
    destruct (last pre) as [r'|] eqn:El.
    + pose proof El as El'. apply last_Some in El' as [l' ->].
      rewrite <- app_assoc in Hs.
      apply (probsIncreasing_le_all l' r' (r :: post) u); [done|].
      by apply Hlast.
    + apply last_None in El. subst pre. constructor.
Qed.

Lemma generateMsgSize_bracket_witness :
  generateMsgSize exTable (3#4) = Some 2.
Proof.
  apply (proj2 (generateMsgSize_bracket exTable (3#4) 2
                  ltac:(repeat constructor))).
  exists [Row (1#2) 1], (Row 1 2), []. split; [reflexivity|].
  split; [reflexivity|]. split.
  - intros r' [= <-]. discriminate.
  - reflexivity.
Defined.

(** ** The message table *)

Lemma tableWellFormed_slot distMatrix probPerSlot rand pois n d d' :
  tableWellFormed (Z.of_nat n) (msgId d) (msgDict d) ->
  simpleSlot distMatrix probPerSlot rand pois n d = OK d' ->
  tableWellFormed (Z.of_nat (S n)) (msgId d') (msgDict d').
Proof.
  intros (Hn & Hdom & Hslot & Hmono) Hs.
  apply simpleSlot_dict in Hs as (arrival & Ha & -> & ->).
  destruct arrival as [m|]; simpl.
  - assert (Hfresh : msgDict d !! msgId d = None).
    { destruct (msgDict d !! msgId d) eqn:E; [|done].
      assert (is_Some (msgDict d !! msgId d)) as Hi by eauto.
      apply Hdom in Hi. lia. }
    split; [lia|]. split; [|split].
    + intros i. destruct (decide (msgId d = i)) as [<-|Hne].
      * rewrite lookup_insert_eq. split; [lia | eauto].
      * rewrite lookup_insert_ne by done. rewrite Hdom. lia.
    + intros i size arr Hl. destruct (decide (msgId d = i)) as [<-|Hne].
      * rewrite lookup_insert_eq in Hl. inversion Hl; subst. lia.
      * rewrite lookup_insert_ne in Hl by done. apply Hslot in Hl. lia.
    + intros i j si ai sj aj Hi Hj Hij.
      destruct (decide (msgId d = j)) as [<-|Hnej].
      * rewrite lookup_insert_eq in Hj. inversion Hj; subst.
        rewrite lookup_insert_ne in Hi by lia. apply Hslot in Hi. lia.
      * rewrite lookup_insert_ne in Hj by done.
        destruct (decide (msgId d = i)) as [<-|Hnei].
        -- assert (is_Some (msgDict d !! j)) as Hjs by eauto.
           apply Hdom in Hjs. lia.
        -- rewrite lookup_insert_ne in Hi by done. by eapply Hmono.
  - split; [lia|]. split; [done|]. split; [|done].
    intros i size arr Hl. apply Hslot in Hl. lia.
Qed.

Lemma tableWellFormed_for distMatrix probPerSlot rand pois n d :
  forRange (simpleSlot distMatrix probPerSlot rand pois) n
    (simpleInit ∅ freshStores) = OK d ->
  tableWellFormed (Z.of_nat n) (msgId d) (msgDict d).
Proof.
  revert n d.
  apply (forRange_inv
           (fun n d => tableWellFormed (Z.of_nat n) (msgId d) (msgDict d))).
  - split; [done|]. split; [|split]; simpl.
    + intros i. rewrite lookup_empty. split; [by intros [? ?] | lia].
    + intros i size arr H. by rewrite lookup_empty in H.
    + intros i j si ai sj aj H. by rewrite lookup_empty in H.
  - intros k s s' Hs Hb. by eapply tableWellFormed_slot.
Qed.

(** X3: the message table that [run] fills has the ids 0, 1, ... without a
    gap, at most one message per slot: every arrival slot is a slot of the
    generating loop and the arrival slots increase strictly with the id.
    This holds after every iteration of the generating loop and for the
    table that [run] returns. *)
Theorem message_table_well_formed distMatrix rand pois steps :
  (forall probPerSlot n d,
      forRange (simpleSlot distMatrix probPerSlot rand pois) n
        (simpleInit ∅ freshStores) = OK d ->
      tableWellFormed (Z.of_nat n) (msgId d) (msgDict d))
  /\ (forall rho fuel msgDict stores,
        run steps rho distMatrix rand pois fuel ∅ freshStores
        = OK (msgDict, stores) ->
        exists next, tableWellFormed (Z.of_nat steps) next msgDict).
Proof.
  split; [intros; by eapply tableWellFormed_for|].
  intros rho fuel msgDict stores H.
  apply run_inv in H as (p & d1 & d2 & e1 & e2 & _ & Hd1 & Hd2 & He1 & He2 & E).
  inversion E; subst msgDict stores. clear E.
  pose proof (drain_msgDict _ _ _ _ Hd2) as [Hm2 _].
  pose proof (drain_msgDict _ _ _ _ He2) as [Hm3 _].
  destruct (ideal_for_total pois steps (idealInit freshStores d2))
    as (e1' & He1' & Hm1).
  rewrite He1 in He1'. inversion He1'; subst e1'. simpl in Hm1.
  exists (msgId d1). rewrite Hm3, Hm1, Hm2. by eapply tableWellFormed_for.
Qed.

Lemma message_table_well_formed_witness :
  exists next, tableWellFormed 2 next exMsgDict.
Proof.
  apply (proj2 (message_table_well_formed exTable exRand exPois 2)
           (3#10) 10%nat exMsgDict exStores exRun_result).
Defined.

(** ** Messages whose size is not positive *)

Lemma txQueue_depleteAndRecord slot w w' :
  depleteAndRecord slot w = OK w' -> txQueue (sched w') = txQueue (sched w).
Proof.
  rewrite depleteAndRecord_spec. intros [= <-].
  match goal with |- context [recordDeparture ?s ?self ?out] =>
    pose proof (recordDeparture_sched s self out) as Hs;
    destruct (recordDeparture s self out) as [self' out'] eqn:E
  end.
  simpl in *. by subst self'.
Qed.

Lemma stuck_simpleTransmit i pois w :
  stuck i (txQueue (sched w)) ->
  stuck i (txQueue (sched (simpleTransmit pois w))).
Proof.
  intros (m & Hm & Hid & Hsz). unfold simpleTransmit.
  destruct (txQueue (sched w)) as [|h rest] eqn:E; [by apply elem_of_nil in Hm|].
  cbn zeta. apply elem_of_cons in Hm as [->|Hm].
  - rewrite decide_False by (simpl; lia). simpl.
    exists (decrSize h). split; [apply elem_of_cons; by left|].
    simpl. split; [done | lia].
  - case_decide; simpl; exists m; (split; [|done]); [done|].
    apply elem_of_cons. by right.
Qed.

Lemma stuck_idealLoop i pois todo done w w' :
  txQueue (sched w) = done ++ todo ->
  stuck i (txQueue (sched w)) ->
  idealLoop pois todo done w = OK w' ->
  stuck i (txQueue (sched w')).
Proof.
  intros Htx Hst Hl.
  destruct (idealLoop_inv
    (fun done1 todo1 w1 =>
       txQueue (sched w1) = done1 ++ todo1 /\ stuck i (done1 ++ todo1)) pois)
    with (todo := todo) (done := done) (w := w) (w' := w')
    as [done' [E H]]; try done.
  - clear. intros m rest done0 w0 done' w1 [Htx (x & Hx & Hid & Hsz)] Hv.
    destruct (idealVisit_spec pois m rest done0 w0) as (done1 & E & Hcase).
    rewrite E in Hv. inversion Hv; subst done1 w1. clear Hv E.
    split; [done|].
    apply elem_of_app in Hx as [Hx|Hx].
    + destruct Hcase as [(H1 & Hperm & _)|(_ & ->)].
      * exists x. split; [|done]. apply elem_of_app. left.
        assert (Hin : x ∈ m :: done').
        { rewrite <- Hperm. apply elem_of_app. by left. }
        apply elem_of_cons in Hin as [->|Hin]; [lia | done].
      * exists x. split; [|done]. apply elem_of_app. left.
        apply elem_of_app. by left.
    + apply elem_of_cons in Hx as [->|Hx].
      * destruct Hcase as [(H1 & _)|(_ & ->)]; [lia|].
        exists (decrSize m). split; [|simpl; split; [done | lia]].
        apply elem_of_app. left. apply elem_of_app. right.
        by apply list_elem_of_singleton.
      * exists x. split; [|done]. apply elem_of_app. by right.
  - by rewrite <- Htx.
  - by rewrite E.
Qed.

Lemma stuck_simpleScheduler i pois slot w w' :
  stuck i (txQueue (sched w)) -> simpleScheduler pois slot w = OK w' ->
  stuck i (txQueue (sched w')).
Proof.
  unfold simpleScheduler. intros Hst H.
  rewrite (txQueue_depleteAndRecord _ _ _ H). by apply stuck_simpleTransmit.
Qed.

Lemma stuck_idealScheduler i pois slot w w' :
  stuck i (txQueue (sched w)) -> idealScheduler pois slot w = OK w' ->
  stuck i (txQueue (sched w')).
Proof.
  unfold idealScheduler, idealTransmit. intros Hst H.
  apply bind_OK_inv in H as (w1 & H1 & H2).
  rewrite (txQueue_depleteAndRecord _ _ _ H2).
  by eapply (stuck_idealLoop i pois _ [] w).
Qed.

Lemma stuck_queuesNonEmpty i d :
  stuck i (txQueue (sched (sim d))) -> queuesNonEmpty d = true.
Proof.
  intros (m & Hm & _). unfold queuesNonEmpty.
  destruct (txQueue (sched (sim d))); [by apply elem_of_nil in Hm | done].
Qed.

Lemma stuck_drain_out_of_fuel scheduler i fuel d :
  (forall slot w, exists w', scheduler slot w = OK w') ->
  (forall slot w w', stuck i (txQueue (sched w)) -> scheduler slot w = OK w' ->
     stuck i (txQueue (sched w'))) ->
  stuck i (txQueue (sched (sim d))) -> is_Some (slotVar d) ->
  whileLoop queuesNonEmpty (drainStep scheduler) fuel d = OutOfFuel.
Proof.
  intros Htot Hkeep. revert d.
  induction fuel as [|fuel IH]; intros d Hst [slot Hslot]; cbn [whileLoop];
    rewrite (stuck_queuesNonEmpty i d Hst); [done|].
  destruct (Htot (slot + 1) (sim d)) as [w Hw].
  assert (Hstep : drainStep scheduler d
                  = OK (MkDriver w (msgId d) (msgDict d) (nRand d)
                          (Some (slot + 1)))).
  { unfold drainStep. by rewrite Hslot, Hw. }
  rewrite Hstep. cbn [mbind result_bind]. apply IH; simpl; [|eauto].
  by eapply Hkeep.
Qed.

(** X4: a message whose size is not positive is never completed: the
    schedulers keep decrementing it and never take it out of the transmit
    queue, so a drain loop that starts with such a message in the transmit
    queue does not end, whatever the number of iterations allowed. *)
Theorem nonpositive_size_never_drains (pois : nat -> nat) (fuel : nat)
    (d : Driver) (m : msg) :
  m ∈ txQueue (sched (sim d)) -> msg_size m <= 0 -> is_Some (slotVar d) ->
  whileLoop queuesNonEmpty (drainStep (simpleScheduler pois)) fuel d = OutOfFuel
  /\ whileLoop queuesNonEmpty (drainStep (idealScheduler pois)) fuel d = OutOfFuel.
Proof.
  intros Hm Hsz Hslot.
  assert (Hst : stuck (msg_id m) (txQueue (sched (sim d)))) by (by exists m).
  split.
  - apply (stuck_drain_out_of_fuel _ (msg_id m)); try done.
    + apply simpleScheduler_total.
    + intros slot w w'. apply stuck_simpleScheduler.
  - apply (stuck_drain_out_of_fuel _ (msg_id m)); try done.
    + apply idealScheduler_total.
    + intros slot w w'. apply stuck_idealScheduler.
Qed.

Lemma nonpositive_size_never_drains_witness :
  whileLoop queuesNonEmpty (drainStep (simpleScheduler exPois)) 1000
    (MkDriver (MkSim (MkScheduler [Msg 0 0] [] []) ∅ 0) 1 {[ 0 := (0, 0) ]} 2
       (Some 0)) = OutOfFuel.
Proof.
  refine (proj1 (nonpositive_size_never_drains exPois 1000 _ (Msg 0 0) _ _ _)).
  - apply elem_of_cons. by left.
  - simpl. lia.
  - simpl. eauto.
Defined.

(** ** Every packet of every message departs *)

Lemma queuesNonEmpty_false d :
  queuesNonEmpty d = false ->
  txQueue (sched (sim d)) = [] /\ rxQueue (sched (sim d)) = []
  /\ delayQueue (sched (sim d)) = [].
Proof.
  unfold queuesNonEmpty.
  destruct (txQueue (sched (sim d))), (rxQueue (sched (sim d))),
    (delayQueue (sched (sim d))); simpl; try done.
Qed.

Lemma mass_queues_empty i d :
  queuesNonEmpty d = false -> mass i (sim d) = outCount i (pktOut (sim d)).
Proof.
  intros H. apply queuesNonEmpty_false in H as (Htx & Hrx & Hdq).
  unfold mass. rewrite Htx, Hrx, Hdq. unfold txMass, dqCount, rxCount. simpl. lia.
Qed.

Lemma stuck_enqueueMsg i newMsg w :
  stuck i (txQueue (sched w)) -> stuck i (txQueue (sched (enqueueMsg newMsg w))).
Proof.
  intros (m & Hm & Hrest). exists m. split; [|done]. simpl.
  apply elem_of_sort_by, elem_of_app. by left.
Qed.

Lemma nonPositiveStuck_slot distMatrix probPerSlot rand pois n d d' :
  dictBelow n d -> nonPositiveStuck d ->
  simpleSlot distMatrix probPerSlot rand pois n d = OK d' ->
  nonPositiveStuck d'.
Proof.
  intros [_ Hdict] Hst Hs.
  apply simpleSlot_inv in Hs as (arrival & w & Ha & Hw & ->).
  intros i size arr Hl Hsz. simpl in *.
  eapply stuck_simpleScheduler; [|exact Hw].
  destruct arrival as [m|]; simpl in *; [|by eapply Hst].
  apply simpleArrival_Some in Ha.
  destruct (decide (msgId d = i)) as [<-|Hne].
  - rewrite lookup_insert_eq in Hl. inversion Hl; subst.
    exists m. split; [|done]. simpl. apply elem_of_sort_by, elem_of_app. right.
    by apply list_elem_of_singleton.
  - rewrite lookup_insert_ne in Hl by done.
    apply stuck_enqueueMsg. by eapply Hst.
Qed.

Lemma simple_phase_end distMatrix probPerSlot rand pois steps fuel d1 d2 :
  forRange (simpleSlot distMatrix probPerSlot rand pois) steps
    (simpleInit ∅ freshStores) = OK d1 ->
  whileLoop queuesNonEmpty (drainStep (simpleScheduler pois)) fuel d1 = OK d2 ->
  massInvSimple d2 /\ nonPositiveStuck d2 /\ queuesNonEmpty d2 = false.
Proof.
  intros Hd1 Hd2. apply whileLoop_prefix in Hd2 as [Hd2 Hq].
  assert (Hfor : forall n d,
    forRange (simpleSlot distMatrix probPerSlot rand pois) n
      (simpleInit ∅ freshStores) = OK d ->
    massInvSimple d /\ nonPositiveStuck d /\ dictBelow n d).
  { apply (forRange_inv
      (fun n d => massInvSimple d /\ nonPositiveStuck d /\ dictBelow n d)).
    - split; [apply massInvSimple_init|]. split.
      + intros i size arr H. simpl in H. by rewrite lookup_empty in H.
      + split; [done|]. intros i size slot H. simpl in H.
        by rewrite lookup_empty in H.
    - intros k s s' (Hm & Hst & Hdb) Hb. split; [by eapply massInvSimple_slot|].
      split; [by eapply nonPositiveStuck_slot | by eapply dictBelow_slot]. }
  destruct (Hfor steps d1 Hd1) as (Hm1 & Hst1 & _).
  cut (massInvSimple d2 /\ nonPositiveStuck d2); [by intros [? ?]|].
  eapply (whilePrefix_inv (fun d => massInvSimple d /\ nonPositiveStuck d));
    [|split; [exact Hm1 | exact Hst1]|exact Hd2].
  intros s s' [Hm Hst] _ Hb. split; [by eapply massInvSimple_drain|].
  apply drainStep_inv in Hb as (slot & w & _ & Hw & ->).
  intros i size arr Hl Hsz. simpl in *.
  eapply stuck_simpleScheduler; [|exact Hw]. by eapply Hst.
Qed.

Lemma ideal_phase_end pois steps fuel d2 e1 e2 :
  forRange (idealSlot pois) steps (idealInit freshStores d2) = OK e1 ->
  whileLoop queuesNonEmpty (drainStep (idealScheduler pois)) fuel e1 = OK e2 ->
  massInvIdeal e2 /\ queuesNonEmpty e2 = false.
Proof.
  intros He1 He2. apply whileLoop_prefix in He2 as [He2 Hq]. split; [|done].
  assert (Hfor : forall n e,
    forRange (idealSlot pois) n (idealInit freshStores d2) = OK e ->
    massInvIdeal e).
  { apply (forRange_inv (fun _ => massInvIdeal)).
    - apply massInvIdeal_init.
    - intros k s s' Hs Hb. by destruct (massInvIdeal_slot _ _ _ _ Hs Hb). }
  eapply (whilePrefix_inv massInvIdeal); [|exact (Hfor steps e1 He1)|exact He2].
  intros s s' Hs _ Hb. by destruct (massInvIdeal_drain _ _ _ Hs Hb).
Qed.

Lemma run_counts steps rho distMatrix rand pois fuel msgDict stores :
  run steps rho distMatrix rand pois fuel ∅ freshStores = OK (msgDict, stores) ->
  forall i size arr, msgDict !! i = Some (size, arr) ->
    1 <= size
    /\ outCount i (simpleStore stores) = size
    /\ outCount i (idealStore stores) = size.
Proof.
  intros H i size arr Hl.
  apply run_inv in H as (p & d1 & d2 & e1 & e2 & _ & Hd1 & Hd2 & He1 & He2 & E).
  inversion E; subst msgDict stores. clear E. simpl.
  pose proof (drain_msgDict _ _ _ _ Hd2) as [Hm2 Hi2].
  pose proof (drain_msgDict _ _ _ _ He2) as [Hm3 Hi3].
  destruct (lockstep _ _ _ pois _ _ d2 steps Hd1 Hm2)
    as (sS & eS & HsS & HeS & Hm1 & Hid1); [lia|].
  rewrite Hd1 in HsS. inversion HsS; subst sS.
  rewrite He1 in HeS. inversion HeS; subst eS.
  rewrite Hm3, Hm1 in Hl.
  destruct (simple_phase_end _ _ _ _ _ _ _ _ Hd1 Hd2) as ([_ HmS] & Hst & HqS).
  destruct (ideal_phase_end _ _ _ _ _ _ He1 He2) as ((_ & _ & HmI) & HqI).
  pose proof (dictBelow_for _ _ _ _ _ _ Hd1) as [_ Hdb].
  destruct (Hdb i size arr Hl) as [Hi _].
  assert (HoS : outCount i (pktOut (sim d2)) = size).
  { rewrite <- (mass_queues_empty i d2 HqS).
    apply (HmS i size arr). by rewrite Hm2. }
  assert (HoI : outCount i (pktOut (sim e2)) = size).
  { rewrite <- (mass_queues_empty i e2 HqI).
    apply (HmI i size arr); [lia|]. by rewrite Hm3, Hm1. }
  split; [|done].
  destruct (decide (1 <= size)) as [|Hn]; [done|]. exfalso.
  destruct (Hst i size arr) as (m & Hm & _); [by rewrite Hm2 | lia |].
  apply queuesNonEmpty_false in HqS as (Htx & _). rewrite Htx in Hm.
  by apply elem_of_nil in Hm.
Qed.

(** X5: when [run] returns, every message of the message table has a
    positive size and exactly as many departure records as its size in the
    store of each scheduler; so every message is in both stores and none is
    left out of the penalty aggregation. *)
Theorem run_records_complete steps rho distMatrix rand pois fuel msgDict stores :
  run steps rho distMatrix rand pois fuel ∅ freshStores = OK (msgDict, stores) ->
  forall i size arr, msgDict !! i = Some (size, arr) ->
    1 <= size
    /\ outCount i (simpleStore stores) = size
    /\ outCount i (idealStore stores) = size
    /\ is_Some (simpleStore stores !! i)
    /\ is_Some (idealStore stores !! i).
Proof.
  intros H i size arr Hl.
  destruct (run_counts _ _ _ _ _ _ _ _ H i size arr Hl) as (Hpos & HoS & HoI).
  split; [done|]. split; [done|]. split; [done|].
  unfold outCount in HoS, HoI. split.
  - destruct (simpleStore stores !! i); [eauto | simpl in HoS; lia].
  - destruct (idealStore stores !! i); [eauto | simpl in HoI; lia].
Qed.

Lemma run_records_complete_witness :
  1 <= 2
  /\ outCount 0 (simpleStore exStores) = 2
  /\ outCount 0 (idealStore exStores) = 2
  /\ is_Some (simpleStore exStores !! 0)
  /\ is_Some (idealStore exStores !! 0).
Proof.
  apply (run_records_complete 2 (3#10) exTable exRand exPois 10 exMsgDict
           exStores exRun_result 0 2 0).
  vm_compute. reflexivity.
Defined.

(** ** The drain loops end *)

Lemma dqSpan_nonneg w : 0 <= dqSpan w.
Proof.
  unfold dqSpan. induction (delayQueue (sched w)) as [|d dq IH]; simpl; lia.
Qed.

Lemma dqSpan_pos w : delayQueue (sched w) <> [] -> drainable w -> 1 <= dqSpan w.
Proof.
  unfold dqSpan. intros Hne [_ Hd].
  destruct (delayQueue (sched w)) as [|d dq]; [done|]. simpl.
  inversion Hd; subst. lia.
Qed.

Lemma span_deplete dq :
  Forall (fun d => 0 <= dp_delay d) dq ->
  Forall (fun d => 0 <= dp_delay d) (decrDelay <$> inFlight dq)
  /\ foldr (fun d acc => Z.max (dp_delay d + 1) acc) 0 (decrDelay <$> inFlight dq)
     <= Z.max 0 (foldr (fun d acc => Z.max (dp_delay d + 1) acc) 0 dq - 1).
Proof.
  unfold inFlight. induction 1 as [|d dq Hd Hdq [IH1 IH2]]; simpl.
  - split; [constructor | lia].
  - rewrite filter_cons. destruct (decide (dp_delay d <> 0)) as [Hnz|Hz].
    + rewrite fmap_cons. simpl. split; [constructor; [simpl; lia | done]|]. lia.
    + split; [done|]. lia.
Qed.

Lemma txTotal_nonneg w : drainable w -> 0 <= txTotal w.
Proof.
  unfold txTotal. intros [Ht _].
  induction Ht as [|m tx Hm Htx IH]; [done|]. rewrite wsum_cons. lia.
Qed.

Lemma txTotal_pos w :
  drainable w -> txQueue (sched w) <> [] -> 1 <= txTotal w.
Proof.
  unfold txTotal. intros [Ht _] Hne.
  destruct Ht as [|m tx Hm Htx]; [done|]. rewrite wsum_cons.
  assert (0 <= wsum msg_size tx); [|lia].
  clear -Htx. induction Htx as [|m' tx Hm' Htx IH]; [done|].
  rewrite wsum_cons. lia.
Qed.

Lemma progresses_depleteAndRecord slot w0 w :
  drainable w ->
  (txQueue (sched w0) <> [] -> txTotal w < txTotal w0) ->
  (txQueue (sched w0) = [] -> sched w = sched w0) ->
  exists w', depleteAndRecord slot w = OK w' /\ progresses w0 w'.
Proof.
  intros Hdr Hlt Hsame. eexists. split; [apply depleteAndRecord_spec|].
  match goal with |- context [recordDeparture ?s ?self ?out] =>
    pose proof (recordDeparture_sched s self out) as Hs;
    destruct (recordDeparture s self out) as [self' out'] eqn:E
  end.
  simpl in Hs. subst self'. clear E.
  pose proof Hdr as [Htx Hdq].
  destruct (span_deplete _ Hdq) as [Hd' Hspan].
  split; [split; done|]. split.
  - intros Hne. unfold txTotal in *. simpl. by apply Hlt.
  - intros Hemp. specialize (Hsame Hemp).
    pose proof (dqSpan_pos w) as Hpos. unfold dqSpan in Hpos.
    destruct w as [sw ow kw]. simpl in *. subst sw.
    split; [done|]. split.
    + intros Hne. specialize (Hpos Hne Hdr). unfold dqSpan. simpl. lia.
    + intros Hdqe. rewrite Hdqe. split; [done|].
      unfold released. simpl. rewrite app_nil_r.
      pose proof (sort_by_length pkt_prio (rxQueue (sched w0))) as Hlen.
      destruct (sort_by pkt_prio (rxQueue (sched w0))) as [|p rest];
        simpl in *; lia.
Qed.

Lemma progresses_simpleScheduler pois slot w :
  drainable w ->
  exists w', simpleScheduler pois slot w = OK w' /\ progresses w w'.
Proof.
  intros [Htx Hdq]. unfold simpleScheduler.
  apply progresses_depleteAndRecord.
  - unfold simpleTransmit. destruct (txQueue (sched w)) as [|h rest] eqn:E;
      [split; [by rewrite E | done]|].
    inversion Htx as [|? ? Hh Hrest]; subst. cbn zeta.
    assert (Hdq' : Forall (fun d => 0 <= dp_delay d)
      (sort_by dp_delay
         (delayQueue (sched w)
          ++ [DelayedPkt (msg_id h) (msg_size h) 0
                (Z.of_nat (pois (nPois w)) + fixedDelay)]))).
    { rewrite sort_by_perm. apply Forall_app. split; [done|].
      constructor; [|constructor]. simpl. unfold fixedDelay. lia. }
    case_decide as H0; split; simpl; try done.
    constructor; [simpl in *; lia | done].
  - intros Hne. unfold simpleTransmit, txTotal.
    destruct (txQueue (sched w)) as [|h rest] eqn:E; [done|]. cbn zeta.
    case_decide as H0; simpl in *; rewrite ?wsum_cons; simpl; lia.
  - intros Hemp. unfold simpleTransmit. by rewrite Hemp.
Qed.

Lemma idealLoop_total_size pois todo done w w' :
  txQueue (sched w) = done ++ todo ->
  Forall (fun m => 1 <= msg_size m) (done ++ todo) ->
  Forall (fun d => 0 <= dp_delay d) (delayQueue (sched w)) ->
  idealLoop pois todo done w = OK w' ->
  drainable w' /\ txTotal w' + Z.of_nat (length todo) = txTotal w.
Proof.
  revert done w. induction todo as [|m rest IH]; intros done w Htx Hpos Hdq Hl.
  - simpl in Hl. inversion Hl; subst. split; [|simpl; lia].
    split; [by rewrite Htx | done].
  - simpl in Hl.
    destruct (idealVisit_spec pois m rest done w) as (done' & E & Hcase).
    rewrite E in Hl. cbn [mbind result_bind] in Hl.
    apply Forall_app in Hpos as [Hp1 Hp2].
    inversion Hp2 as [|? ? Hm Hrest]; subst.
    assert (Hdone' : Forall (fun m0 => 1 <= msg_size m0) done'
                     /\ wsum msg_size done' + 1
                        = wsum msg_size done + msg_size m).
    { destruct Hcase as [(H1 & Hperm & _)|(H1 & ->)].
      - assert (Hall : Forall (fun m0 => 1 <= msg_size m0) (m :: done')).
        { rewrite <- Hperm. apply Forall_app. split; [done|]. by constructor. }
        split; [by inversion Hall|].
        assert (Hw := wsum_perm msg_size _ _ Hperm).
        rewrite wsum_app, wsum_cons in Hw. simpl in Hw. lia.
      - split.
        + apply Forall_app. split; [done|].
          constructor; [simpl; lia | constructor].
        + rewrite wsum_app. simpl. lia. }
    destruct Hdone' as [Hd1 Hd2].
    apply IH in Hl.
    + destruct Hl as [Hdr Htot]. split; [done|].
      unfold txTotal in *. simpl in Htot. rewrite Htx.
      rewrite !wsum_app in *. rewrite wsum_cons.
      change (length (m :: rest)) with (S (length rest)). lia.
    + done.
    + apply Forall_app. by split.
    + simpl. rewrite sort_by_perm. apply Forall_app. split; [done|].
      constructor; [|constructor]. simpl. unfold fixedDelay. lia.
Qed.

Lemma progresses_idealScheduler pois slot w :
  drainable w ->
  exists w', idealScheduler pois slot w = OK w' /\ progresses w w'.
Proof.
  intros [Htx Hdq]. unfold idealScheduler, idealTransmit.
  destruct (idealLoop_total pois (txQueue (sched w)) [] w) as [w1 Hw1].
  rewrite Hw1. cbn [mbind result_bind].
  destruct (idealLoop_total_size pois (txQueue (sched w)) [] w w1)
    as [Hdr Htot]; try done.
  apply progresses_depleteAndRecord; [done| |].
  - intros Hne. destruct (txQueue (sched w)); [done|]. simpl in Htot. lia.
  - intros Hemp. rewrite Hemp in Hw1. simpl in Hw1. by inversion Hw1.
Qed.

Lemma whileLoop_more {S} (cond : S -> bool) (body : S -> result S)
    fuel fuel' s0 s :
  whileLoop cond body fuel s0 = OK s -> (fuel <= fuel')%nat ->
  whileLoop cond body fuel' s0 = OK s.
Proof.
  revert fuel' s0. induction fuel as [|f IH]; intros fuel' s0 Hs Hle.
  - simpl in Hs. destruct (cond s0) eqn:Hc; [done|].
    inversion Hs; subst. by apply whileLoop_skip.
  - destruct fuel' as [|f']; [lia|]. cbn [whileLoop] in *.
    destruct (cond s0); [|done].
    apply bind_OK_inv in Hs as (s' & Hb & Hs). rewrite Hb.
    cbn [mbind result_bind]. apply IH; [done|lia].
Qed.

Section drain_ends.
Variable scheduler : Z -> Sim -> result Sim.
Hypothesis scheduler_progresses :
  forall slot w, drainable w ->
    exists w', scheduler slot w = OK w' /\ progresses w w'.

Lemma drain_step d :
  drainable (sim d) ->
  (queuesNonEmpty d = true -> is_Some (slotVar d)) ->
  (forall d',
     queuesNonEmpty d = true ->
     drainable (sim d') -> is_Some (slotVar d') ->
     progresses (sim d) (sim d') ->
     exists fuel d'',
       whileLoop queuesNonEmpty (drainStep scheduler) fuel d' = OK d'') ->
  exists fuel d'',
    whileLoop queuesNonEmpty (drainStep scheduler) fuel d = OK d''.
Proof.
  intros Hdr Hsv Hnext. destruct (queuesNonEmpty d) eqn:Hq.
  - destruct (Hsv eq_refl) as [slot Hslot].
    destruct (scheduler_progresses (slot + 1) (sim d) Hdr) as (w' & Hw & Hp).
    assert (Hstep : drainStep scheduler d
                    = OK (MkDriver w' (msgId d) (msgDict d) (nRand d)
                            (Some (slot + 1)))).
    { unfold drainStep. by rewrite Hslot, Hw. }
    destruct (Hnext (MkDriver w' (msgId d) (msgDict d) (nRand d)
                       (Some (slot + 1))))
      as (fuel & d'' & Hd''); [done | apply Hp | by eexists | done |].
    exists (Datatypes.S fuel), d''. cbn [whileLoop].
    rewrite Hq, Hstep. by cbn [mbind result_bind].
  - exists 0%nat, d. by apply whileLoop_skip.
Qed.

Lemma drain_ends_rx c d :
  drainable (sim d) ->
  (queuesNonEmpty d = true -> is_Some (slotVar d)) ->
  txQueue (sched (sim d)) = [] -> delayQueue (sched (sim d)) = [] ->
  (length (rxQueue (sched (sim d))) <= c)%nat ->
  exists fuel d',
    whileLoop queuesNonEmpty (drainStep scheduler) fuel d = OK d'.
Proof.
  revert d. induction c as [|c IH]; intros d Hdr Hsv Htx Hdq Hlen.
  - exists 0%nat, d. apply whileLoop_skip. unfold queuesNonEmpty.
    rewrite Htx, Hdq.
    destruct (rxQueue (sched (sim d))); [done | simpl in Hlen; lia].
  - apply drain_step; [done..|].
    intros d' _ Hdr' Hsv' (_ & _ & Hp).
    destruct (Hp Htx) as (Htx' & _ & Hp2).
    destruct (Hp2 Hdq) as (Hdq' & Hlen').
    apply IH; [done | done | done | done | lia].
Qed.

Lemma drain_ends_dq b d :
  drainable (sim d) ->
  (queuesNonEmpty d = true -> is_Some (slotVar d)) ->
  txQueue (sched (sim d)) = [] ->
  dqSpan (sim d) <= Z.of_nat b ->
  exists fuel d',
    whileLoop queuesNonEmpty (drainStep scheduler) fuel d = OK d'.
Proof.
  revert d. induction b as [|b IH]; intros d Hdr Hsv Htx Hspan;
    destruct (decide (delayQueue (sched (sim d)) = [])) as [Hdq|Hdq];
    try by eapply drain_ends_rx.
  - pose proof (dqSpan_pos _ Hdq Hdr). lia.
  - apply drain_step; [done..|].
    intros d' _ Hdr' Hsv' (_ & _ & Hp).
    destruct (Hp Htx) as (Htx' & Hp1 & _). specialize (Hp1 Hdq).
    apply IH; [done | done | done | lia].
Qed.

Lemma drain_ends_tx a d :
  drainable (sim d) ->
  (queuesNonEmpty d = true -> is_Some (slotVar d)) ->
  txTotal (sim d) <= Z.of_nat a ->
  exists fuel d',
    whileLoop queuesNonEmpty (drainStep scheduler) fuel d = OK d'.
Proof.
  revert d. induction a as [|a IH]; intros d Hdr Hsv Htot;
    destruct (decide (txQueue (sched (sim d)) = [])) as [Htx|Htx];
    try (apply (drain_ends_dq (Z.to_nat (dqSpan (sim d)))); [done..|];
         pose proof (dqSpan_nonneg (sim d)); lia).
  - pose proof (txTotal_pos _ Hdr Htx). lia.
  - apply drain_step; [done..|].
    intros d' _ Hdr' Hsv' (_ & Hp & _). specialize (Hp Htx).
    apply IH; [done | done | lia].
Qed.

Lemma drain_ends d :
  drainable (sim d) ->
  (queuesNonEmpty d = true -> is_Some (slotVar d)) ->
  exists fuel d',
    whileLoop queuesNonEmpty (drainStep scheduler) fuel d = OK d'.
Proof.
  intros Hdr Hsv. apply (drain_ends_tx (Z.to_nat (txTotal (sim d)))); [done..|].
  pose proof (txTotal_nonneg _ Hdr). lia.
Qed.

End drain_ends.

Lemma simpleArrival_size distMatrix probPerSlot rand d m :
  Forall (fun r => 1 <= row_size r) distMatrix ->
  simpleArrival distMatrix probPerSlot rand d = OK (Some m) ->
  1 <= msg_size m.
Proof.
  intros Hsz. unfold simpleArrival.
  destruct (flt _ _); [|done].
  destruct (generateMsgSize _ _) as [size|] eqn:E; [|done].
  intros [= <-]. simpl.
  apply generateMsgSize_Some in E as (pre & r & post & -> & _ & _ & <-).
  apply Forall_app in Hsz as [_ Hsz]. by inversion Hsz.
Qed.

Lemma drainable_enqueueMsg m w :
  1 <= msg_size m -> drainable w -> drainable (enqueueMsg m w).
Proof.
  intros Hm [Htx Hdq]. split; [|done]. simpl.
  rewrite sort_by_perm. apply Forall_app. split; [done|]. by constructor.
Qed.

Lemma simple_for_drainable distMatrix probPerSlot rand pois n d :
  Forall (fun r => 1 <= row_size r) distMatrix ->
  forRange (simpleSlot distMatrix probPerSlot rand pois) n
    (simpleInit ∅ freshStores) = OK d ->
  drainable (sim d) /\ sizesPositive (msgDict d).
Proof.
  intros Hsz. revert n d.
  apply (forRange_inv (fun _ d => drainable (sim d) /\ sizesPositive (msgDict d))).
  - split; [by split|]. intros i size arr H. simpl in H.
    by rewrite lookup_empty in H.
  - intros k s s' [Hdr Hpos] Hb.
    apply simpleSlot_inv in Hb as (arrival & w & Ha & Hw & ->). simpl.
    assert (Hen : drainable (sim (simpleEnqueue k s arrival))
                  /\ sizesPositive (msgDict (simpleEnqueue k s arrival))).
    { destruct arrival as [m|]; simpl; [|done].
      pose proof (simpleArrival_size _ _ _ _ _ Hsz Ha) as Hm. split.
      - by apply drainable_enqueueMsg.
      - intros i size arr. destruct (decide (i = msgId s)) as [->|Hne].
        + rewrite lookup_insert_eq. by intros [= <- <-].
        + rewrite lookup_insert_ne by done. apply Hpos. }
    destruct Hen as [Hdr' Hpos']. split; [|done].
    destruct (progresses_simpleScheduler pois (Z.of_nat k) _ Hdr')
      as (w' & Hw' & Hp & _).
    rewrite Hw in Hw'. by inversion Hw'; subst.
Qed.

Lemma ideal_for_drainable pois n d0 e :
  drainable (sim d0) -> sizesPositive (msgDict d0) ->
  forRange (idealSlot pois) n d0 = OK e ->
  drainable (sim e).
Proof.
  intros Hdr0 Hpos He.
  cut (drainable (sim e) /\ msgDict e = msgDict d0); [by intros []|].
  revert n e He.
  apply (forRange_inv (fun _ e => drainable (sim e) /\ msgDict e = msgDict d0)).
  - done.
  - intros k s s' [Hdr Hmd] Hb.
    apply idealSlot_inv in Hb as (w & Hw & ->). simpl. split; [|done].
    assert (Hen : drainable (sim (idealEnqueue k s (idealArrival k s)))).
    { destruct (idealArrival k s) as [m|] eqn:Ha; simpl; [|done].
      apply idealArrival_Some in Ha as [_ Ha]. rewrite Hmd in Ha.
      apply drainable_enqueueMsg; [by eapply Hpos | done]. }
    destruct (progresses_idealScheduler pois (Z.of_nat k) _ Hen)
      as (w' & Hw' & Hp & _).
    rewrite Hw in Hw'. by inversion Hw'; subst.
Qed.

Lemma run_ends steps rho distMatrix rand pois p :
  Forall (fun r => 1 <= row_size r) distMatrix ->
  probPerSlotOf rho distMatrix = OK p ->
  (forall n, is_Some (generateMsgSize distMatrix (rand n))) ->
  exists fuel0 r, forall fuel, (fuel0 <= fuel)%nat ->
    run steps rho distMatrix rand pois fuel ∅ freshStores = OK r.
Proof.
  intros Hsz Hp Hgen. unfold run. rewrite Hp. cbn [mbind result_bind].
  destruct (simple_for_noraise distMatrix p rand pois steps Hgen)
    as (d1 & Hd1 & Hsv1).
  destruct (simple_for_drainable _ _ _ _ _ _ Hsz Hd1) as [Hdr1 Hpos1].
  destruct (drain_ends (simpleScheduler pois) (progresses_simpleScheduler pois)
              d1 Hdr1 Hsv1) as (f1 & d2 & Hd2).
  pose proof (drain_msgDict _ _ _ _ Hd2) as [Hmd _].
  destruct (ideal_for_slotVar pois steps (idealInit freshStores d2) eq_refl)
    as (e1 & He1 & Hsv2).
  assert (Hdr2 : drainable (sim e1)).
  { apply (ideal_for_drainable pois steps (idealInit freshStores d2));
      [by split | simpl; by rewrite Hmd | done]. }
  destruct (drain_ends (idealScheduler pois) (progresses_idealScheduler pois)
              e1 Hdr2 Hsv2) as (f2 & e2 & He2).
  exists (f1 `max` f2)%nat, (msgDict e2, MkStores (pktOut (sim d2)) (pktOut (sim e2))).
  intros fuel Hf. rewrite Hd1. cbn [mbind result_bind].
  rewrite (whileLoop_more _ _ f1 fuel d1 d2 Hd2) by lia.
  cbn [mbind result_bind]. rewrite He1. cbn [mbind result_bind].
  rewrite (whileLoop_more _ _ f2 fuel e1 e2 He2) by lia.
  by cbn [mbind result_bind].
Qed.

Lemma valid_table_finds_row distMatrix u :
  validTable distMatrix -> (u < 1)%Q ->
  is_Some (generateMsgSize distMatrix u).
Proof.
  intros [_ (r & Hlast & H1)] Hu.
  destruct (generateMsgSize distMatrix u) as [s|] eqn:E; [by eexists|].
  exfalso. apply generateMsgSize_None in E.
  rewrite Forall_forall in E. apply (E r).
  - apply last_Some in Hlast as [l' ->].
    apply elem_of_app. right. by apply list_elem_of_singleton.
  - by rewrite H1.
Qed.

(** X6: [run] returns.  When every size of the table is at least 1, the
    code before the loops raises nothing (the sizes fit a float and the mean
    size computed in float arithmetic is not zero) and every draw finds a
    row of the table, then from empty containers both drain loops end,
    whatever the Poisson delays are: there is a number of iterations from
    which on [run] returns, and what it returns does not depend on the
    bound.  Every draw finds a row in particular when the cumulative
    probabilities increase and end at 1 and the draws are below 1. *)
Theorem run_returns (steps : nat) (rho : Q) (distMatrix : list row)
    (rand : nat -> Q) (pois : nat -> nat) (p : dbl) :
  Forall (fun r => 1 <= row_size r) distMatrix ->
  probPerSlotOf rho distMatrix = OK p ->
  (forall n, is_Some (generateMsgSize distMatrix (rand n)))
  \/ (validTable distMatrix /\ forall n, (rand n < 1)%Q) ->
  exists fuel0 r, forall fuel, (fuel0 <= fuel)%nat ->
    run steps rho distMatrix rand pois fuel ∅ freshStores = OK r.
Proof.
  intros Hsz Hp [Hgen|[Hv Hu]].
  - by eapply run_ends.
  - eapply run_ends; [done | done |].
    intros n. by apply valid_table_finds_row.
Qed.

Lemma exRand_below_one n : (exRand n < 1)%Q.
Proof. do 4 (destruct n as [|n]; [reflexivity|]). reflexivity. Defined.

Lemma exTable_probPerSlot :
  probPerSlotOf (3#10) exTable
  = OK (Fin (7205759403792793 # 36028797018963968)).
Proof. vm_compute. reflexivity. Defined.

Lemma run_returns_witness :
  exists fuel0 r, forall fuel, (fuel0 <= fuel)%nat ->
    run 2 (3#10) exTable exRand exPois fuel ∅ freshStores = OK r.
Proof.
  apply (run_returns 2 (3#10) exTable exRand exPois
           (Fin (7205759403792793 # 36028797018963968))).
  - repeat constructor; simpl; lia.
  - exact exTable_probPerSlot.
  - right. split.
    + split; [repeat constructor|]. exists (Row 1 2). split; reflexivity.
    + apply exRand_below_one.
Defined.

(** ** Completion times *)

Lemma sorted_last_ge (l : list Z) a x :
  StronglySorted Z.lt l -> Forall (fun y => a < y) l -> last l = Some x ->
  a + Z.of_nat (length l) <= x.
Proof.
  revert a. induction l as [|y l IH]; intros a Hs Hf Hl; [done|].
  apply StronglySorted_inv in Hs as [Hs Hy].
  inversion Hf as [|? ? Hay _]; subst.
  destruct l as [|z l]; [simpl in *; inversion Hl; lia|].
  change (last (y :: z :: l)) with (last (z :: l)) in Hl.
  specialize (IH y Hs Hy Hl). simpl length in *. lia.
Qed.

Lemma completion_ge_count msgDict n out key recs size arr :
  outAfter msgDict out -> recordsBelow n out ->
  out !! key = Some recs -> msgDict !! key = Some (size, arr) ->
  exists c, msgCompletionTime msgDict key recs = OK c
            /\ Z.of_nat (length recs) <= c.
Proof.
  intros Hout Hrec Hl Hk.
  destruct (completion_good _ _ _ _ _ Hout Hrec Hl)
    as (size' & arr' & r & Hk' & Hlast & Hc & _).
  rewrite Hk in Hk'. inversion Hk'; subst size' arr'.
  exists (out_slot r - arr). split; [done|].
  destruct (Hout key recs Hl) as (size' & arr' & Hk'' & Hf).
  rewrite Hk in Hk''. inversion Hk''; subst size' arr'.
  destruct (Hrec key recs Hl) as (_ & Hs & _).
  pose proof (sorted_last_ge (out_slot <$> recs) arr (out_slot r) Hs) as Hge.
  rewrite length_fmap in Hge.
  assert (a1 : arr + Z.of_nat (length recs) <= out_slot r); [|lia].
  apply Hge.
  - by apply Forall_fmap.
  - by rewrite fmap_last, Hlast.
Qed.

(** X7: No message completes faster than one packet per slot.  When [run]
    returns, every message of the table has its records in both stores, and
    the completion time that the aggregation computes from either of them
    (the largest slot minus the arrival slot) is at least the size of the
    message: the first packet leaves one slot after the arrival at the
    earliest and at most one packet leaves per slot.  So the divisor of the
    penalty of a message is never below 1. *)
Theorem completion_at_least_size steps rho distMatrix rand pois fuel
    msgDict stores :
  run steps rho distMatrix rand pois fuel ∅ freshStores = OK (msgDict, stores) ->
  forall i size arr, msgDict !! i = Some (size, arr) ->
    exists recsSimple recsIdeal completionSimple completionIdeal,
      simpleStore stores !! i = Some recsSimple
      /\ idealStore stores !! i = Some recsIdeal
      /\ msgCompletionTime msgDict i recsSimple = OK completionSimple
      /\ msgCompletionTime msgDict i recsIdeal = OK completionIdeal
      /\ 1 <= size <= completionSimple
      /\ size <= completionIdeal.
Proof.
  intros H i size arr Hl.
  destruct (run_counts _ _ _ _ _ _ _ _ H i size arr Hl) as (Hpos & HoS & HoI).
  destruct (run_stores_good _ _ _ _ _ _ _ _ H)
    as (nS & nI & HaS & HrS & HaI & HrI).
  unfold outCount in HoS, HoI.
  destruct (simpleStore stores !! i) as [recsS|] eqn:ES;
    [|simpl in HoS; lia].
  destruct (idealStore stores !! i) as [recsI|] eqn:EI;
    [|simpl in HoI; lia].
  simpl in HoS, HoI.
  destruct (completion_ge_count _ _ _ _ _ _ _ HaS HrS ES Hl) as (cS & HcS & HgS).
  destruct (completion_ge_count _ _ _ _ _ _ _ HaI HrI EI Hl) as (cI & HcI & HgI).
  exists recsS, recsI, cS, cI. repeat split; try done; lia.
Qed.

Lemma completion_at_least_size_witness :
  exists recsSimple recsIdeal completionSimple completionIdeal,
    simpleStore exStores !! 0 = Some recsSimple
    /\ idealStore exStores !! 0 = Some recsIdeal
    /\ msgCompletionTime exMsgDict 0 recsSimple = OK completionSimple
    /\ msgCompletionTime exMsgDict 0 recsIdeal = OK completionIdeal
    /\ 1 <= 2 <= completionSimple
    /\ 2 <= completionIdeal.
Proof.
  apply (completion_at_least_size 2 (3#10) exTable exRand exPois 10 exMsgDict
           exStores exRun_result 0 2 0).
  vm_compute. reflexivity.
Defined.

(** ** The totals of the aggregation *)

Lemma aggStep_contribution ideal msgDict rho a e a' :
  aggStep ideal msgDict rho a e = OK a' ->
  (ideal !! e.1 = None /\ contribution ideal msgDict e = None /\ a' = a)
  \/ (exists s t,
        is_Some (ideal !! e.1)
        /\ contribution ideal msgDict e = Some (s, t)
        /\ a' = let d := default (0%Q, 0, rho) (penaltyPerSize a !! s) in
                MkAgg (penalty a + t)%Q (numMsg a + 1)
                  (<[s := ((d.1.1 + t)%Q, d.1.2 + 1, d.2)]> (penaltyPerSize a))).
Proof.
  unfold aggStep, contribution. destruct e as [key recsS]. cbn [fst snd].
  destruct (ideal !! key) as [recsI|]; [|intros [= <-]; by left].
  destruct (msgCompletionTime msgDict key recsS) as [cS| |];
    cbn [mbind result_bind]; [|done..].
  destruct (msgCompletionTime msgDict key recsI) as [cI| |];
    cbn [mbind result_bind]; [|done..].
  destruct (penaltyTerm cS cI) as [t| |]; cbn [mbind result_bind]; [|done..].
  destruct (msgDict !! key) as [[size arr]|]; [|done].
  destruct (default _ _) as [[total count] r] eqn:E.
  intros [= <-]. right. exists size, t. split; [by eexists|]. split; [done|].
  cbn zeta. by rewrite E.
Qed.

Lemma sumTerms_snoc cs c : sumTerms (cs ++ [c]) = (sumTerms cs + c.2)%Q.
Proof. unfold sumTerms. by rewrite fold_left_app. Qed.

Lemma grouped_snoc rho s cs c :
  grouped rho s (cs ++ [c])
  = if decide (c.1 = s)
    then let d := default (0%Q, 0, rho) (grouped rho s cs) in
         Some ((d.1.1 + c.2)%Q, d.1.2 + 1, d.2)
    else grouped rho s cs.
Proof.
  unfold grouped, ofSize. rewrite filter_app, filter_cons, filter_nil.
  destruct (decide (c.1 = s)) as [Hc|Hc]; [|by rewrite app_nil_r].
  destruct (filter _ cs) as [|c0 l] eqn:E.
  - done.
  - rewrite <- E. clear E.
    destruct (filter _ cs ++ [c]) as [|c1 l1] eqn:E1.
    { by apply app_eq_nil in E1 as [_ ?]. }
    rewrite <- E1. rewrite sumTerms_snoc, length_app. cbn zeta.
    destruct (filter _ cs) as [|c2 l2] eqn:E2.
    + simpl. done.
    + cbn [default fst snd]. f_equal. f_equal. f_equal. simpl. lia.
Qed.

Lemma aggStep_aggregates ideal msgDict rho cs a e a' :
  aggregates rho cs a ->
  aggStep ideal msgDict rho a e = OK a' ->
  aggregates rho (cs ++ from_option (fun c => [c]) []
                          (contribution ideal msgDict e)) a'
  /\ (is_Some (ideal !! e.1) -> is_Some (contribution ideal msgDict e)).
Proof.
  intros (Hn & Hp & Hg) Hs.
  apply aggStep_contribution in Hs as [(Hi & -> & ->)|(s & t & Hi & -> & ->)].
  - simpl. rewrite app_nil_r. split; [done|]. rewrite Hi. by intros [? ?].
  - split; [|by eexists]. cbn [from_option]. cbn zeta.
    split; [|split]; cbn [numMsg penalty penaltyPerSize].
    + rewrite length_app. simpl. lia.
    + by rewrite sumTerms_snoc, Hp.
    + intros s'. rewrite grouped_snoc. cbn [fst snd].
      destruct (decide (s = s')) as [<-|Hne].
      * rewrite lookup_insert_eq. by rewrite Hg.
      * rewrite lookup_insert_ne by done. apply Hg.
Qed.

Lemma omap_cons_from_option {A B} (f : A -> option B) x l :
  omap f (x :: l) = from_option (fun c => [c]) [] (f x) ++ omap f l.
Proof. simpl. by destruct (f x). Qed.

Lemma aggLoop_aggregates ideal msgDict rho entries cs a a' :
  aggregates rho cs a ->
  aggLoop ideal msgDict rho entries a = OK a' ->
  aggregates rho (cs ++ omap (contribution ideal msgDict) entries) a'
  /\ Forall (fun e => is_Some (ideal !! e.1) ->
                      is_Some (contribution ideal msgDict e)) entries.
Proof.
  revert cs a. induction entries as [|e entries IH]; intros cs a Ha Hl.
  - simpl in Hl. inversion Hl; subst. simpl. by rewrite app_nil_r.
  - cbn [aggLoop] in Hl. apply bind_OK_inv in Hl as (a1 & Hs & Hl).
    destruct (aggStep_aggregates _ _ _ _ _ _ _ Ha Hs) as [Ha1 He].
    destruct (IH _ _ Ha1 Hl) as [Ha' Hall].
    rewrite omap_cons_from_option, app_assoc. split; [done|]. by constructor.
Qed.

Lemma aggregates_init rho : aggregates rho [] aggInit.
Proof. split; [done|]. split; [done|]. intros s. apply lookup_empty. Qed.

Lemma grouped_Some rho s cs e :
  grouped rho s cs = Some e ->
  1 <= e.1.2 /\ e.2 = rho /\ sizeMean e = (e.1.1 / inject_Z e.1.2)%Q.
Proof.
  unfold grouped. destruct (ofSize s cs) as [|c l]; [done|].
  intros [= <-]. cbn [fst snd]. split; [simpl; lia|]. split; [done|].
  unfold sizeMean. case_decide as Hc; [done|]. simpl in Hc. lia.
Qed.

(** X8: The aggregation loop groups by size.  When the loop over the
    entries of the simple store returns, started from the zero totals, the
    entries that contributed are those whose id is in the ideal store;
    [numMsg] is their number, [penalty] is the sum of their terms in the
    order of the loop, and [penaltyPerSize] holds under each size that
    occurred the sum of the terms of the messages of that size, their
    number and [rho], and holds nothing under any other size.  So every
    count in [penaltyPerSize] is at least 1 and the guard of the mean per
    size never takes its [0.0] branch. *)
Theorem aggregation_groups_by_size ideal msgDict rho entries a :
  aggLoop ideal msgDict rho entries aggInit = OK a ->
  aggregates rho (omap (contribution ideal msgDict) entries) a
  /\ Forall (fun e => is_Some (ideal !! e.1) <->
                      is_Some (contribution ideal msgDict e)) entries
  /\ forall s e, penaltyPerSize a !! s = Some e ->
       1 <= e.1.2 /\ e.2 = rho /\ sizeMean e = (e.1.1 / inject_Z e.1.2)%Q.
Proof.
  intros Hl.
  destruct (aggLoop_aggregates _ _ _ _ _ _ _ (aggregates_init rho) Hl)
    as [Ha Hall].
  simpl in Ha. split; [done|]. split.
  - eapply Forall_impl; [exact Hall|]. intros e He. split; [done|].
    unfold contribution. destruct (ideal !! e.1); [by eexists|].
    by intros [? ?].
  - intros s e He. destruct Ha as (_ & _ & Hg). rewrite Hg in He.
    by eapply grouped_Some.
Qed.

Lemma aggregation_groups_by_size_witness :
  aggregates (3#10)
    (omap (contribution (idealStore exStores) exMsgDict)
       (map_to_list (simpleStore exStores))) exAgg
  /\ Forall (fun e => is_Some (idealStore exStores !! e.1) <->
                      is_Some (contribution (idealStore exStores) exMsgDict e))
       (map_to_list (simpleStore exStores))
  /\ forall s e, penaltyPerSize exAgg !! s = Some e ->
       1 <= e.1.2 /\ e.2 = (3#10)%Q
       /\ sizeMean e = (e.1.1 / inject_Z e.1.2)%Q.
Proof.
  apply (aggregation_groups_by_size (idealStore exStores) exMsgDict (3#10)
           (map_to_list (simpleStore exStores)) exAgg).
  vm_compute. reflexivity.
Defined.

(** ** One step of the sweep *)

Lemma run_stores_keys steps rho distMatrix rand pois fuel msgDict stores :
  run steps rho distMatrix rand pois fuel ∅ freshStores = OK (msgDict, stores) ->
  forall k,
    (is_Some (simpleStore stores !! k) <-> is_Some (msgDict !! k))
    /\ (is_Some (idealStore stores !! k) <-> is_Some (msgDict !! k)).
Proof.
  intros H k.
  destruct (run_stores_good _ _ _ _ _ _ _ _ H) as (nS & nI & HaS & _ & HaI & _).
  assert (Hback : forall size arr, msgDict !! k = Some (size, arr) ->
            is_Some (simpleStore stores !! k)
            /\ is_Some (idealStore stores !! k)).
  { intros size arr Hl.
    destruct (run_counts _ _ _ _ _ _ _ _ H k size arr Hl) as (Hpos & HoS & HoI).
    unfold outCount in HoS, HoI. split.
    - destruct (simpleStore stores !! k); [eauto | simpl in HoS; lia].
    - destruct (idealStore stores !! k); [eauto | simpl in HoI; lia]. }
  split; split.
  - intros [recs Hl]. destruct (HaS k recs Hl) as (size & arr & Hk & _). eauto.
  - intros [[size arr] Hl]. by destruct (Hback size arr Hl).
  - intros [recs Hl]. destruct (HaI k recs Hl) as (size & arr & Hk & _). eauto.
  - intros [[size arr] Hl]. by destruct (Hback size arr Hl).
Qed.

Lemma omap_length_all {A B} (f : A -> option B) (l : list A) :
  Forall (fun x => is_Some (f x)) l -> length (omap f l) = length l.
Proof.
  induction 1 as [|x l [y Hy] _ IH]; [done|].
  rewrite omap_cons_from_option, Hy. simpl. by rewrite IH.
Qed.

(** X9: One step of the sweep over [rho].  When [run] returns, the
    aggregation that follows raises nothing and counts every message of the
    table: [numMsg] is the number of messages generated.  So the mean
    penalty that is written out divides by zero exactly when no message was
    generated in the run, and otherwise the step yields [penalty/numMsg] and
    the mean per size. *)
Theorem sweep_step_outcome steps rho distMatrix rand pois fuel msgDict stores :
  run steps rho distMatrix rand pois fuel ∅ freshStores = OK (msgDict, stores) ->
  exists a,
    aggregate msgDict stores rho = OK a
    /\ numMsg a = Z.of_nat (size msgDict)
    /\ (msgDict = ∅ ->
        sweepStep steps rho distMatrix rand pois fuel
        = Raised ZeroDivisionError)
    /\ (msgDict <> ∅ ->
        sweepStep steps rho distMatrix rand pois fuel
        = OK ((penalty a / inject_Z (numMsg a))%Q,
              sizeMean <$> penaltyPerSize a)).
Proof.
  intros H.
  destruct (run_stores_good _ _ _ _ _ _ _ _ H)
    as (nS & nI & HaS & HrS & HaI & HrI).
  pose proof (run_stores_keys _ _ _ _ _ _ _ _ H) as Hkeys.
  destruct (aggLoop_total msgDict nS nI (simpleStore stores) (idealStore stores)
              rho (map_to_list (simpleStore stores)) aggInit HaS HrS HaI HrI)
    as [a Ha].
  { intros [key recs] He. simpl. by apply elem_of_map_to_list in He. }
  exists a. split; [done|].
  assert (Hnum : numMsg a = Z.of_nat (size msgDict)).
  { destruct (aggLoop_aggregates _ _ _ _ _ _ _ (aggregates_init rho) Ha)
      as [(Hn & _) Hall].
    rewrite Hn. simpl. f_equal. rewrite omap_length_all.
    - rewrite length_map_to_list, <- !size_dom. f_equal.
      apply set_eq. intros k. rewrite !elem_of_dom. apply Hkeys.
    - apply Forall_forall. intros [key recs] Hin.
      rewrite Forall_forall in Hall. apply (Hall _ Hin). simpl.
      apply elem_of_map_to_list in Hin.
      destruct (Hkeys key) as [HkS HkI]. apply HkI, HkS. by eexists. }
  split; [done|].
  unfold sweepStep. fold freshStores. rewrite H. cbn [mbind result_bind].
  unfold aggregate. rewrite Ha. cbn [mbind result_bind].
  unfold meanPenalty. rewrite Hnum.
  split.
  - intros ->. by rewrite map_size_empty.
  - intros Hne. rewrite py_div_OK; [done|]. apply inject_Z_nonzero.
    apply map_size_non_empty_iff in Hne. lia.
Qed.

Lemma sweep_step_outcome_witness :
  exists a,
    aggregate exMsgDict exStores (3#10) = OK a
    /\ numMsg a = Z.of_nat (size exMsgDict)
    /\ (exMsgDict = ∅ ->
        sweepStep 2 (3#10) exTable exRand exPois 10 = Raised ZeroDivisionError)
    /\ (exMsgDict <> ∅ ->
        sweepStep 2 (3#10) exTable exRand exPois 10
        = OK ((penalty a / inject_Z (numMsg a))%Q,
              sizeMean <$> penaltyPerSize a)).
Proof.
  apply (sweep_step_outcome 2 (3#10) exTable exRand exPois 10 exMsgDict
           exStores exRun_result).
Defined.

(** ** The aggregation loop over the two stores *)

Lemma contribution_inv ideal msgDict e c :
  contribution ideal msgDict e = Some c ->
  exists recsIdeal completionSimple completionIdeal size arr,
    ideal !! e.1 = Some recsIdeal
    /\ msgCompletionTime msgDict e.1 e.2 = OK completionSimple
    /\ msgCompletionTime msgDict e.1 recsIdeal = OK completionIdeal
    /\ msgDict !! e.1 = Some (size, arr)
    /\ completionIdeal <> 0
    /\ c = (size,
           (inject_Z (completionSimple - completionIdeal) * 1
            / inject_Z completionIdeal)%Q).
Proof.
  unfold contribution.
  destruct (ideal !! e.1) as [recsI|] eqn:Ei; [|done].
  destruct (msgCompletionTime msgDict e.1 e.2) as [cS| |] eqn:ES; [|done..].
  destruct (msgCompletionTime msgDict e.1 recsI) as [cI| |] eqn:EI; [|done..].
  destruct (msgDict !! e.1) as [[size arr]|] eqn:Ek; [|done].
  unfold penaltyTerm, py_div.
  destruct (Qeq_bool (inject_Z cI) 0) eqn:E; [done|].
  intros [= <-]. exists recsI, cS, cI, size, arr.
  do 4 (split; [done|]). split; [|done]. intros ->. done.
Qed.

Lemma contributions_of_present ideal msgDict entries :
  Forall (fun e => is_Some (ideal !! e.1) ->
                   is_Some (contribution ideal msgDict e)) entries ->
  Forall2 (fun e c => contribution ideal msgDict e = Some c)
    (filter (fun e => is_Some (ideal !! e.1)) entries)
    (omap (contribution ideal msgDict) entries).
Proof.
  induction 1 as [|e entries He _ IH]; [constructor|].
  rewrite filter_cons.
  destruct (decide (is_Some (ideal !! e.1))) as [Hs|Hn].
  - destruct (He Hs) as [c Hc]. simpl. rewrite Hc. by constructor.
  - assert (Hc : contribution ideal msgDict e = None).
    { unfold contribution. destruct (ideal !! e.1); [|done].
      exfalso. apply Hn. by eexists. }
    simpl. by rewrite Hc.
Qed.

Lemma filter_all {A} (P : A -> Prop) `{!forall x, Decision (P x)} (l : list A) :
  Forall P l -> filter P l = l.
Proof.
  induction 1 as [|x l Hx _ IH]; [done|].
  rewrite filter_cons. rewrite decide_True by done. by rewrite IH.
Qed.

Lemma sumTerms_terms cs : sumTerms cs = fold_left Qplus (snd <$> cs) 0%Q.
Proof.
  unfold sumTerms. generalize 0%Q.
  induction cs as [|c cs IH]; intros q; [done|]. simpl. apply IH.
Qed.

(** C9: the aggregation over the two stores.  One iteration, on a message
    id that is in both stores with records in the order the schedulers leave
    them (strictly increasing slots), takes as completion time the slot of
    the last record minus the arrival slot of the message, counts the
    message, and adds [(completionSimple - completionIdeal) /
    completionIdeal] to the penalty; on an id that is missing from the ideal
    store it leaves the totals as they are and raises nothing; the ids that
    are only in the ideal store are never looked at.  The whole loop, when it
    returns, has counted exactly the entries whose id is in both stores and
    has summed exactly their terms, in the order of the loop.  On the message
    table and the stores that [run] returns the loop raises nothing, every
    id of one store is in the other, and the totals are the number of the
    entries of the simple store and the sum of their terms, each term being
    that of the last records of its message in the two stores, with a
    positive ideal completion time. *)
Theorem penalty_aggregation :
  (forall ideal msgDict rho a key recsSimple recsIdeal size arr
          lastSimple lastIdeal,
      ideal !! key = Some recsIdeal ->
      msgDict !! key = Some (size, arr) ->
      StronglySorted Z.lt (out_slot <$> recsSimple) ->
      StronglySorted Z.lt (out_slot <$> recsIdeal) ->
      last recsSimple = Some lastSimple ->
      last recsIdeal = Some lastIdeal ->
      let completionSimple := out_slot lastSimple - arr in
      let completionIdeal := out_slot lastIdeal - arr in
      msgCompletionTime msgDict key recsSimple = OK completionSimple
      /\ msgCompletionTime msgDict key recsIdeal = OK completionIdeal
      /\ (completionIdeal <> 0 ->
          exists a',
            aggStep ideal msgDict rho a (key, recsSimple) = OK a'
            /\ numMsg a' = numMsg a + 1
            /\ penalty a'
               = (penalty a
                  + inject_Z (completionSimple - completionIdeal) * 1
                    / inject_Z completionIdeal)%Q))
  /\ (forall ideal msgDict rho a key recsSimple, ideal !! key = None ->
        aggStep ideal msgDict rho a (key, recsSimple) = OK a)
  /\ (forall msgDict rho simple ideal ideal',
        (forall key, is_Some (simple !! key) -> ideal' !! key = ideal !! key) ->
        aggregate msgDict (MkStores simple ideal') rho
        = aggregate msgDict (MkStores simple ideal) rho)
  /\ (forall ideal msgDict rho entries a,
        aggLoop ideal msgDict rho entries aggInit = OK a ->
        exists terms,
          Forall2
            (fun e term =>
               exists recsIdeal completionSimple completionIdeal,
                 ideal !! e.1 = Some recsIdeal
                 /\ msgCompletionTime msgDict e.1 e.2 = OK completionSimple
                 /\ msgCompletionTime msgDict e.1 recsIdeal
                    = OK completionIdeal
                 /\ completionIdeal <> 0
                 /\ term
                    = (inject_Z (completionSimple - completionIdeal) * 1
                       / inject_Z completionIdeal)%Q)
            (filter (fun e => is_Some (ideal !! e.1)) entries) terms
          /\ numMsg a = Z.of_nat (length terms)
          /\ penalty a = fold_left Qplus terms 0%Q)
  /\ (forall steps rho distMatrix rand pois fuel msgDict stores,
        run steps rho distMatrix rand pois fuel ∅ freshStores
        = OK (msgDict, stores) ->
        (forall key, is_Some (simpleStore stores !! key)
                     <-> is_Some (idealStore stores !! key))
        /\ exists a terms,
             aggregate msgDict stores rho = OK a
             /\ Forall2
                  (fun e term =>
                     exists recsIdeal size arr lastSimple lastIdeal,
                       idealStore stores !! e.1 = Some recsIdeal
                       /\ msgDict !! e.1 = Some (size, arr)
                       /\ last e.2 = Some lastSimple
                       /\ last recsIdeal = Some lastIdeal
                       /\ 0 < out_slot lastIdeal - arr
                       /\ term
                          = (inject_Z ((out_slot lastSimple - arr)
                                       - (out_slot lastIdeal - arr)) * 1
                             / inject_Z (out_slot lastIdeal - arr))%Q)
                  (map_to_list (simpleStore stores)) terms
             /\ numMsg a = Z.of_nat (length terms)
             /\ penalty a = fold_left Qplus terms 0%Q).
Proof.
  split; [|split; [|split; [|split]]].
  - intros ideal msgDict rho a key recsS recsI size arr lastS lastI
      Hi Hm HsS HsI HlS HlI cs ci.
    pose proof (msgCompletionTime_last _ _ _ _ _ _ Hm HsS HlS) as HcS.
    pose proof (msgCompletionTime_last _ _ _ _ _ _ Hm HsI HlI) as HcI.
    split; [done|]. split; [done|]. intros Hci.
    unfold aggStep. rewrite Hi, HcS, HcI. simpl. unfold penaltyTerm.
    rewrite py_div_OK by (by apply inject_Z_nonzero). simpl. rewrite Hm.
    destruct (default _ _) as [[total count] r]. eexists. by repeat split.
  - intros. by apply aggStep_absent.
  - intros msgDict rho simple ideal ideal' H. unfold aggregate. simpl.
    apply aggLoop_ext. intros [key recs] He. simpl. apply H.
    apply elem_of_map_to_list in He. eauto.
  - intros ideal msgDict rho entries a Hl.
    destruct (aggLoop_aggregates _ _ _ _ _ _ _ (aggregates_init rho) Hl)
      as [(Hn & Hp & _) Hall].
    simpl in Hn, Hp.
    exists (snd <$> omap (contribution ideal msgDict) entries).
    split; [|split].
    + apply Forall2_fmap_r.
      eapply Forall2_impl; [by apply contributions_of_present|].
      intros e c Hc.
      apply contribution_inv in Hc
        as (recsI & cS & cI & size & arr & Hi & HcS & HcI & _ & Hne & ->).
      by exists recsI, cS, cI.
    + by rewrite length_fmap.
    + by rewrite Hp, sumTerms_terms.
  - intros steps rho distMatrix rand pois fuel msgDict stores Hrun.
    destruct (run_stores_good _ _ _ _ _ _ _ _ Hrun)
      as (nS & nI & HoS & HrS & HoI & HrI).
    pose proof (run_stores_keys _ _ _ _ _ _ _ _ Hrun) as Hkeys.
    assert (Hboth : forall key, is_Some (simpleStore stores !! key)
                                <-> is_Some (idealStore stores !! key)).
    { intros key. destruct (Hkeys key) as [HkS HkI]. by rewrite HkS, HkI. }
    split; [done|].
    destruct (aggLoop_total msgDict nS nI (simpleStore stores)
                (idealStore stores) rho (map_to_list (simpleStore stores))
                aggInit HoS HrS HoI HrI) as [a Ha].
    { intros [key recs] He. simpl. by apply elem_of_map_to_list in He. }
    destruct (aggLoop_aggregates _ _ _ _ _ _ _ (aggregates_init rho) Ha)
      as [(Hn & Hp & _) Hall].
    simpl in Hn, Hp.
    assert (Hpresent : Forall (fun e => is_Some (idealStore stores !! e.1))
                         (map_to_list (simpleStore stores))).
    { apply Forall_forall. intros [key recs] Hin.
      apply elem_of_map_to_list in Hin. simpl. apply Hboth. by eexists. }
    pose proof (contributions_of_present _ _ _ Hall) as H2.
    rewrite (filter_all _ _ Hpresent) in H2.
    exists a, (snd <$> omap (contribution (idealStore stores) msgDict)
                 (map_to_list (simpleStore stores))).
    split; [done|]. split; [|split].
    + apply Forall2_fmap_r.
      apply Forall2_same_length_lookup. split; [by eapply Forall2_length|].
      intros i [key recsS] c Hle Hlc.
      pose proof (Forall2_lookup_lr _ _ _ _ _ _ H2 Hle Hlc) as Hc.
      apply list_elem_of_lookup_2, elem_of_map_to_list in Hle.
      apply contribution_inv in Hc
        as (recsI & cS & cI & size & arr & Hi & HcS & HcI & Hk & _ & ->).
      cbn [fst snd] in *.
      destruct (completion_good _ _ _ _ _ HoS HrS Hle)
        as (size1 & arr1 & rS & Hk1 & HlastS & HcS1 & _).
      destruct (completion_good _ _ _ _ _ HoI HrI Hi)
        as (size2 & arr2 & rI & Hk2 & HlastI & HcI2 & Hpos).
      rewrite Hk in Hk1, Hk2. inversion Hk1; subst size1 arr1.
      inversion Hk2; subst size2 arr2.
      rewrite HcS in HcS1. inversion HcS1; subst cS.
      rewrite HcI in HcI2. inversion HcI2; subst cI.
      by exists recsI, size, arr, rS, rI.
    + by rewrite length_fmap.
    + by rewrite Hp, sumTerms_terms.
Qed.

Lemma penalty_aggregation_witness :
  (exists a',
     aggStep {[ 0 := [PktInfo 2 2 2; PktInfo 3 1 1] ]} {[ 0 := (2, 0) ]} (3#10)
       aggInit (0, [PktInfo 2 0 1; PktInfo 5 0 2]) = OK a'
     /\ numMsg a' = numMsg aggInit + 1
     /\ penalty a'
        = (penalty aggInit
           + inject_Z ((5 - 0) - (3 - 0)) * 1 / inject_Z (3 - 0))%Q)
  /\ (forall key, is_Some (simpleStore exStores !! key)
                  <-> is_Some (idealStore exStores !! key))
  /\ numMsg exAgg = 2.
Proof.
  split.
  - refine (proj2 (proj2 (proj1 penalty_aggregation
              {[ 0 := [PktInfo 2 2 2; PktInfo 3 1 1] ]} {[ 0 := (2, 0) ]}
              (3#10) aggInit 0 [PktInfo 2 0 1; PktInfo 5 0 2]
              [PktInfo 2 2 2; PktInfo 3 1 1] 2 0 (PktInfo 5 0 2) (PktInfo 3 1 1)
              _ _ _ _ _ _)) _).
    + vm_compute. reflexivity.
    + vm_compute. reflexivity.
    + repeat constructor.
    + repeat constructor.
    + reflexivity.
    + reflexivity.
    + simpl. lia.
  - destruct (proj2 (proj2 (proj2 (proj2 penalty_aggregation)))
                2%nat (3#10) exTable exRand exPois 10%nat
                exMsgDict exStores exRun_result)
      as (Hboth & a & terms & Ha & Hterms & Hn & _).
    split; [exact Hboth|].
    apply Forall2_length in Hterms.
    change (aggregate exMsgDict exStores (3#10)) with (OK exAgg) in Ha.
    inversion Ha; subst a. rewrite Hn, <- Hterms. vm_compute. reflexivity.
Defined.

(** ** Every packet departs once *)

Lemma lmass_depleteAndRecord g fp i slot w w' :
  depleteAndRecord slot w = OK w' -> lmass g fp i w' = lmass g fp i w.
Proof.
  rewrite depleteAndRecord_spec. intros [= <-].
  match goal with |- context [recordDeparture ?s ?self ?out] =>
    pose proof (recordDeparture_sched s self out) as Hs;
    pose proof (recordDeparture_store s self out) as Ho;
    destruct (recordDeparture s self out) as [self' out'] eqn:E
  end.
  simpl in *. subst self' out'. unfold lmass. simpl.
  set (wp := fun p => if decide (pkt_id p = i)
                      then fp (pkt_size p) (pkt_prio p) else 0).
  set (wd := fun d => if decide (dp_id d = i)
                      then fp (dp_size d) (dp_prio d) else 0).
  assert (Hd : wsum wp (released (delayQueue (sched w)))
               + wsum wd (decrDelay <$> inFlight (delayQueue (sched w)))
               = wsum wd (delayQueue (sched w))).
  { unfold released, inFlight. rewrite !wsum_fmap.
    by rewrite (wsum_split wd (fun d => dp_delay d = 0) (delayQueue (sched w))). }
  assert (Hrx : wsum wp (sort_by pkt_prio
                  (rxQueue (sched w) ++ released (delayQueue (sched w))))
                = wsum wp (rxQueue (sched w))
                  + wsum wp (released (delayQueue (sched w)))).
  { by rewrite sort_by_perm, wsum_app. }
  destruct (sort_by pkt_prio _) as [|p rest]; simpl.
  - change (wsum wp []) with 0 in Hrx. lia.
  - rewrite wsum_cons in Hrx.
    assert (Hout :
      wsum (fun r => fp (out_size r) (out_prio r))
        (default []
           (<[pkt_id p := default [] (pktOut w !! pkt_id p)
                          ++ [PktInfo slot (pkt_prio p) (pkt_size p)]]>
              (pktOut w) !! i))
      = wsum (fun r => fp (out_size r) (out_prio r))
          (default [] (pktOut w !! i)) + wp p).
    { unfold wp. destruct (decide (pkt_id p = i)) as [->|Hne].
      - rewrite lookup_insert_eq. simpl. rewrite wsum_app. simpl. lia.
      - rewrite lookup_insert_ne by done. lia. }
    rewrite Hout. lia.
Qed.

Lemma lmass_inject g fp i tx rx dq out k id size prio delay :
  lmass g fp i
    (MkSim (MkScheduler tx rx
              (sort_by dp_delay (dq ++ [DelayedPkt id size prio delay])))
       out k)
  = lmass g fp i (MkSim (MkScheduler tx rx dq) out k)
    + (if decide (id = i) then fp size prio else 0).
Proof.
  unfold lmass. simpl. rewrite sort_by_perm, wsum_app. simpl. lia.
Qed.

Lemma lmass_simpleTransmit g fp i pois w :
  weighting (fun _ => 0) g fp ->
  lmass g fp i (simpleTransmit pois w) = lmass g fp i w.
Proof.
  intros Hw. unfold simpleTransmit.
  destruct (txQueue (sched w)) as [|h rest] eqn:E; [done|]. cbn zeta.
  specialize (Hw (msg_size h)). cbn beta in Hw.
  destruct (decide (msg_size (decrSize h) = 0)) as [H0|H0];
    unfold addPktToDelayQueue;
    cbn [txQueue rxQueue delayQueue pkt_id pkt_size pkt_prio];
    rewrite lmass_inject; unfold lmass; rewrite E;
    cbn [sched txQueue rxQueue delayQueue pktOut];
    rewrite ?wsum_cons; simpl in *;
    destruct (decide (msg_id h = i));
    destruct (decide (msg_size h - 1 = 0)); lia.
Qed.

Lemma lmass_simpleScheduler g fp i pois slot w w' :
  weighting (fun _ => 0) g fp ->
  simpleScheduler pois slot w = OK w' -> lmass g fp i w' = lmass g fp i w.
Proof.
  unfold simpleScheduler. intros Hw H.
  apply (lmass_depleteAndRecord g fp i) in H.
  by rewrite lmass_simpleTransmit in H.
Qed.

Lemma lmass_idealLoop g fp i pois todo done w w' :
  weighting (fun n => n) g fp ->
  txQueue (sched w) = done ++ todo ->
  idealLoop pois todo done w = OK w' -> lmass g fp i w' = lmass g fp i w.
Proof.
  intros Hw. revert done w.
  induction todo as [|m rest IH]; intros done w Htx Hl.
  - simpl in Hl. by inversion Hl.
  - simpl in Hl.
    destruct (idealVisit_spec pois m rest done w) as (done' & E & Hcase).
    rewrite E in Hl. simpl in Hl. apply IH in Hl; [|done].
    rewrite Hl, lmass_inject. unfold lmass.
    cbn [sched txQueue rxQueue delayQueue pktOut]. rewrite Htx.
    rewrite !wsum_app, wsum_cons.
    specialize (Hw (msg_size m)). simpl in Hw.
    destruct Hcase as [(H1 & Hperm & _)|(H1 & ->)].
    + assert (Hp := wsum_perm
        (fun m0 => if decide (msg_id m0 = i) then g (msg_size m0) else 0)
        _ _ Hperm).
      rewrite wsum_app, wsum_cons in Hp. simpl in Hp.
      destruct (decide (msg_id m = i));
        destruct (decide (msg_size m - 1 = 0)); lia.
    + rewrite wsum_app. simpl.
      destruct (decide (msg_id m = i));
        destruct (decide (msg_size m - 1 = 0)); lia.
Qed.

Lemma lmass_idealScheduler g fp i pois slot w w' :
  weighting (fun n => n) g fp ->
  idealScheduler pois slot w = OK w' -> lmass g fp i w' = lmass g fp i w.
Proof.
  unfold idealScheduler, idealTransmit. intros Hw H.
  apply bind_OK_inv in H as (w1 & H1 & H2).
  apply (lmass_depleteAndRecord g fp i) in H2.
  apply (lmass_idealLoop g fp i) in H1; [lia | done | done].
Qed.

Lemma lmass_enqueueMsg g fp i newMsg w :
  lmass g fp i (enqueueMsg newMsg w)
  = lmass g fp i w
    + (if decide (msg_id newMsg = i) then g (msg_size newMsg) else 0).
Proof.
  unfold lmass, enqueueMsg. simpl.
  rewrite sort_by_perm, wsum_app. simpl. lia.
Qed.

Lemma lmass_queues_empty g fp i d :
  queuesNonEmpty d = false ->
  lmass g fp i (sim d)
  = wsum (fun r => fp (out_size r) (out_prio r))
      (default [] (pktOut (sim d) !! i)).
Proof.
  intros H. apply queuesNonEmpty_false in H as (Htx & Hrx & Hdq).
  unfold lmass. rewrite Htx, Hrx, Hdq. simpl. lia.
Qed.

Lemma lmassInvSimple_init g fp : lmassInvSimple g fp (simpleInit ∅ freshStores).
Proof.
  split; [done|]. intros i size slot H. simpl in H.
  by rewrite lookup_empty in H.
Qed.

Lemma lmassInvSimple_enqueue g fp distMatrix probPerSlot rand slot d arrival :
  lmassInvSimple g fp d ->
  simpleArrival distMatrix probPerSlot rand d = OK arrival ->
  lmassInvSimple g fp (simpleEnqueue slot d arrival).
Proof.
  intros [Ha Hb] Harr. destruct arrival as [m|]; [|done].
  apply simpleArrival_Some in Harr. split; simpl.
  - intros i Hi. rewrite lmass_enqueueMsg, decide_False by lia.
    rewrite Ha by lia. lia.
  - intros i size s Hl. rewrite lmass_enqueueMsg.
    destruct (decide (msgId d = i)) as [<-|Hne].
    + rewrite lookup_insert_eq in Hl. inversion Hl; subst.
      rewrite decide_True by done. rewrite Ha by lia. lia.
    + rewrite lookup_insert_ne in Hl by done.
      destruct (Hb i size s Hl) as [H1 H2].
      rewrite decide_False by congruence. lia.
Qed.

Lemma lmassInvSimple_sched g fp d w nr sv :
  lmassInvSimple g fp d ->
  (forall i, lmass g fp i w = lmass g fp i (sim d)) ->
  lmassInvSimple g fp (MkDriver w (msgId d) (msgDict d) nr sv).
Proof.
  intros [Ha Hb] Hm. split; simpl.
  - intros i Hi. rewrite Hm. by apply Ha.
  - intros i size s Hl. rewrite Hm. by apply (Hb i size s).
Qed.

Lemma lmass_simple_phase g fp distMatrix probPerSlot rand pois steps fuel d1 d2 :
  weighting (fun _ => 0) g fp ->
  forRange (simpleSlot distMatrix probPerSlot rand pois) steps
    (simpleInit ∅ freshStores) = OK d1 ->
  whileLoop queuesNonEmpty (drainStep (simpleScheduler pois)) fuel d1 = OK d2 ->
  lmassInvSimple g fp d2 /\ queuesNonEmpty d2 = false.
Proof.
  intros Hw Hd1 Hd2. apply whileLoop_prefix in Hd2 as [Hd2 Hq]. split; [|done].
  assert (Hfor : forall n d,
    forRange (simpleSlot distMatrix probPerSlot rand pois) n
      (simpleInit ∅ freshStores) = OK d -> lmassInvSimple g fp d).
  { apply (forRange_inv (fun _ => lmassInvSimple g fp)).
    - apply lmassInvSimple_init.
    - intros k s s' Hs Hb.
      apply simpleSlot_inv in Hb as (arrival & w & Ha & Hsch & ->).
      apply (lmassInvSimple_sched g fp (simpleEnqueue k s arrival)).
      + by eapply lmassInvSimple_enqueue.
      + intros i. by eapply lmass_simpleScheduler. }
  eapply (whilePrefix_inv (lmassInvSimple g fp));
    [|exact (Hfor steps d1 Hd1)|exact Hd2].
  intros s s' Hs _ Hb.
  apply drainStep_inv in Hb as (slot & w & _ & Hsch & ->).
  apply lmassInvSimple_sched; [done|].
  intros i. by eapply lmass_simpleScheduler.
Qed.

Lemma lmassInvIdeal_enqueue g fp slot d :
  lmassInvIdeal g fp d ->
  lmassInvIdeal g fp (idealEnqueue slot d (idealArrival slot d)).
Proof.
  intros (H0 & Ha & Hb).
  destruct (idealArrival slot d) as [m|] eqn:Harr; [|done].
  apply idealArrival_Some in Harr as [Hid Hl].
  split; [simpl; lia|]. split; simpl.
  - intros i Hi. rewrite lmass_enqueueMsg, decide_False by lia.
    rewrite Ha by lia. lia.
  - intros i size s Hi Hli. rewrite lmass_enqueueMsg.
    destruct (decide (msg_id m = i)) as [He|Hne].
    + subst i. rewrite Hid in Hli. rewrite Hl in Hli. inversion Hli; subst.
      rewrite Ha by lia. lia.
    + rewrite (Hb i size s) by (done || lia). lia.
Qed.

Lemma lmassInvIdeal_sched g fp d w nr sv :
  lmassInvIdeal g fp d ->
  (forall i, lmass g fp i w = lmass g fp i (sim d)) ->
  lmassInvIdeal g fp (MkDriver w (msgId d) (msgDict d) nr sv).
Proof.
  intros (H0 & Ha & Hb) Hm. split; [done|]. split; simpl.
  - intros i Hi. rewrite Hm. by apply Ha.
  - intros i size s Hi Hl. rewrite Hm. by eapply Hb.
Qed.

Lemma lmass_ideal_phase g fp pois steps fuel d2 e1 e2 :
  weighting (fun n => n) g fp ->
  forRange (idealSlot pois) steps (idealInit freshStores d2) = OK e1 ->
  whileLoop queuesNonEmpty (drainStep (idealScheduler pois)) fuel e1 = OK e2 ->
  lmassInvIdeal g fp e2 /\ queuesNonEmpty e2 = false.
Proof.
  intros Hw He1 He2. apply whileLoop_prefix in He2 as [He2 Hq]. split; [|done].
  assert (Hfor : forall n e,
    forRange (idealSlot pois) n (idealInit freshStores d2) = OK e ->
    lmassInvIdeal g fp e).
  { apply (forRange_inv (fun _ => lmassInvIdeal g fp)).
    - split; [done|]. split; [done|]. simpl. intros; lia.
    - intros k s s' Hs Hb. apply idealSlot_inv in Hb as (w & Hsch & ->).
      pose proof (lmassInvIdeal_enqueue g fp k s Hs) as He.
      eapply (lmassInvIdeal_sched g fp _ w) in He.
      + replace (msgDict s)
          with (msgDict (idealEnqueue k s (idealArrival k s)))
          by (by destruct (idealArrival k s)).
        replace (nRand s)
          with (nRand (idealEnqueue k s (idealArrival k s)))
          by (by destruct (idealArrival k s)).
        exact He.
      + intros i. by eapply lmass_idealScheduler. }
  eapply (whilePrefix_inv (lmassInvIdeal g fp));
    [|exact (Hfor steps e1 He1)|exact He2].
  intros s s' Hs _ Hb.
  apply drainStep_inv in Hb as (slot & w & _ & Hsch & ->).
  apply lmassInvIdeal_sched; [done|].
  intros i. by eapply lmass_idealScheduler.
Qed.

Lemma run_lmass g fpS fpI steps rho distMatrix rand pois fuel msgDict stores :
  weighting (fun _ => 0) g fpS -> weighting (fun n => n) g fpI ->
  run steps rho distMatrix rand pois fuel ∅ freshStores = OK (msgDict, stores) ->
  forall i size arr, msgDict !! i = Some (size, arr) ->
    wsum (fun r => fpS (out_size r) (out_prio r))
      (default [] (simpleStore stores !! i)) = g size
    /\ wsum (fun r => fpI (out_size r) (out_prio r))
         (default [] (idealStore stores !! i)) = g size.
Proof.
  intros HwS HwI H i size arr Hl.
  apply run_inv in H as (p & d1 & d2 & e1 & e2 & _ & Hd1 & Hd2 & He1 & He2 & E).
  inversion E; subst msgDict stores. clear E. simpl.
  pose proof (drain_msgDict _ _ _ _ Hd2) as [Hm2 Hi2].
  pose proof (drain_msgDict _ _ _ _ He2) as [Hm3 Hi3].
  destruct (lockstep _ _ _ pois _ _ d2 steps Hd1 Hm2)
    as (sS & eS & HsS & HeS & Hm1 & Hid1); [lia|].
  rewrite Hd1 in HsS. inversion HsS; subst sS.
  rewrite He1 in HeS. inversion HeS; subst eS.
  rewrite Hm3, Hm1 in Hl.
  destruct (lmass_simple_phase g fpS _ _ _ _ _ _ _ _ HwS Hd1 Hd2)
    as ([_ HmS] & HqS).
  destruct (lmass_ideal_phase g fpI _ _ _ _ _ _ HwI He1 He2)
    as ((_ & _ & HmI) & HqI).
  pose proof (dictBelow_for _ _ _ _ _ _ Hd1) as [_ Hdb].
  destruct (Hdb i size arr Hl) as [Hi _]. split.
  - rewrite <- (lmass_queues_empty g fpS i d2 HqS).
    apply (HmS i size arr). by rewrite Hm2.
  - rewrite <- (lmass_queues_empty g fpI i e2 HqI).
    apply (HmI i size arr); [lia|]. by rewrite Hm3, Hm1.
Qed.

Lemma weighting_packet prioOf k :
  1 <= k -> weighting prioOf (stillHolds k) (isPacket k (prioOf k)).
Proof.
  intros Hk n. unfold stillHolds, isPacket.
  destruct (decide (n = k)) as [->|Hne].
  - rewrite decide_True by lia. rewrite (decide_True (P := _ /\ _)) by done.
    repeat case_decide; lia.
  - rewrite (decide_False (P := _ /\ _)) by tauto.
    repeat case_decide; lia.
Qed.

Lemma wsum_isPacket k prio recs :
  0 < wsum (fun r => isPacket k prio (out_size r) (out_prio r)) recs ->
  (k, prio) ∈ recordLabel <$> recs.
Proof.
  induction recs as [|r recs IH]; [simpl; lia|].
  rewrite wsum_cons, fmap_cons. unfold isPacket at 1.
  case_decide as Hr.
  - intros _. destruct Hr as [<- <-]. apply elem_of_cons. by left.
  - intros H. apply elem_of_cons. right. apply IH. lia.
Qed.

Lemma labels_permutation (prioOf : Z -> Z) size recs :
  Z.of_nat (length recs) = size ->
  (forall k, 1 <= k <= size -> (k, prioOf k) ∈ recordLabel <$> recs) ->
  recordLabel <$> recs ≡ₚ (fun k => (k, prioOf k)) <$> seqZ 1 size.
Proof.
  intros Hlen Hin. symmetry. apply submseteq_length_Permutation.
  - apply NoDup_submseteq.
    + apply NoDup_fmap_2; [|apply NoDup_seqZ]. by intros k1 k2 [= ->].
    + intros x Hx. apply list_elem_of_fmap in Hx as (k & -> & Hk).
      apply elem_of_seqZ in Hk. apply Hin. lia.
  - rewrite !length_fmap, length_seqZ. lia.
Qed.

(** X10: Every packet of every message departs once.  When [run] returns,
    the records of a message of size [n] in the store of the simple
    scheduler carry, in some order, the remaining sizes [1, ..., n], each
    once, all with priority 0; its records in the store of the ideal
    scheduler carry the remaining sizes [1, ..., n], each once, each with
    its remaining size as priority. *)
Theorem packets_depart_once steps rho distMatrix rand pois fuel msgDict stores :
  run steps rho distMatrix rand pois fuel ∅ freshStores = OK (msgDict, stores) ->
  forall i size arr, msgDict !! i = Some (size, arr) ->
    exists recsSimple recsIdeal,
      simpleStore stores !! i = Some recsSimple
      /\ idealStore stores !! i = Some recsIdeal
      /\ recordLabel <$> recsSimple ≡ₚ (fun k => (k, 0)) <$> seqZ 1 size
      /\ recordLabel <$> recsIdeal ≡ₚ (fun k => (k, k)) <$> seqZ 1 size.
Proof.
  intros H i size arr Hl.
  destruct (run_counts _ _ _ _ _ _ _ _ H i size arr Hl) as (Hpos & HoS & HoI).
  unfold outCount in HoS, HoI.
  destruct (simpleStore stores !! i) as [recsS|] eqn:ES;
    [|simpl in HoS; lia].
  destruct (idealStore stores !! i) as [recsI|] eqn:EI;
    [|simpl in HoI; lia].
  simpl in HoS, HoI. exists recsS, recsI. split; [done|]. split; [done|].
  split.
  - apply (labels_permutation (fun _ => 0)); [done|]. intros k Hk.
    apply wsum_isPacket.
    destruct (run_lmass (stillHolds k) (isPacket k 0) (isPacket k k)
                _ _ _ _ _ _ _ _
                (weighting_packet (fun _ => 0) k (proj1 Hk))
                (weighting_packet (fun n => n) k (proj1 Hk))
                H i size arr Hl) as [HS _].
    rewrite ES in HS. simpl in HS. rewrite HS. unfold stillHolds.
    rewrite decide_True by lia. lia.
  - apply (labels_permutation (fun n => n)); [done|]. intros k Hk.
    apply wsum_isPacket.
    destruct (run_lmass (stillHolds k) (isPacket k 0) (isPacket k k)
                _ _ _ _ _ _ _ _
                (weighting_packet (fun _ => 0) k (proj1 Hk))
                (weighting_packet (fun n => n) k (proj1 Hk))
                H i size arr Hl) as [_ HI].
    rewrite EI in HI. simpl in HI. rewrite HI. unfold stillHolds.
    rewrite decide_True by lia. lia.
Qed.

Lemma packets_depart_once_witness :
  exists recsSimple recsIdeal,
    simpleStore exStores !! 0 = Some recsSimple
    /\ idealStore exStores !! 0 = Some recsIdeal
    /\ recordLabel <$> recsSimple ≡ₚ (fun k => (k, 0)) <$> seqZ 1 2
    /\ recordLabel <$> recsIdeal ≡ₚ (fun k => (k, k)) <$> seqZ 1 2.
Proof.
  apply (packets_depart_once 2 (3#10) exTable exRand exPois 10 exMsgDict
           exStores exRun_result 0 2 0).
  vm_compute. reflexivity.
Defined.

(** ** Where a new element goes, and which packet is retired *)

Lemma Forall_filter_keep {A} (P Q : A -> Prop) `{!forall a, Decision (Q a)} l :
  Forall P l -> Forall P (filter Q l).
Proof.
  induction 1 as [|x l Hx _ IH]; [constructor|]. rewrite filter_cons.
  case_decide; [by constructor | done].
Qed.

Lemma filter_none {A} (P : A -> Prop) `{!forall a, Decision (P a)} l :
  Forall (fun a => ~ P a) l -> filter P l = [].
Proof.
  induction 1 as [|x l Hx _ IH]; [done|].
  by rewrite filter_cons, decide_False.
Qed.

Section stable.
Context {A : Type} (key : A -> Z).

Lemma insert_by_least x (l : list A) :
  Forall (fun y => key x <= key y) l -> insert_by key x l = x :: l.
Proof.
  destruct l as [|y l]; [done|]. intros H. inversion H; subst. simpl.
  by rewrite decide_True.
Qed.

Lemma sort_by_snoc x (l : list A) :
  sortedBy key l ->
  sort_by key (l ++ [x])
  = filter (fun y => key y <= key x) l
    ++ x :: filter (fun y => key x < key y) l.
Proof.
  induction l as [|y l IH]; intros Hs; [done|].
  apply sortedBy_cons in Hs as [Hy Hl]. specialize (IH Hl).
  change (sort_by key ((y :: l) ++ [x]))
    with (insert_by key y (sort_by key (l ++ [x]))).
  rewrite IH, !filter_cons.
  destruct (decide (key y <= key x)) as [Hle|Hgt].
  - rewrite decide_False by lia. apply insert_by_least.
    apply Forall_app. split.
    + by apply Forall_filter_keep.
    + constructor; [done|]. by apply Forall_filter_keep.
  - rewrite decide_True by lia.
    assert (Hall : Forall (fun z => key x < key z) l).
    { eapply Forall_impl; [exact Hy|]. simpl. intros; lia. }
    assert (Hnone : filter (fun z => key z <= key x) l = []).
    { apply filter_none. eapply Forall_impl; [exact Hall|].
      simpl. intros; lia. }
    assert (Hsame : filter (fun z => key x < key z) l = l)
      by (by apply filter_all).
    rewrite Hnone, Hsame. simpl. rewrite decide_False by lia.
    by rewrite insert_by_least.
Qed.

Lemma sort_by_head (l : list A) p rest :
  sort_by key l = p :: rest ->
  exists l1 l2,
    l = l1 ++ p :: l2
    /\ Forall (fun q => key p < key q) l1
    /\ Forall (fun q => key p <= key q) l2
    /\ rest = sort_by key (l1 ++ l2).
Proof.
  revert p rest. induction l as [|x l IH]; intros p rest H; [done|].
  change (sort_by key (x :: l)) with (insert_by key x (sort_by key l)) in H.
  destruct (sort_by key l) as [|y S'] eqn:ES.
  - assert (l = []) as ->.
    { apply (f_equal length) in ES. rewrite sort_by_length in ES.
      by destruct l. }
    simpl in H. inversion H; subst. exists [], []. by repeat split.
  - destruct (IH y S' eq_refl) as (l1 & l2 & -> & H1 & H2 & ->).
    simpl in H. destruct (decide (key x <= key y)) as [Hle|Hgt].
    + inversion H; subst. exists [], (l1 ++ y :: l2).
      split; [done|]. split; [constructor|]. split; [|by rewrite <- ES].
      apply Forall_app. split.
      * eapply Forall_impl; [exact H1|]. simpl. intros; lia.
      * constructor; [done|]. eapply Forall_impl; [exact H2|].
        simpl. intros; lia.
    + inversion H; subst. exists (x :: l1), l2.
      split; [done|]. split; [constructor; [lia | done]|]. by split.
Qed.

End stable.

Lemma depleteAndRecord_retires slot w w' :
  depleteAndRecord slot w = OK w' -> retiresFirstOfLeast slot w w'.
Proof.
  rewrite depleteAndRecord_spec. intros [= <-].
  match goal with |- context [recordDeparture ?s ?self ?out] =>
    pose proof (recordDeparture_sched s self out) as Hs;
    pose proof (recordDeparture_store s self out) as Ho;
    destruct (recordDeparture s self out) as [self' out'] eqn:E
  end.
  simpl in *. subst self' out'. unfold retiresFirstOfLeast. simpl.
  destruct (sort_by pkt_prio _) as [|p rest] eqn:ES.
  - left. split; [|done].
    apply (f_equal length) in ES. rewrite sort_by_length in ES.
    by destruct (rxQueue (sched w) ++ released (delayQueue (sched w))).
  - right. apply sort_by_head in ES as (l1 & l2 & Hl & H1 & H2 & Hr).
    exists l1, p, l2. by rewrite Hl.
Qed.

(** X11: Which packet leaves.  One invocation of either scheduler returns
    and retires, of the packets received so far (the receive queue followed
    by the packets whose delay has just run out), the first one among those
    with the least priority value: every packet received before it has a
    strictly larger value and none has a smaller one.  The others stay in
    the receive queue in order of priority, and the record of the retired
    one is appended under its message id with the slot of the invocation. *)
Theorem retires_first_of_least_priority (pois : nat -> nat) (slot : Z) (w : Sim) :
  (exists w', simpleScheduler pois slot w = OK w'
              /\ retiresFirstOfLeast slot w w')
  /\ (exists w', idealScheduler pois slot w = OK w'
                 /\ retiresFirstOfLeast slot w w').
Proof.
  split.
  - destruct (simpleScheduler_total pois slot w) as [w' Hw']. exists w'.
    split; [done|]. unfold simpleScheduler in Hw'.
    apply depleteAndRecord_retires in Hw'.
    destruct (simpleTransmit_released pois w) as (Hrel & Hrx & Hout).
    unfold retiresFirstOfLeast in *. by rewrite Hrel, Hrx, Hout in Hw'.
  - destruct (idealScheduler_total pois slot w) as [w' Hw']. exists w'.
    split; [done|]. unfold idealScheduler, idealTransmit in Hw'.
    apply bind_OK_inv in Hw' as (w1 & H1 & H2).
    apply depleteAndRecord_retires in H2.
    apply idealLoop_released in H1 as (Hrel & Hrx & Hout).
    unfold retiresFirstOfLeast in *. by rewrite Hrel, Hrx, Hout in H2.
Qed.

(** X12: Where a new element goes.  In a transmit queue that is in order
    of size, the message that [run] appends and sorts in ends up behind
    every message that is not larger and in front of every larger one: ties
    are served in order of arrival.  In a delay queue that is in order of
    delay, the packet that [addPktToDelayQueue] adds, with the delay
    [np.random.poisson(avgDelay) + fixedDelay], ends up behind every entry
    whose delay is not larger.  Nothing else moves. *)
Theorem new_element_position (newMsg : msg) (w : Sim) (p : pkt) (sample : nat)
    (self : Scheduler) :
  sortedBy msg_size (txQueue (sched w)) ->
  sortedBy dp_delay (delayQueue self) ->
  txQueue (sched (enqueueMsg newMsg w))
  = filter (fun m => msg_size m <= msg_size newMsg) (txQueue (sched w))
    ++ newMsg
       :: filter (fun m => msg_size newMsg < msg_size m) (txQueue (sched w))
  /\ (let d := DelayedPkt (pkt_id p) (pkt_size p) (pkt_prio p)
                 (Z.of_nat sample + fixedDelay) in
      delayQueue (addPktToDelayQueue p sample self)
      = filter (fun e => dp_delay e <= dp_delay d) (delayQueue self)
        ++ d :: filter (fun e => dp_delay d < dp_delay e) (delayQueue self))
  /\ rxQueue (sched (enqueueMsg newMsg w)) = rxQueue (sched w)
  /\ delayQueue (sched (enqueueMsg newMsg w)) = delayQueue (sched w)
  /\ txQueue (addPktToDelayQueue p sample self) = txQueue self
  /\ rxQueue (addPktToDelayQueue p sample self) = rxQueue self.
Proof.
  intros Htx Hdq. split; [|split; [|done]].
  - simpl. by apply sort_by_snoc.
  - cbn zeta. unfold addPktToDelayQueue. cbn [delayQueue].
    by apply (sort_by_snoc dp_delay).
Qed.

Lemma new_element_position_witness :
  txQueue (sched (enqueueMsg (Msg 7 2)
                    (MkSim (MkScheduler [Msg 3 1; Msg 4 2; Msg 5 3] [] []) ∅ 0)))
  = filter (fun m => msg_size m <= 2) [Msg 3 1; Msg 4 2; Msg 5 3]
    ++ Msg 7 2 :: filter (fun m => 2 < msg_size m) [Msg 3 1; Msg 4 2; Msg 5 3]
  /\ (let d := DelayedPkt 7 2 0 (Z.of_nat 1 + fixedDelay) in
      delayQueue (addPktToDelayQueue (Pkt 7 2 0) 1
                    (MkScheduler [] [] [DelayedPkt 3 1 0 2; DelayedPkt 4 2 0 5]))
      = filter (fun e => dp_delay e <= dp_delay d)
          [DelayedPkt 3 1 0 2; DelayedPkt 4 2 0 5]
        ++ d :: filter (fun e => dp_delay d < dp_delay e)
                  [DelayedPkt 3 1 0 2; DelayedPkt 4 2 0 5])
  /\ rxQueue (sched (enqueueMsg (Msg 7 2)
                       (MkSim (MkScheduler [Msg 3 1; Msg 4 2; Msg 5 3] [] [])
                          ∅ 0))) = []
  /\ delayQueue (sched (enqueueMsg (Msg 7 2)
                          (MkSim (MkScheduler [Msg 3 1; Msg 4 2; Msg 5 3] [] [])
                             ∅ 0))) = []
  /\ txQueue (addPktToDelayQueue (Pkt 7 2 0) 1
                (MkScheduler [] [] [DelayedPkt 3 1 0 2; DelayedPkt 4 2 0 5]))
     = []
  /\ rxQueue (addPktToDelayQueue (Pkt 7 2 0) 1
                (MkScheduler [] [] [DelayedPkt 3 1 0 2; DelayedPkt 4 2 0 5]))
     = [].
Proof.
  apply (new_element_position (Msg 7 2)
           (MkSim (MkScheduler [Msg 3 1; Msg 4 2; Msg 5 3] [] []) ∅ 0)
           (Pkt 7 2 0) 1
           (MkScheduler [] [] [DelayedPkt 3 1 0 2; DelayedPkt 4 2 0 5])).
  - repeat (constructor; [repeat constructor; simpl; lia|]). constructor.
  - repeat (constructor; [repeat constructor; simpl; lia|]). constructor.
Defined.

(** ** The transmit loop of idealScheduler *)

Lemma idealPackets_cons pois k0 m rest :
  idealPackets pois k0 (m :: rest)
  = DelayedPkt (msg_id m) (msg_size m) (msg_size m)
      (Z.of_nat (pois k0) + fixedDelay)
    :: idealPackets pois (S k0) rest.
Proof.
  unfold idealPackets. rewrite imap_cons, Nat.add_0_r. f_equal.
  apply imap_ext. intros k x _. unfold compose.
  by replace (k0 + S k)%nat with (S k0 + k)%nat by lia.
Qed.

Lemma idealLoop_spec pois todo done w w' :
  txQueue (sched w) = done ++ todo ->
  idealLoop pois todo done w = OK w' ->
  nPois w' = (nPois w + length todo)%nat
  /\ delayQueue (sched w')
     ≡ₚ delayQueue (sched w) ++ idealPackets pois (nPois w) todo
  /\ txQueue (sched w')
     ≡ₚ done ++ (decrSize <$> filter (fun m => msg_size m <> 1) todo).
Proof.
  revert done w. induction todo as [|m rest IH]; intros done w Htx Hl.
  - simpl in Hl. inversion Hl; subst. rewrite Htx.
    split; [simpl; lia|]. split; [by rewrite app_nil_r | done].
  - simpl in Hl.
    destruct (idealVisit_spec pois m rest done w) as (done' & E & Hcase).
    rewrite E in Hl. cbn [mbind result_bind] in Hl.
    apply IH in Hl as (Hn & Hdq & Htx'); [|done]. simpl in Hn, Hdq.
    split; [simpl; lia|]. split.
    + rewrite Hdq, sort_by_perm, idealPackets_cons, <- app_assoc. done.
    + rewrite Htx', filter_cons.
      destruct Hcase as [(H1 & Hperm & _)|(H1 & ->)].
      * rewrite decide_False by tauto. f_equiv.
        apply (Permutation_cons_inv (a := m)). rewrite <- Hperm.
        by rewrite Permutation_app_comm.
      * rewrite decide_True by done. by rewrite fmap_cons, <- app_assoc.
Qed.

Lemma idealLoop_tx_exact pois todo done w w' :
  sortedBy msg_size todo -> Forall (fun m => 1 <= msg_size m) todo ->
  done = [] \/ Forall (fun m => msg_size m <> 1) todo ->
  txQueue (sched w) = done ++ todo ->
  idealLoop pois todo done w = OK w' ->
  txQueue (sched w')
  = done ++ (decrSize <$> filter (fun m => msg_size m <> 1) todo).
Proof.
  revert done w.
  induction todo as [|m rest IH]; intros done w Hs Hpos Hor Htx Hl.
  - simpl in Hl. inversion Hl; subst. by rewrite Htx.
  - simpl in Hl.
    destruct (idealVisit_spec pois m rest done w) as (done' & E & Hcase).
    rewrite E in Hl. cbn [mbind result_bind] in Hl.
    apply sortedBy_cons in Hs as [Hm Hs].
    inversion Hpos as [|? ? Hm1 Hpos']; subst.
    rewrite filter_cons.
    destruct Hcase as [(H1 & _ & Hnot)|(H1 & ->)].
    + rewrite decide_False by tauto.
      destruct Hor as [->|Hall]; [|by inversion Hall].
      rewrite Hnot in Hl by apply not_elem_of_nil.
      apply IH in Hl; [done | done | done | by left | done].
    + rewrite decide_True by done.
      apply IH in Hl; [|done|done| |done].
      * by rewrite Hl, fmap_cons, <- app_assoc.
      * right. eapply Forall_impl; [exact Hm|]. simpl. intros; lia.
Qed.

(** X13: The transmit loop of the ideal scheduler.  It always returns, and
    it makes one packet from every message of the transmit queue, in the
    order of the queue: the packet carries the remaining size of its message
    as size and as priority, and gets the next Poisson sample plus
    [fixedDelay] as delay.  The receive queue and the records are not
    touched.  What is left of the transmit queue is, up to the order, every
    message that had more than one packet, one packet smaller; when the
    queue was in order of size with all sizes at least 1 the order is kept
    too. *)
Theorem ideal_transmit_one_packet_each (pois : nat -> nat) (w : Sim) :
  exists w',
    idealTransmit pois w = OK w'
    /\ rxQueue (sched w') = rxQueue (sched w)
    /\ pktOut w' = pktOut w
    /\ nPois w' = (nPois w + length (txQueue (sched w)))%nat
    /\ delayQueue (sched w')
       ≡ₚ delayQueue (sched w)
          ++ idealPackets pois (nPois w) (txQueue (sched w))
    /\ txQueue (sched w')
       ≡ₚ decrSize <$> filter (fun m => msg_size m <> 1) (txQueue (sched w))
    /\ (sortedBy msg_size (txQueue (sched w)) ->
        Forall (fun m => 1 <= msg_size m) (txQueue (sched w)) ->
        txQueue (sched w')
        = decrSize <$> filter (fun m => msg_size m <> 1) (txQueue (sched w))).
Proof.
  unfold idealTransmit.
  destruct (idealLoop_total pois (txQueue (sched w)) [] w) as [w' Hw'].
  exists w'. split; [done|].
  destruct (idealLoop_released _ _ _ _ _ Hw') as (_ & Hrx & Hout).
  destruct (idealLoop_spec pois (txQueue (sched w)) [] w w' eq_refl Hw')
    as (Hn & Hdq & Htx).
  split; [done|]. split; [done|]. split; [done|]. split; [done|].
  split; [done|]. intros Hs Hpos.
  apply (idealLoop_tx_exact pois (txQueue (sched w)) [] w w' Hs Hpos
           (or_introl eq_refl) eq_refl Hw').
Qed.

Lemma ideal_transmit_one_packet_each_witness :
  exists w',
    idealTransmit exPois
      (MkSim (MkScheduler [Msg 0 1; Msg 1 1; Msg 2 3] [] []) ∅ 0) = OK w'
    /\ txQueue (sched w') = [Msg 2 2].
Proof.
  destruct (ideal_transmit_one_packet_each exPois
              (MkSim (MkScheduler [Msg 0 1; Msg 1 1; Msg 2 3] [] []) ∅ 0))
    as (w' & Hw' & _ & _ & _ & _ & _ & Hexact).
  exists w'. split; [exact Hw'|]. apply Hexact.
  - repeat (constructor; [repeat constructor; simpl; lia|]). constructor.
  - repeat constructor; simpl; lia.
Defined.

(** ** The order of departure in the two phases *)

Lemma prioBy_arrived f w :
  prioBy f w ->
  Forall (fun p => pkt_prio p = f (pkt_size p))
    (rxQueue (sched w) ++ released (delayQueue (sched w))).
Proof.
  intros [Hdq Hrx]. apply Forall_app. split; [done|].
  unfold released. apply Forall_fmap.
  apply (Forall_filter_keep _ (fun d => dp_delay d = 0)).
  eapply Forall_impl; [exact Hdq|]. done.
Qed.

Lemma prioBy_depleteAndRecord f slot w w' :
  prioBy f w -> depleteAndRecord slot w = OK w' -> prioBy f w'.
Proof.
  intros Hp. pose proof (prioBy_arrived f w Hp) as Harr. destruct Hp as [Hdq Hrx].
  rewrite depleteAndRecord_spec. intros [= <-].
  match goal with |- context [recordDeparture ?s ?self ?out] =>
    pose proof (recordDeparture_sched s self out) as Hs;
    destruct (recordDeparture s self out) as [self' out'] eqn:E
  end.
  simpl in Hs. subst self'. split; simpl.
  - unfold inFlight. apply Forall_fmap.
    apply (Forall_filter_keep _ (fun d => dp_delay d <> 0)).
    eapply Forall_impl; [exact Hdq|]. done.
  - rewrite <- (sort_by_perm pkt_prio) in Harr.
    destruct (sort_by pkt_prio _) as [|p rest]; [done|]. by inversion Harr.
Qed.

Lemma prioBy_inject f w tx' k' id size delay :
  prioBy f w ->
  prioBy f (MkSim (MkScheduler tx' (rxQueue (sched w))
                     (sort_by dp_delay
                        (delayQueue (sched w)
                         ++ [DelayedPkt id size (f size) delay])))
              (pktOut w) k').
Proof.
  intros [Hdq Hrx]. split; simpl; [|done].
  rewrite sort_by_perm. apply Forall_app. split; [done|]. by repeat constructor.
Qed.

Lemma prioBy_simpleScheduler pois slot w w' :
  prioBy (fun _ => 0) w -> simpleScheduler pois slot w = OK w' ->
  prioBy (fun _ => 0) w'.
Proof.
  intros Hp. unfold simpleScheduler.
  apply prioBy_depleteAndRecord. unfold simpleTransmit.
  destruct (txQueue (sched w)) as [|h rest]; [done|]. cbn zeta.
  unfold addPktToDelayQueue.
  cbn [txQueue rxQueue delayQueue pkt_id pkt_size pkt_prio].
  case_decide; by apply (prioBy_inject (fun _ => 0)).
Qed.

Lemma prioBy_idealLoop pois todo done w w' :
  prioBy (fun n => n) w -> idealLoop pois todo done w = OK w' ->
  prioBy (fun n => n) w'.
Proof.
  revert done w. induction todo as [|m rest IH]; intros done w Hp Hl.
  - simpl in Hl. by inversion Hl; subst.
  - simpl in Hl.
    destruct (idealVisit_spec pois m rest done w) as (done' & E & _).
    rewrite E in Hl. cbn [mbind result_bind] in Hl.
    eapply IH; [|exact Hl]. by apply (prioBy_inject (fun n => n)).
Qed.

Lemma prioBy_idealScheduler pois slot w w' :
  prioBy (fun n => n) w -> idealScheduler pois slot w = OK w' ->
  prioBy (fun n => n) w'.
Proof.
  intros Hp. unfold idealScheduler, idealTransmit. intros H.
  apply bind_OK_inv in H as (w1 & H1 & H2).
  eapply prioBy_depleteAndRecord; [|exact H2].
  by eapply prioBy_idealLoop.
Qed.

Lemma prioBy_simple_boundary distMatrix probPerSlot rand pois steps d :
  simpleBoundary distMatrix probPerSlot rand pois steps d ->
  prioBy (fun _ => 0) (sim d).
Proof.
  assert (Hfor : forall n d1,
    forRange (simpleSlot distMatrix probPerSlot rand pois) n
      (simpleInit ∅ freshStores) = OK d1 -> prioBy (fun _ => 0) (sim d1)).
  { apply (forRange_inv (fun _ d1 => prioBy (fun _ => 0) (sim d1))).
    - by split.
    - intros k s s' Hs Hb.
      apply simpleSlot_inv in Hb as (arrival & w & _ & Hw & ->). simpl.
      eapply prioBy_simpleScheduler; [|exact Hw].
      by destruct arrival. }
  intros [(n & _ & Hn)|(d1 & k & H1 & Hk)]; [by eapply Hfor|].
  eapply (whilePrefix_inv (fun d1 => prioBy (fun _ => 0) (sim d1)));
    [|by eapply Hfor|exact Hk].
  intros s s' Hs _ Hb. apply drainStep_inv in Hb as (slot & w & _ & Hw & ->).
  simpl. by eapply prioBy_simpleScheduler.
Qed.

Lemma prioBy_ideal_boundary pois steps d2 d :
  idealBoundary pois steps d2 d -> prioBy (fun n => n) (sim d).
Proof.
  assert (Hfor : forall n e,
    forRange (idealSlot pois) n (idealInit freshStores d2) = OK e ->
    prioBy (fun n => n) (sim e)).
  { apply (forRange_inv (fun _ e => prioBy (fun n => n) (sim e))).
    - by split.
    - intros k s s' Hs Hb. apply idealSlot_inv in Hb as (w & Hw & ->). simpl.
      eapply prioBy_idealScheduler; [|exact Hw].
      by destruct (idealArrival k s). }
  intros [(n & _ & Hn)|(e1 & k & H1 & Hk)]; [by eapply Hfor|].
  eapply (whilePrefix_inv (fun e => prioBy (fun n => n) (sim e)));
    [|by eapply Hfor|exact Hk].
  intros s s' Hs _ Hb. apply drainStep_inv in Hb as (slot & w & _ & Hw & ->).
  simpl. by eapply prioBy_idealScheduler.
Qed.

Lemma simpleScheduler_fifo pois slot w :
  prioBy (fun _ => 0) w ->
  exists w', simpleScheduler pois slot w = OK w' /\ retiresHead slot w w'.
Proof.
  intros Hp. pose proof (prioBy_arrived _ w Hp) as Harr.
  unfold simpleScheduler. rewrite depleteAndRecord_spec. eexists. split; [done|].
  destruct (simpleTransmit_released pois w) as (Hrel & Hrx & Hout).
  match goal with |- context [recordDeparture ?s ?self ?out] =>
    pose proof (recordDeparture_sched s self out) as Hs;
    pose proof (recordDeparture_store s self out) as Ho;
    destruct (recordDeparture s self out) as [self' out'] eqn:E
  end.
  simpl in Hs, Ho. subst self' out'. unfold retiresHead. simpl.
  rewrite Hrel, Hrx, Hout.
  rewrite (sort_by_id pkt_prio) by (by apply (sortedBy_const _ 0)).
  split; [done|].
  destruct (rxQueue (sched w) ++ released (delayQueue (sched w))) as [|p rest];
    [done|].
  inversion Harr as [|? ? Hp0 _]; subst. by rewrite Hp0.
Qed.

Lemma idealScheduler_smallest pois slot w :
  prioBy (fun n => n) w ->
  exists w', idealScheduler pois slot w = OK w' /\ retiresSmallest slot w w'.
Proof.
  intros Hp. pose proof (prioBy_arrived _ w Hp) as Harr.
  destruct (idealScheduler_total pois slot w) as [w' Hw']. exists w'.
  split; [done|]. unfold idealScheduler, idealTransmit in Hw'.
  apply bind_OK_inv in Hw' as (w1 & H1 & H2).
  apply depleteAndRecord_retires in H2.
  apply idealLoop_released in H1 as (Hrel & Hrx & Hout).
  unfold retiresFirstOfLeast in H2. rewrite Hrel, Hrx, Hout in H2.
  unfold retiresSmallest.
  destruct H2 as [H2|(l1 & p & l2 & Hl & Hl1 & Hl2 & Hrx' & Ho)]; [by left|].
  right. exists l1, p, l2. rewrite Hl in Harr.
  apply Forall_app in Harr as [Ha1 Ha2].
  inversion Ha2 as [|? ? Hpp Ha2']; subst. simpl in Hpp.
  split; [done|]. split; [|split; [|split]].
  - rewrite Forall_forall in Hl1, Ha1. apply Forall_forall. intros q Hq.
    specialize (Hl1 q Hq). specialize (Ha1 q Hq). simpl in Ha1. lia.
  - rewrite Forall_forall in Hl2, Ha2'. apply Forall_forall. intros q Hq.
    specialize (Hl2 q Hq). specialize (Ha2' q Hq). simpl in Ha2'. lia.
  - by rewrite Hrx', sort_by_perm.
  - by rewrite Ho, Hpp.
Qed.

(** X14: the order of departure in the two phases of [run].  At every slot
    boundary of the first phase every packet in the delay queue and in the
    receive queue has priority 0, so the next invocation of
    [simpleScheduler] retires the packets first in, first out: it records
    the packet that was received first and leaves the others in the order
    in which they came.  At every slot boundary of the second phase every
    such packet has its remaining size as priority, so the next invocation
    of [idealScheduler] retires, of the packets received, the first one
    among those of the least remaining size. *)
Theorem departure_order_of_the_phases distMatrix probPerSlot rand pois steps :
  (forall d, simpleBoundary distMatrix probPerSlot rand pois steps d ->
     prioBy (fun _ => 0) (sim d)
     /\ forall slot, exists w',
          simpleScheduler pois slot (sim d) = OK w'
          /\ retiresHead slot (sim d) w')
  /\ (forall d2 d, idealBoundary pois steps d2 d ->
        prioBy (fun n => n) (sim d)
        /\ forall slot, exists w',
             idealScheduler pois slot (sim d) = OK w'
             /\ retiresSmallest slot (sim d) w').
Proof.
  split.
  - intros d Hb. pose proof (prioBy_simple_boundary _ _ _ _ _ _ Hb) as Hp.
    split; [done|]. intros slot. by apply simpleScheduler_fifo.
  - intros d2 d Hb. pose proof (prioBy_ideal_boundary _ _ _ _ Hb) as Hp.
    split; [done|]. intros slot. by apply idealScheduler_smallest.
Qed.

Lemma departure_order_of_the_phases_witness :
  (rxQueue (sched (sim exBurstSimple))
     ++ released (delayQueue (sched (sim exBurstSimple)))
   = [Pkt 0 2 0; Pkt 0 1 0; Pkt 1 1 0]
   /\ prioBy (fun _ => 0) (sim exBurstSimple)
   /\ forall slot, exists w',
        simpleScheduler exPoisBurst slot (sim exBurstSimple) = OK w'
        /\ retiresHead slot (sim exBurstSimple) w')
  /\ (rxQueue (sched (sim exBurstIdeal))
        ++ released (delayQueue (sched (sim exBurstIdeal)))
      = [Pkt 0 2 2; Pkt 0 1 1]
      /\ prioBy (fun n => n) (sim exBurstIdeal)
      /\ forall slot, exists w',
           idealScheduler exPoisBurst slot (sim exBurstIdeal) = OK w'
           /\ retiresSmallest slot (sim exBurstIdeal) w').
Proof.
  split; (split; [vm_compute; reflexivity|]).
  - apply (proj1 (departure_order_of_the_phases exTable (1#5) exRand
                    exPoisBurst 2) exBurstSimple).
    right. exists exBurstLoopEnd, 1%nat. split; vm_compute; reflexivity.
  - apply (proj2 (departure_order_of_the_phases exTable (1#5) exRand
                    exPoisBurst 2) exBurstDrained exBurstIdeal).
    right. exists exBurstReplayEnd, 1%nat. split; vm_compute; reflexivity.
Defined.
